(** * Webflow2React converter: a shallow embedding of [src/scripts/converter.js]

    The development follows the source file top to bottom: JavaScript string
    helpers, the parsed-markup tree, the structural signature, prop inference,
    the JSX generator, the global naming registry, the pattern detector and
    the per-tree driver; the properties come after the definitions.

    Conventions of the embedding.
    - A JavaScript string is a [string] of Latin-1 code units; [String.prototype.trim]
      and the regular-expression class [\s] see the code units 9-13, 32 and 160
      as white space.
    - A node of the tree written by [src/script/index.js] (htmlparser2) is a
      [Node]; its attribute values are strings, so the branches of the source
      on boolean or numeric values are not entered and are left out. Object
      identity ([===], [Map] and [Set] keyed by node) is the field [node_id]:
      nodes read from one JSON file are pairwise distinct objects, so distinct
      tree positions carry distinct identifiers.
    - A JavaScript object or [Map] whose iteration order the code observes is an
      association list in insertion order. That is the order of a [Map] and of
      a [Set]; it is the order of a plain object whose keys are neither array
      indices nor [__proto__]. [Obj.assign] is the assignment of the language
      on a plain object, with both cases, and builds the style objects; prop
      specs and call-site props are built with [Obj.set], and what is proved
      of their names and values reads them by key.
    - The tree is read as it was parsed. The source renames [viewbox] to
      [viewBox] in place when it renders an [svg]; the definitions apply the
      rename to the value they serialize, where the source does, and a
      statement about an attribute that an earlier rendering may have renamed
      says so in its hypotheses.
    - Code that can throw returns an [option]; code with effects (asset writes,
      warnings) returns its value with the list of effects, in order.
    - A recursive function of the source is a structural function: it gives
      what the call returns when it returns. The recursion of the source has
      no depth guard; [astNodeToJsxOnStack] is the renderer on a call stack
      of a given size.
    - External collaborators (the md5 digest of [crypto], [render] of
      dom-serializer, [path.join]) and the values loaded from [config.json]
      are the fields of an environment [Env] that every definition takes. *)

From Stdlib Require Import String Ascii List Arith NArith Bool Lia Permutation OrdersEx.
From Stdlib Require Import RelationClasses Sorted.
From Stdlib Require Import DecimalString DecimalNat.
Import ListNotations.
Local Open Scope list_scope.
Local Open Scope string_scope.

(* ================================================================= *)
(** ** JavaScript strings *)

Module Js.

Definition isSpace (c : ascii) : bool :=
  let n := nat_of_ascii c in
  ((9 <=? n) && (n <=? 13) || (n =? 32) || (n =? 160))%nat.

Definition isLower (c : ascii) : bool :=
  let n := nat_of_ascii c in ((97 <=? n) && (n <=? 122))%nat.

Definition isUpper (c : ascii) : bool :=
  let n := nat_of_ascii c in ((65 <=? n) && (n <=? 90))%nat.

Definition isDigit (c : ascii) : bool :=
  let n := nat_of_ascii c in ((48 <=? n) && (n <=? 57))%nat.

Definition isAlnum (c : ascii) : bool := isLower c || isUpper c || isDigit c.

(** [toUpperCase] and [toLowerCase] on one Latin-1 code unit. *)
Definition upperChar (c : ascii) : ascii :=
  let n := nat_of_ascii c in
  if isLower c then ascii_of_nat (n - 32)
  else if ((224 <=? n) && (n <=? 254) && negb (n =? 247))%nat then ascii_of_nat (n - 32)
  else c.

Definition lowerChar (c : ascii) : ascii :=
  let n := nat_of_ascii c in
  if isUpper c then ascii_of_nat (n + 32)
  else if ((192 <=? n) && (n <=? 222) && negb (n =? 215))%nat then ascii_of_nat (n + 32)
  else c.

Fixpoint mapChars (f : ascii -> ascii) (s : string) : string :=
  match s with
  | EmptyString => EmptyString
  | String c r => String (f c) (mapChars f r)
  end.

Fixpoint filterChars (p : ascii -> bool) (s : string) : string :=
  match s with
  | EmptyString => EmptyString
  | String c r => if p c then String c (filterChars p r) else filterChars p r
  end.

Definition toLowerCase (s : string) : string := mapChars lowerChar s.

Fixpoint trimStart (s : string) : string :=
  match s with
  | EmptyString => EmptyString
  | String c r => if isSpace c then trimStart r else s
  end.

Fixpoint trimEnd (s : string) : string :=
  match s with
  | EmptyString => EmptyString
  | String c r =>
      match trimEnd r with
      | EmptyString => if isSpace c then EmptyString else String c EmptyString
      | r' => String c r'
      end
  end.

Definition trim (s : string) : string := trimEnd (trimStart s).

(** Adds a character to the first piece of a split. *)
Definition consHead (c : ascii) (pieces : list string) : list string :=
  match pieces with
  | [] => [String c EmptyString]
  | t :: ts => String c t :: ts
  end.

(** [s.split(d)] for a one-character separator [d]. *)
Fixpoint splitChar (d : ascii) (s : string) : list string :=
  match s with
  | EmptyString => [EmptyString]
  | String c r =>
      if Ascii.eqb c d then EmptyString :: splitChar d r
      else consHead c (splitChar d r)
  end.

(** [s.split(/[sep]+/)]: the separators are the maximal runs of characters
    satisfying [sep]. *)
Fixpoint splitRuns (sep : ascii -> bool) (s : string) : list string :=
  match s with
  | EmptyString => [EmptyString]
  | String c r =>
      if sep c then
        match r with
        | EmptyString => [EmptyString; EmptyString]
        | String c' _ => if sep c' then splitRuns sep r
                         else EmptyString :: splitRuns sep r
        end
      else consHead c (splitRuns sep r)
  end.

(** [s.split(/\s+/)] *)
Definition splitWs (s : string) : list string := splitRuns isSpace s.

(** [arr.join(sep)] *)
Definition join (sep : string) (l : list string) : string := String.concat sep l.

(** [arr.filter(Boolean)] on strings: the empty string is the only falsy one. *)
Definition nonEmpty (s : string) : bool := negb (s =? "").

(** [s.includes(sub)] *)
Definition includes (sub s : string) : bool :=
  match String.index 0 sub s with Some _ => true | None => false end.

(** [s.startsWith(p)] *)
Definition startsWith (p s : string) : bool := String.prefix p s.

(** [String(n)] for a non-negative integer. *)
Definition ofNat (n : nat) : string := NilEmpty.string_of_uint (Nat.to_uint n).

(** [s.replace(/c/g, by)] for a one-character pattern. *)
Fixpoint replaceChar (c : ascii) (by_ : string) (s : string) : string :=
  match s with
  | EmptyString => EmptyString
  | String x r => if Ascii.eqb x c then by_ ++ replaceChar c by_ r
                  else String x (replaceChar c by_ r)
  end.

(** Default [Array.prototype.sort]: ascending code-unit order. The order is
    total and antisymmetric, so the sorted array does not depend on the
    algorithm; insertion sort stands for it. *)
Fixpoint insertSorted (x : string) (l : list string) : list string :=
  match l with
  | [] => [x]
  | y :: r => if String.leb x y then x :: l else y :: insertSorted x r
  end.

Definition sort (l : list string) : list string := fold_right insertSorted [] l.

(** *** JSON.stringify *)

Definition hexDigit (n : nat) : ascii :=
  if (n <? 10)%nat then ascii_of_nat (48 + n) else ascii_of_nat (87 + n).

Definition backslash : ascii := ascii_of_nat 92.

Definition escapeChar (c : ascii) : string :=
  let n := nat_of_ascii c in
  if (n =? 34)%nat then String backslash (String c EmptyString)
  else if (n =? 92)%nat then "\\"
  else if (n =? 8)%nat then "\b"
  else if (n =? 12)%nat then "\f"
  else if (n =? 10)%nat then "\n"
  else if (n =? 13)%nat then "\r"
  else if (n =? 9)%nat then "\t"
  else if (n <? 32)%nat then
    "\u00" ++ String (hexDigit (n / 16)) (String (hexDigit (n mod 16)) EmptyString)
  else String c EmptyString.

Fixpoint escapeString (s : string) : string :=
  match s with
  | EmptyString => EmptyString
  | String c r => escapeChar c ++ escapeString r
  end.

Definition quote : string := String (ascii_of_nat 34) EmptyString.

(** [JSON.stringify(s)] for a string [s]. *)
Definition stringify (s : string) : string := quote ++ escapeString s ++ quote.

(** [JSON.stringify(arr)] for an array of strings. *)
Definition stringifyArray (l : list string) : string :=
  "[" ++ join "," (map stringify l) ++ "]".

(** [JSON.stringify(obj)] for an object whose values are strings. *)
Definition stringifyObject (o : list (string * string)) : string :=
  "{" ++ join "," (map (fun kv => stringify (fst kv) ++ ":" ++ stringify (snd kv)) o) ++ "}".

End Js.


(* ================================================================= *)
(** ** The md5 digest (RFC 1321), to run the definitions on concrete trees *)

Module Md5.

Definition mask32 : N := 4294967295.

Definition add32 (a b : N) : N := N.land (a + b) mask32.

Definition rotl32 (x c : N) : N :=
  N.lor (N.land (N.shiftl x c) mask32) (N.shiftr x (32 - c)).

Definition not32 (x : N) : N := N.lxor x mask32.

Definition shiftAmounts : list N :=
  [7; 12; 17; 22; 7; 12; 17; 22; 7; 12; 17; 22; 7; 12; 17; 22;
   5; 9; 14; 20; 5; 9; 14; 20; 5; 9; 14; 20; 5; 9; 14; 20;
   4; 11; 16; 23; 4; 11; 16; 23; 4; 11; 16; 23; 4; 11; 16; 23;
   6; 10; 15; 21; 6; 10; 15; 21; 6; 10; 15; 21; 6; 10; 15; 21]%N.

Definition sineTable : list N :=
  [3614090360; 3905402710; 606105819; 3250441966; 4118548399; 1200080426; 2821735955;
   4249261313; 1770035416; 2336552879; 4294925233; 2304563134; 1804603682; 4254626195;
   2792965006; 1236535329; 4129170786; 3225465664; 643717713; 3921069994; 3593408605;
   38016083; 3634488961; 3889429448; 568446438; 3275163606; 4107603335; 1163531501;
   2850285829; 4243563512; 1735328473; 2368359562; 4294588738; 2272392833; 1839030562;
   4259657740; 2763975236; 1272893353; 4139469664; 3200236656; 681279174; 3936430074;
   3572445317; 76029189; 3654602809; 3873151461; 530742520; 3299628645; 4096336452;
   1126891415; 2878612391; 4237533241; 1700485571; 2399980690; 4293915773; 2240044497;
   1873313359; 4264355552; 2734768916; 1309151649; 4149444226; 3174756917; 718787259;
   3951481745]%N.

(** The UTF-8 bytes of a string of Latin-1 code units. *)
Fixpoint utf8 (s : string) : list N :=
  match s with
  | EmptyString => []
  | String c r =>
      let n := N_of_ascii c in
      if (n <? 128)%N then n :: utf8 r
      else N.lor 192 (N.shiftr n 6) :: N.lor 128 (N.land n 63) :: utf8 r
  end.

Definition littleEndian (count : nat) (x : N) : list N :=
  map (fun i => N.land (N.shiftr x (8 * N.of_nat i)) 255) (seq 0 count).

Definition padded (msg : list N) : list N :=
  let len := length msg in
  msg ++ [128%N] ++ repeat 0%N ((119 - len mod 64) mod 64)
      ++ littleEndian 8 (8 * N.of_nat len).

Fixpoint wordsOf (fuel : nat) (bytes : list N) : list N :=
  match fuel, bytes with
  | S fuel', b0 :: b1 :: b2 :: b3 :: rest =>
      (b0 + N.shiftl b1 8 + N.shiftl b2 16 + N.shiftl b3 24)%N :: wordsOf fuel' rest
  | _, _ => []
  end.

Definition State : Type := (N * N * N * N)%type.

Definition round (block : list N) (st : State) (i : nat) : State :=
  let '(a, b, c, d) := st in
  let '(f, g) :=
    if (i <? 16)%nat then (N.lor (N.land b c) (N.land (not32 b) d), i)
    else if (i <? 32)%nat then (N.lor (N.land d b) (N.land (not32 d) c), (5 * i + 1) mod 16)
    else if (i <? 48)%nat then (N.lxor (N.lxor b c) d, (3 * i + 5) mod 16)
    else (N.lxor c (N.lor b (not32 d)), (7 * i) mod 16) in
  let f' := add32 (add32 (add32 f a) (nth i sineTable 0%N)) (nth g block 0%N) in
  (d, add32 b (rotl32 f' (nth i shiftAmounts 0%N)), b, c).

Definition processBlock (st : State) (block : list N) : State :=
  let '(a0, b0, c0, d0) := st in
  let '(a, b, c, d) := fold_left (round block) (seq 0 64) st in
  (add32 a0 a, add32 b0 b, add32 c0 c, add32 d0 d).

Fixpoint blocksOf (fuel : nat) (words : list N) : list (list N) :=
  match fuel, words with
  | S fuel', _ :: _ => firstn 16 words :: blocksOf fuel' (skipn 16 words)
  | _, _ => []
  end.

Definition hexChar (n : N) : ascii :=
  if (n <? 10)%N then ascii_of_N (48 + n) else ascii_of_N (87 + n).

Definition hexByte (b : N) : string :=
  String (hexChar (N.shiftr b 4)) (String (hexChar (N.land b 15)) EmptyString).

(** [crypto.createHash('md5').update(s).digest('hex')] *)
Definition hex (s : string) : string :=
  let bytes := padded (utf8 s) in
  let words := wordsOf (length bytes) bytes in
  let '(a, b, c, d) :=
    fold_left processBlock (blocksOf (length words) words)
              (1732584193, 4023233417, 2562383102, 271733878)%N in
  String.concat "" (map hexByte (littleEndian 4 a ++ littleEndian 4 b
                                  ++ littleEndian 4 c ++ littleEndian 4 d)).

End Md5.

(* ================================================================= *)
(** ** JavaScript objects and insertion-ordered maps *)

Module Obj.

(** The array index that a property key denotes, if any: a canonical decimal
    numeral below 2^32 - 1. A plain object enumerates such keys first, in
    ascending order, and the other string keys after them in insertion
    order. *)
Definition digitOf (c : ascii) : option N :=
  let n := N_of_ascii c in
  if ((48 <=? n) && (n <=? 57))%N then Some (n - 48)%N else None.

Fixpoint decimalValue (s : string) (acc : N) : option N :=
  match s with
  | EmptyString => Some acc
  | String c r =>
      match digitOf c with
      | Some d => decimalValue r (10 * acc + d)%N
      | None => None
      end
  end.

Definition arrayIndex (k : string) : option N :=
  match k with
  | EmptyString => None
  | String c r =>
      if (c =? "0")%char then (if r =? "" then Some 0%N else None)
      else if (String.length k <=? 10)%nat then
        match decimalValue k 0 with
        | Some n => if (n <? 4294967295)%N then Some n else None
        | None => None
        end
      else None
  end.

Section WithValue.
Context {A : Type}.

(** [o[k]] *)
Fixpoint get (o : list (string * A)) (k : string) : option A :=
  match o with
  | [] => None
  | (k', v) :: r => if k' =? k then Some v else get r k
  end.

(** [k in o], [m.has(k)] *)
Definition has (o : list (string * A)) (k : string) : bool :=
  match get o k with Some _ => true | None => false end.

(** [m.set(k, v)], and [o[k] = v] for a key that is neither an array index
    nor [__proto__]: an existing key keeps its position, a new key goes
    last. *)
Fixpoint set (o : list (string * A)) (k : string) (v : A) : list (string * A) :=
  match o with
  | [] => [(k, v)]
  | (k', v') :: r => if k' =? k then (k, v) :: r else (k', v') :: set r k v
  end.

(** [delete o[k]] *)
Fixpoint delete (o : list (string * A)) (k : string) : list (string * A) :=
  match o with
  | [] => []
  | (k', v') :: r => if k' =? k then delete r k else (k', v') :: delete r k
  end.

(** A new array-index key takes its place among the array-index keys, which
    come first. *)
Fixpoint insertIndex (o : list (string * A)) (n : N) (k : string) (v : A)
  : list (string * A) :=
  match o with
  | [] => [(k, v)]
  | (k', v') :: r =>
      match arrayIndex k' with
      | Some n' => if (n' <? n)%N then (k', v') :: insertIndex r n k v
                   else (k, v) :: (k', v') :: r
      | None => (k, v) :: (k', v') :: r
      end
  end.

(** [o[k] = v] on a plain object that starts as [{}], for a primitive [v],
    with the enumeration order of the language: the key ["__proto__"] reaches
    the setter of [Object.prototype], which ignores a primitive, so the object
    gets no entry; an existing key keeps its place; a new array index goes
    among the array indices; any other new key goes last. *)
Definition assign (o : list (string * A)) (k : string) (v : A) : list (string * A) :=
  if k =? "__proto__" then o
  else if has o k then set o k v
  else match arrayIndex k with
       | Some n => insertIndex o n k v
       | None => (o ++ [(k, v)])%list
       end.

(** [Object.keys(o)] *)
Definition keys (o : list (string * A)) : list string := map fst o.

(** [Object.values(o)] *)
Definition values (o : list (string * A)) : list A := map snd o.
End WithValue.
End Obj.

(* ================================================================= *)
(** ** Tree model *)

(** A node as htmlparser2 writes it: [type] is one of "tag", "text",
    "comment", "directive", "script", "style" or another kind ("cdata",
    "root", "doctype"). Elements carry [name], [attribs] (string values) and
    [children]; text and comment nodes carry [data]. A field a node kind does
    not carry reads as empty. *)
#[warnings="-register-all"]
Inductive Node : Type := mkNode {
  node_id : nat;
  node_type : string;
  node_name : string;
  node_attribs : list (string * string);
  node_children : list Node;
  node_data : string
}.

(** [a === b] on nodes. *)
Definition sameNode (a b : Node) : bool := (node_id a =? node_id b)%nat.

(** One element of a path array: the literals ['children'] and ['attribs'],
    a child index, or an attribute key. *)
Inductive PathSeg : Type :=
| SegChildren
| SegAttribs
| SegIndex (i : nat)
| SegKey (k : string).

Definition segEqb (a b : PathSeg) : bool :=
  match a, b with
  | SegChildren, SegChildren => true
  | SegAttribs, SegAttribs => true
  | SegIndex i, SegIndex j => (i =? j)%nat
  | SegKey k, SegKey l => k =? l
  | _, _ => false
  end.

Definition segStr (p : PathSeg) : string :=
  match p with
  | SegChildren => "children"
  | SegAttribs => "attribs"
  | SegIndex i => Js.ofNat i
  | SegKey k => k
  end.

(** [path.join('.')] *)
Definition pathStr (path : list PathSeg) : string := Js.join "." (map segStr path).

(** [spec.path.every((p, i) => p === target[i])] *)
Fixpoint pathEvery (specPath target : list PathSeg) : bool :=
  match specPath, target with
  | [], _ => true
  | p :: ps, t :: ts => segEqb p t && pathEvery ps ts
  | _ :: _, [] => false
  end.

(** The values a property walk [v[p]] can reach from a node. *)
Inductive JsVal : Type :=
| VUndef
| VStr (s : string)
| VNode (n : Node)
| VList (l : list Node)
| VAttribs (a : list (string * string)).

Definition truthy (v : JsVal) : bool :=
  match v with
  | VUndef => false
  | VStr s => Js.nonEmpty s
  | _ => true
  end.

(** [v[p]] for the accesses the path arrays make: [node.children],
    [node.attribs], [children[i]] and [attribs[key]]; any other read is
    [undefined]. *)
Definition getProp (v : JsVal) (p : PathSeg) : JsVal :=
  match v, p with
  | VNode n, SegChildren => VList (node_children n)
  | VNode n, SegAttribs => VAttribs (node_attribs n)
  | VList l, SegIndex i =>
      match nth_error l i with Some c => VNode c | None => VUndef end
  | VAttribs a, SegKey k =>
      match Obj.get a k with Some s => VStr s | None => VUndef end
  | _, _ => VUndef
  end.

(** [path.forEach((p) => { if (cur) cur = cur[p]; })] *)
Definition walk (v : JsVal) (path : list PathSeg) : JsVal :=
  fold_left (fun cur p => if truthy cur then getProp cur p else cur) path v.

(** [path.forEach((p) => (cur = cur?.[p]))] *)
Definition walkOpt (v : JsVal) (path : list PathSeg) : JsVal :=
  fold_left getProp path v.

(** [String(v)] *)
Definition jsString (v : JsVal) : string :=
  match v with
  | VUndef => "undefined"
  | VStr s => s
  | VNode _ => "[object Object]"
  | VList l => Js.join "," (map (fun _ => "[object Object]") l)
  | VAttribs _ => "[object Object]"
  end.

(* ================================================================= *)
(** ** External collaborators and configuration *)

Record Env : Type := mkEnv {
  (** [crypto.createHash('md5').update(s).digest('hex')] *)
  md5 : string -> string;
  (** [render(v, { xmlMode: true })] of dom-serializer, taken as total *)
  serialize : JsVal -> string;
  (** [path.join(a, b)] *)
  path_join : string -> string -> string;
  SELF_CLOSING_TAGS : list string;
  LAYOUT_CLASSES_OR_IDS : list string;
  MIN_CHILDREN_FOR_REUSABLE_BY_REPETITION : nat;
  MIN_REPETITIONS_FOR_COMPONENT : nat;
  SVGS_OUTPUT_DIR : string;
  (** [pathConfig.svgs] and [pathConfig.components] *)
  pathConfig_svgs : string;
  pathConfig_components : string
}.

(* ================================================================= *)
(** ** Utility and helper functions *)

Definition isSepChar (c : ascii) : bool :=
  Ascii.eqb c "-" || Ascii.eqb c "_" || Ascii.eqb c " ".

(** First replacement of [toCamelCase]: a run of ['-'], ['_'] or [' ']
    followed by a letter or digit becomes that character in upper case;
    [pending] is the run read so far. *)
Fixpoint camelRuns (pending : string) (s : string) : string :=
  match s with
  | EmptyString => pending
  | String c r =>
      if isSepChar c then camelRuns (pending ++ String c EmptyString) r
      else if Js.nonEmpty pending && Js.isAlnum c
           then String (Js.upperChar c) (camelRuns EmptyString r)
           else pending ++ String c (camelRuns EmptyString r)
  end.

Definition lowerFirstUpper (s : string) : string :=
  match s with
  | String c r => if Js.isUpper c then String (Js.lowerChar c) r else s
  | EmptyString => s
  end.

Definition toCamelCase (str : string) : string :=
  lowerFirstUpper (camelRuns EmptyString str).

(** [word.charAt(0).toUpperCase() + rest] *)
Definition capitalize (rest : string -> string) (s : string) : string :=
  match s with
  | String c r => String (Js.upperChar c) (rest r)
  | EmptyString => EmptyString
  end.

Definition toPascalCase (str : string) : string :=
  if Js.trim str =? "" then "Unnamed"
  else
    let cleaned :=
      Js.filterChars (fun c => Js.isLower c || Js.isDigit c) (Js.toLowerCase str) in
    if Js.nonEmpty cleaned then capitalize (fun r => r) cleaned
    else
      let kept :=
        Js.filterChars
          (fun c => Js.isAlnum c || Ascii.eqb c "_" || Ascii.eqb c "-" || Js.isSpace c)
          str in
      let fallbackWords :=
        filter Js.nonEmpty
          (Js.splitRuns (fun c => Js.isSpace c || Ascii.eqb c "_" || Ascii.eqb c "-") kept) in
      match fallbackWords with
      | _ :: _ => Js.join "" (map (capitalize Js.toLowerCase) fallbackWords)
      | [] => "UnnamedComponent"
      end.

Fixpoint kebabToCamelCase (str : string) : string :=
  match str with
  | EmptyString => EmptyString
  | String c r =>
      if Ascii.eqb c "-" then
        match r with
        | String d r' =>
            if Js.isLower d then String (Js.upperChar d) (kebabToCamelCase r')
            else String c (kebabToCamelCase r)
        | EmptyString => String c EmptyString
        end
      else String c (kebabToCamelCase r)
  end.

(** One declaration of a style string: [[property, value] = declaration.split(':')]. *)
Definition styleDeclaration (style : list (string * string)) (declaration : string)
  : list (string * string) :=
  match Js.splitChar ":" declaration with
  | property :: value :: _ =>
      if Js.nonEmpty property && Js.nonEmpty value
      then Obj.assign style (kebabToCamelCase (Js.trim property)) (Js.trim value)
      else style
  | _ => style
  end.

Definition styleStringToObject (styleString : string) : list (string * string) :=
  if styleString =? "" then []
  else fold_left styleDeclaration (Js.splitChar ";" styleString) [].

Definition isLeafType (t : string) : bool :=
  (t =? "text") || (t =? "comment") || (t =? "directive").

Definition isElementType (t : string) : bool :=
  (t =? "tag") || (t =? "script") || (t =? "style").

(** The class-token block of a signature. *)
Definition classAttr (attribs : list (string * string)) : string :=
  match Obj.get attribs "class" with
  | Some c => if Js.nonEmpty c
              then "_CLASS_" ++ Js.join "_" (Js.sort (Js.splitWs c))
              else ""
  | None => ""
  end.

Fixpoint getStructuralSignature (node : Node) : string :=
  match node with
  | mkNode _ type name attribs children _ =>
      if isLeafType type then type
      else if isElementType type then
        name ++ "[" ++ Js.join "," (Js.sort (Obj.keys attribs)) ++ classAttr attribs
             ++ "](" ++ Js.join "|" (map getStructuralSignature children) ++ ")"
      else "UNKNOWN_TYPE_" ++ type
  end.

(** [(node.children || []).map(getStructuralSignature).join('|')] *)
Definition childrenSignature (node : Node) : string :=
  Js.join "|" (map getStructuralSignature (node_children node)).

Definition mem (x : string) (l : list string) : bool := existsb (String.eqb x) l.

(** The [while] loop of [generatePropName]; [fuel] bounds the iterations. *)
Fixpoint generatePropNameLoop (fuel count : nat) (base : string)
    (existingProps : list string) (propName : string) : string :=
  match fuel with
  | 0 => propName
  | S fuel' =>
      if mem propName existingProps
      then generatePropNameLoop fuel' (S count) base existingProps (base ++ Js.ofNat count)
      else propName
  end.

(** The loop tries [base], [base1], [base2], ...; at most
    [length existingProps] of them are taken, so this fuel reaches the exit. *)
Definition generatePropName (base : string) (existingProps : list string) : string :=
  generatePropNameLoop (S (length existingProps)) 1 base existingProps base.

Definition roleOfToken (str : string) : option string :=
  if str =? "" then None
  else
    let lowered := Js.toLowerCase str in
    if Js.includes "title" lowered then Some "title"
    else if Js.includes "label" lowered then Some "label"
    else if Js.includes "desc" lowered then Some "description"
    else if Js.includes "header" lowered then Some "header"
    else if Js.includes "footer" lowered then Some "footer"
    else if Js.includes "button" lowered then Some "buttonText"
    else if Js.includes "caption" lowered then Some "caption"
    else if Js.includes "subtitle" lowered then Some "subtitle"
    else if Js.includes "item" lowered then Some "itemText"
    else None.

Fixpoint firstRole (candidates : list string) : option string :=
  match candidates with
  | [] => None
  | str :: r => match roleOfToken str with Some role => Some role | None => firstRole r end
  end.

Definition guessTextRoleFromClassOrId (attribs : list (string * string)) : option string :=
  firstRole
    ((match Obj.get attribs "id" with Some i => [i] | None => [] end)
     ++ (match Obj.get attribs "class" with Some c => Js.splitWs c | None => [] end))%list.

Fixpoint findNodes (criteriaFn : Node -> bool) (node : Node) : list Node :=
  match node with
  | mkNode _ _ _ _ children _ =>
      ((if criteriaFn node then [node] else [])
       ++ flat_map (findNodes criteriaFn) children)%list
  end.

(* ================================================================= *)
(** ** Prop specs and the per-tree registry *)

Inductive PropType : Type := TSvg | TAttribute | TTextChild | TChildren.

Definition propTypeEqb (a b : PropType) : bool :=
  match a, b with
  | TSvg, TSvg | TAttribute, TAttribute | TTextChild, TTextChild | TChildren, TChildren => true
  | _, _ => false
  end.

Record PropSpec : Type := mkPropSpec {
  spec_type : PropType;
  spec_path : list PathSeg;
  spec_values : list string
}.

(** [propsSpec]: an object from prop name to spec. *)
Definition PropsSpec : Type := list (string * PropSpec).

Record CompInfo : Type := mkCompInfo {
  info_name : string;
  info_astNode : Node;
  info_propsSpec : PropsSpec
}.

(** [localComponentRegistry]: a [Map] keyed by node identity. *)
Definition Registry : Type := list (Node * CompInfo).

Module Reg.
Fixpoint get (reg : Registry) (node : Node) : option CompInfo :=
  match reg with
  | [] => None
  | (k, info) :: r => if sameNode k node then Some info else get r node
  end.

Definition has (reg : Registry) (node : Node) : bool :=
  match get reg node with Some _ => true | None => false end.

Fixpoint set (reg : Registry) (node : Node) (info : CompInfo) : Registry :=
  match reg with
  | [] => [(node, info)]
  | (k, i) :: r => if sameNode k node then (k, info) :: r else (k, i) :: set r node info
  end.
End Reg.

Definition isNodeAlreadyComponentPart (node : Node) (localComponentRegistry : Registry) : bool :=
  Reg.has localComponentRegistry node.

Definition isNodeEligibleForComponentization (node : Node) (localComponentRegistry : Registry)
  : bool :=
  if negb (node_type node =? "tag") then false
  else if isNodeAlreadyComponentPart node localComponentRegistry then false
  else if node_name node =? "svg" then false
  else true.

Definition generateComponentFingerprint (E : Env) (jsxBody : string) (propsSpec : PropsSpec)
  : string :=
  let propsSpecString := Js.stringifyArray (Js.sort (Obj.keys propsSpec)) in
  md5 E (jsxBody ++ "::PROPS::" ++ propsSpecString).

(* ================================================================= *)
(** ** Prop inference *)

(** One call of the callback of [collectPaths]. *)
Record Emission : Type := mkEmission {
  em_path : list PathSeg;
  em_value : string;
  em_type : PropType
}.

Definition isSvgTag (node : Node) : bool :=
  (node_type node =? "tag") && (node_name node =? "svg").

(** [node.attribs[attrKey]] for a key of [Object.keys(node.attribs)] *)
Definition attrValue (attribs : list (string * string)) (attrKey : string) : string :=
  match Obj.get attribs attrKey with Some v => v | None => "" end.

(** [collectPaths(node, currentPath, callback)]: the calls of [callback], in order. *)
Fixpoint collectPaths (E : Env) (node : Node) (currentPath : list PathSeg) : list Emission :=
  match node with
  | mkNode _ _ _ attribs children _ =>
      if isSvgTag node then
        [mkEmission currentPath (serialize E (VNode node)) TSvg]
      else
        (map (fun attrKey =>
                mkEmission (currentPath ++ [SegAttribs; SegKey attrKey])
                           (attrValue attribs attrKey) TAttribute)
             (Obj.keys attribs)
         ++ (fix eachChild (cs : list Node) (i : nat) : list Emission :=
               match cs with
               | [] => []
               | child :: rest =>
                   let childPath := currentPath ++ [SegChildren; SegIndex i] in
                   (if (node_type child =? "text") && Js.nonEmpty (Js.trim (node_data child))
                    then [mkEmission childPath (Js.trim (node_data child)) TTextChild]
                    else if node_type child =? "tag" then collectPaths E child childPath
                    else [])
                   ++ eachChild rest (S i)
               end) children 0)%list
  end.

(** [templateValuesByPath]: path string to the value (and type) of the template. *)
Definition templateValuesByPath (E : Env) (templateNode : Node)
  : list (string * (string * PropType)) :=
  fold_left (fun m e => Obj.set m (pathStr (em_path e)) (em_value e, em_type e))
            (collectPaths E templateNode []) [].

Record Differing : Type := mkDiffering {
  diff_type : PropType;
  diff_values : list string;
  diff_pathArray : list PathSeg
}.

(** [values.add(v)] on a [Set] *)
Definition setAdd (values : list string) (v : string) : list string :=
  if mem v values then values else (values ++ [v])%list.

Definition addValue (differingPaths : list (string * Differing)) (key v : string)
  : list (string * Differing) :=
  match Obj.get differingPaths key with
  | Some d => Obj.set differingPaths key
                (mkDiffering (diff_type d) (setAdd (diff_values d) v) (diff_pathArray d))
  | None => differingPaths
  end.

(** The callback run on each path of a non-template instance (lines 220-234). *)
Definition recordDifference (templateValues : list (string * (string * PropType)))
    (differingPaths : list (string * Differing)) (e : Emission)
  : list (string * Differing) :=
  let key := pathStr (em_path e) in
  let templateInfo := Obj.get templateValues key in
  let differs :=
    match templateInfo with
    | None => true
    | Some (tv, _) => negb (em_value e =? tv)
    end in
  if differs then
    let d1 := if Obj.has differingPaths key then differingPaths
              else Obj.set differingPaths key (mkDiffering (em_type e) [] (em_path e)) in
    let d2 := addValue d1 key (em_value e) in
    match templateInfo with
    | Some (tv, _) => addValue d2 key tv
    | None => d2
    end
  else differingPaths.

(** [differingPaths] after the loop over the instances (lines 217-235). *)
Definition computeDifferingPaths (E : Env) (templateNode : Node) (instances : list Node)
  : list (string * Differing) :=
  let templateValues := templateValuesByPath E templateNode in
  fold_left
    (fun differingPaths instance =>
       if sameNode instance templateNode then differingPaths
       else fold_left (recordDifference templateValues) (collectPaths E instance [])
                      differingPaths)
    instances [].

(** State of the naming loop (lines 236-267). *)
Record Naming : Type := mkNaming {
  propCounter : nat;
  existingPropNames : list string;
  propsSpecSoFar : PropsSpec
}.

(** [pathArray[pathArray.length - 1]] *)
Definition lastSeg (pathArray : list PathSeg) : option PathSeg :=
  nth_error pathArray (length pathArray - 1).

(** [pathArray.slice(0, -2)] *)
Definition dropLast2 (pathArray : list PathSeg) : list PathSeg :=
  firstn (length pathArray - 2) pathArray.

(** The base name of a text prop from the parent reached in the template;
    [None] is the [TypeError] of reading [attribs] of [undefined] in
    [guessTextRoleFromClassOrId]. The second component is the new counter. *)
Definition textBaseName (parentNode : JsVal) (propCounter : nat) : option (string * nat) :=
  match parentNode with
  | VUndef => None
  | VNode n =>
      match guessTextRoleFromClassOrId (node_attribs n) with
      | Some role => Some (role, propCounter)
      | None =>
          if Js.nonEmpty (node_name n)
          then
            let named := toCamelCase (node_name n ++ "Text") in
            if Js.nonEmpty named then Some (named, propCounter)
            else Some ("text" ++ Js.ofNat propCounter, S propCounter)
          else Some ("text" ++ Js.ofNat propCounter, S propCounter)
      end
  | VAttribs a =>
      match Obj.get a "name" with
      | Some nm =>
          if Js.nonEmpty nm && Js.nonEmpty (toCamelCase (nm ++ "Text"))
          then Some (toCamelCase (nm ++ "Text"), propCounter)
          else Some ("text" ++ Js.ofNat propCounter, S propCounter)
      | None => Some ("text" ++ Js.ofNat propCounter, S propCounter)
      end
  | _ => Some ("text" ++ Js.ofNat propCounter, S propCounter)
  end.

(** [basePropName] of one differing path; [None] when the code throws. *)
Definition basePropName (templateNode : Node) (propCounter : nat) (d : Differing)
  : option (string * nat) :=
  match diff_type d with
  | TSvg => Some ("iconSrc", propCounter)
  | TAttribute =>
      match lastSeg (diff_pathArray d) with
      | Some (SegIndex _) | None => None
      | Some seg =>
          let attrKey := segStr seg in
          let jsxCompliantAttrKey :=
            if attrKey =? "class" then "className"
            else if attrKey =? "for" then "htmlFor"
            else attrKey in
          Some (kebabToCamelCase jsxCompliantAttrKey, propCounter)
      end
  | TTextChild =>
      let parentTagPath := dropLast2 (diff_pathArray d) in
      textBaseName (walkOpt (VNode templateNode) parentTagPath) propCounter
  | TChildren => Some ("prop" ++ Js.ofNat propCounter, S propCounter)
  end.

(** One iteration of [differingPaths.forEach] (lines 238-267). *)
Definition nameOne (templateNode : Node) (st : Naming) (d : Differing) : option Naming :=
  match basePropName templateNode (propCounter st) d with
  | None => None
  | Some (base, counter) =>
      let finalPropName := generatePropName base (existingPropNames st) in
      Some (mkNaming counter
              (setAdd (existingPropNames st) finalPropName)
              (Obj.set (propsSpecSoFar st) finalPropName
                 (mkPropSpec (diff_type d) (diff_pathArray d) (diff_values d))))
  end.

Fixpoint nameAll (templateNode : Node) (st : Naming) (ds : list Differing) : option Naming :=
  match ds with
  | [] => Some st
  | d :: r =>
      match nameOne templateNode st d with
      | Some st' => nameAll templateNode st' r
      | None => None
      end
  end.

(** [instances.some((inst) => childrenSignature(inst) !== templateChildrenSignature)] *)
Definition instancesHaveDifferentChildStructure (templateNode : Node) (instances : list Node)
  : bool :=
  existsb (fun inst => negb (childrenSignature inst =? childrenSignature templateNode))
          instances.

(** [analyzeInstancesForProps(templateNode, instances)]; [None] when it throws. *)
Definition analyzeInstancesForProps (E : Env) (templateNode : Node) (instances : list Node)
  : option PropsSpec :=
  let differingPaths := computeDifferingPaths E templateNode instances in
  match nameAll templateNode (mkNaming 0 [] []) (Obj.values differingPaths) with
  | None => None
  | Some st =>
      let propsSpec := propsSpecSoFar st in
      if instancesHaveDifferentChildStructure templateNode instances
         && negb (existsb (fun p => propTypeEqb (spec_type p) TChildren) (Obj.values propsSpec))
      then Some (Obj.set propsSpec (generatePropName "children" (existingPropNames st))
                         (mkPropSpec TChildren [SegChildren] []))
      else Some propsSpec
  end.

(* ================================================================= *)
(** ** Code generator *)

(** What rendering does besides returning text. *)
Inductive Effect : Type :=
| FsWrite (diskPath content : string)
| ConsoleWarn (message : string).

(** A computation that returns a value and performs effects, in order. *)
Definition Gen (A : Type) : Type := (A * list Effect)%type.

Definition ret {A : Type} (a : A) : Gen A := (a, []).

Definition bind {A B : Type} (m : Gen A) (k : A -> Gen B) : Gen B :=
  let (b, later) := k (fst m) in (b, (snd m ++ later)%list).

Definition perform (e : Effect) : Gen unit := (tt, [e]).

Notation "x <- m ;; k" := (bind m (fun x => k))
  (at level 61, m at next level, right associativity).

Definition mapGen {A B : Type} (f : A -> Gen B) : list A -> Gen (list B) :=
  fix go (l : list A) : Gen (list B) :=
    match l with
    | [] => ret []
    | a :: r => b <- f a ;; bs <- go r ;; ret (b :: bs)
    end.

(** [arr.map((x, i) => ...)] with the index starting at [i]. *)
Definition mapiGen {A B : Type} (f : A -> nat -> Gen B) : list A -> nat -> Gen (list B) :=
  fix go (l : list A) (i : nat) : Gen (list B) :=
    match l with
    | [] => ret []
    | a :: r => b <- f a i ;; bs <- go r (S i) ;; ret (b :: bs)
    end.

(** The in-place rename of [viewbox] to [viewBox] on an [attribs] object. *)
Definition normalizeViewBox (attribs : list (string * string)) : list (string * string) :=
  match Obj.get attribs "viewbox" with
  | Some v => if Js.nonEmpty v
              then Obj.delete (Obj.set attribs "viewBox" v) "viewbox"
              else attribs
  | None => attribs
  end.

Definition withViewBox (node : Node) : Node :=
  mkNode (node_id node) (node_type node) (node_name node)
         (normalizeViewBox (node_attribs node)) (node_children node) (node_data node).

(** [if (svgNode.attribs && svgNode.attribs.viewbox) { ... }] on a walked value. *)
Definition withViewBoxVal (v : JsVal) : JsVal :=
  match v with
  | VNode n => VNode (withViewBox n)
  | _ => v
  end.

Definition svgFilenameOf (E : Env) (svgString : string) : string :=
  "icon-" ++ md5 E svgString ++ ".svg".

(** [fs.writeFile(svgDiskPath, svgString)] *)
Definition writeSvg (E : Env) (svgString : string) : Gen unit :=
  perform (FsWrite (path_join E (SVGS_OUTPUT_DIR E) (svgFilenameOf E svgString)) svgString).

(** [valueToPass] of one prop at a call site (lines 463-507); [None] is the
    [continue] of a children prop. The instance is read as parsed, with the
    rename of [viewbox] on the icon itself; a rename that an earlier
    rendering made in place on an [svg] inside the icon is not part of what
    is read. *)
Definition valueToPass (E : Env) (node : Node) (spec : PropSpec) : Gen (option JsVal) :=
  match spec_type spec with
  | TSvg =>
      let svgNode := walk (VNode node) (spec_path spec) in
      if truthy svgNode then
        let svgString := serialize E (withViewBoxVal svgNode) in
        _ <- writeSvg E svgString ;;
        ret (Some (VStr ("/" ++ pathConfig_svgs E ++ "/" ++ svgFilenameOf E svgString)))
      else ret (Some (VStr ""))
  | TAttribute => ret (Some (walk (VNode node) (spec_path spec)))
  | TTextChild =>
      let currentInstanceTextNode := walk (VNode node) (spec_path spec) in
      ret (Some (VStr (match currentInstanceTextNode with
                       | VNode n => Js.trim (node_data n)
                       | VAttribs a =>
                           match Obj.get a "data" with Some d => Js.trim d | None => "" end
                       | _ => ""
                       end)))
  | TChildren => ret None
  end.

(** [instanceProps] after the loop over [compInfo.propsSpec] (lines 459-510). *)
Fixpoint instancePropsOf (E : Env) (node : Node) (propsSpec : PropsSpec)
    (instanceProps : list (string * JsVal)) : Gen (list (string * JsVal)) :=
  match propsSpec with
  | [] => ret instanceProps
  | (propName, spec) :: rest =>
      v <- valueToPass E node spec ;;
      instancePropsOf E node rest
        (match v with
         | Some value => Obj.set instanceProps propName value
         | None => instanceProps
         end)
  end.

(** One entry of [propsString] (lines 528-544). *)
Definition instancePropString (entry : string * JsVal) : string :=
  let (key, value) := entry in
  match value with
  | VUndef => ""
  | _ =>
      let jsxPropName := kebabToCamelCase key in
      match value with
      | VStr s =>
          if jsxPropName =? "style"
          then " " ++ jsxPropName ++ "={" ++ Js.stringifyObject (styleStringToObject s) ++ "}"
          else " " ++ jsxPropName ++ "={" ++ Js.stringify s ++ "}"
      | _ => " " ++ jsxPropName ++ "={" ++ Js.stringify (jsString value) ++ "}"
      end
  end.

(** The text of a component reference (lines 547-551). *)
Definition componentReference (name propsString childrenJsx : string) : string :=
  if Js.nonEmpty (Js.trim childrenJsx)
  then "<" ++ name ++ propsString ++ ">" ++ childrenJsx ++ "</" ++ name ++ ">"
  else "<" ++ name ++ propsString ++ " />".

(** [s.replace(/\*\//g, '*\\/')] *)
Fixpoint escapeCommentEnd (s : string) : string :=
  match s with
  | EmptyString => EmptyString
  | String c r =>
      if Ascii.eqb c "*" then
        match r with
        | String d r' =>
            if Ascii.eqb d "/" then "*\/" ++ escapeCommentEnd r'
            else String c (escapeCommentEnd r)
        | EmptyString => String c EmptyString
        end
      else String c (escapeCommentEnd r)
  end.

(** [altText] of an icon: the text of its first [title] child, else "icon". *)
Definition altTextOf (children : list Node) : string :=
  match find (fun child => (node_type child =? "tag") && (node_name child =? "title")) children with
  | Some titleNode =>
      match node_children titleNode with
      | first :: _ => if node_type first =? "text" then Js.trim (node_data first) else "icon"
      | [] => "icon"
      end
  | None => "icon"
  end.

(** [altText.replace(/"/g, '\\"')] *)
Definition escapeAlt (altText : string) : string :=
  Js.replaceChar (ascii_of_nat 34) (String Js.backslash Js.quote) altText.

(** The first prop (in [for ... in] order) accepted by [test]. *)
Definition findProp (test : PropSpec -> bool) (componentPropsSpec : PropsSpec)
  : option string :=
  match find (fun entry => test (snd entry)) componentPropsSpec with
  | Some (propName, _) => Some propName
  | None => None
  end.

Definition booleanAttributes : list string :=
  ["disabled"; "checked"; "selected"; "required"; "autoplay"; "controls";
   "loop"; "muted"; "readonly"; "open"; "hidden"].

(** The text added to [attribsString] for one attribute (lines 644-703). *)
Definition attributeString (isComponentDefinitionBody : bool)
    (componentPropsSpec : PropsSpec) (nodePath : list PathSeg)
    (attribs : list (string * string)) (originalHtmlAttrKey : string) : string :=
  let originalHtmlAttrValue := attrValue attribs originalHtmlAttrKey in
  let camel := kebabToCamelCase originalHtmlAttrKey in
  let jsxPropNameForKey :=
    if camel =? "class" then "className"
    else if camel =? "for" then "htmlFor"
    else camel in
  let attributeNameToRenderInJsx :=
    if Js.startsWith "data-" originalHtmlAttrKey || Js.startsWith "aria-" originalHtmlAttrKey
    then originalHtmlAttrKey else jsxPropNameForKey in
  let pathInSpecToOriginalAttr := (nodePath ++ [SegAttribs; SegKey originalHtmlAttrKey])%list in
  let handledAsProp :=
    if isComponentDefinitionBody
    then findProp (fun spec => propTypeEqb (spec_type spec) TAttribute
                               && pathEvery (spec_path spec) pathInSpecToOriginalAttr)
                  componentPropsSpec
    else None in
  match handledAsProp with
  | Some propAccess =>
      if jsxPropNameForKey =? "style"
      then " style={" ++ propAccess ++ " || "
           ++ Js.stringifyObject (styleStringToObject originalHtmlAttrValue) ++ "}"
      else " " ++ attributeNameToRenderInJsx ++ "={" ++ propAccess ++ " || "
           ++ Js.stringify originalHtmlAttrValue ++ "}"
  | None =>
      if jsxPropNameForKey =? "style"
      then " style={" ++ Js.stringifyObject (styleStringToObject originalHtmlAttrValue) ++ "}"
      else if (originalHtmlAttrValue =? "") && mem attributeNameToRenderInJsx booleanAttributes
      then " " ++ attributeNameToRenderInJsx
      else " " ++ attributeNameToRenderInJsx ++ "={" ++ Js.stringify originalHtmlAttrValue ++ "}"
  end.

(** The text of a text node (lines 555-572). *)
Definition textToJsx (isComponentDefinitionBody : bool) (componentPropsSpec : PropsSpec)
    (nodePath : list PathSeg) (data : string) : string :=
  let currentPathStr := pathStr nodePath in
  let asProp :=
    if isComponentDefinitionBody
    then findProp (fun spec => propTypeEqb (spec_type spec) TTextChild
                               && (pathStr (spec_path spec) =? currentPathStr))
                  componentPropsSpec
    else None in
  match asProp with
  | Some propName =>
      "{" ++ propName ++ " || '" ++ Js.replaceChar "'" "\'" (Js.trim data) ++ "'}"
  | None =>
      if Js.trim data =? "" then
        if Js.nonEmpty data && negb isComponentDefinitionBody then data else ""
      else
        Js.replaceChar "}" ("{" ++ Js.quote ++ "}" ++ Js.quote ++ "}")
          (Js.replaceChar "{" ("{" ++ Js.quote ++ "{" ++ Js.quote ++ "}") data)
  end.

(** The static icon branch (lines 608-634): write the asset, return the
    image. The icon is serialized as parsed, after the rename of its own
    [viewbox]. *)
Definition staticSvgToJsx (E : Env) (node : Node) : Gen string :=
  let svgString := serialize E (VNode node) in
  let svgFilename := svgFilenameOf E svgString in
  let publicSrcPath :=
    "/" ++ Js.replaceChar Js.backslash "/" (path_join E (pathConfig_svgs E) svgFilename) in
  _ <- writeSvg E svgString ;;
  ret ("<img src=" ++ Js.quote ++ publicSrcPath ++ Js.quote
       ++ " alt=" ++ Js.quote ++ escapeAlt (altTextOf (node_children node)) ++ Js.quote ++ " />").

(** [astNodeToJsx(node, depth, isComponentDefinitionBody, componentPropsSpec,
    nodePath, localComponentRegistry, templateNodeForCurrentDefinition)].
    The in-place rename of [viewbox] is applied where the source mutates the
    node; [render] of dom-serializer is total here, so the [catch] of the
    static icon branch is not entered. The function gives what a call
    returns when it returns; the source recursion has no depth guard, and
    [astNodeToJsxOnStack] below is the same code on a bounded call stack. *)
Fixpoint astNodeToJsx (E : Env) (node : Node) (depth : nat)
    (isComponentDefinitionBody : bool) (componentPropsSpec : PropsSpec)
    (nodePath : list PathSeg) (localComponentRegistry : Registry)
    (templateNodeForCurrentDefinition : option Node) {struct node} : Gen string :=
  match node with
  | mkNode _ type name attribs children data =>
      let isTemplate :=
        match templateNodeForCurrentDefinition with
        | Some t => sameNode node t
        | None => false
        end in
      match (if isTemplate then None else Reg.get localComponentRegistry node) with
      | Some compInfo =>
          instanceProps <- instancePropsOf E node (info_propsSpec compInfo) [] ;;
          childrenJsx <-
            (if Obj.has (info_propsSpec compInfo) "children"
             then
               parts <- mapGen (fun child =>
                                  astNodeToJsx E child (depth + 1) false [] []
                                    localComponentRegistry templateNodeForCurrentDefinition)
                               children ;;
               ret (Js.join "" parts)
             else ret "") ;;
          let propsString := Js.join "" (map instancePropString instanceProps) in
          ret (componentReference (info_name compInfo) propsString childrenJsx)
      | None =>
          if type =? "text" then
            ret (textToJsx isComponentDefinitionBody componentPropsSpec nodePath data)
          else if type =? "comment" then
            ret ("{/*" ++ escapeCommentEnd data ++ "*/}")
          else if (type =? "directive") || (type =? "script") || (type =? "style") then
            ret ""
          else if type =? "tag" then
            let node' := if (name =? "svg") && Js.nonEmpty (attrValue attribs "viewbox")
                         then withViewBox node else node in
            let currentPathStr := pathStr nodePath in
            let iconProp :=
              if isComponentDefinitionBody
              then findProp (fun spec => propTypeEqb (spec_type spec) TSvg
                                         && (pathStr (spec_path spec) =? currentPathStr))
                            componentPropsSpec
              else None in
            match iconProp with
            | Some propName =>
                ret ("<img src={" ++ propName ++ "} alt=" ++ Js.quote
                     ++ escapeAlt (altTextOf children) ++ Js.quote ++ " />")
            | None =>
                let tagName := Js.toLowerCase name in
                if tagName =? "svg" then staticSvgToJsx E node'
                else
                  let attribsString :=
                    Js.join ""
                      (map (attributeString isComponentDefinitionBody componentPropsSpec
                              nodePath (node_attribs node'))
                           (Obj.keys (node_attribs node'))) in
                  if mem tagName (SELF_CLOSING_TAGS E)
                  then ret ("<" ++ tagName ++ attribsString ++ " />")
                  else
                    childrenJsx <-
                      (if isComponentDefinitionBody
                          && match Obj.get componentPropsSpec "children" with
                             | Some spec => propTypeEqb (spec_type spec) TChildren
                             | None => false
                             end
                       then ret "{children}"
                       else
                         parts <- mapiGen (fun child i =>
                                             astNodeToJsx E child (depth + 1)
                                               isComponentDefinitionBody componentPropsSpec
                                               (nodePath ++ [SegChildren; SegIndex i])%list
                                               localComponentRegistry
                                               templateNodeForCurrentDefinition)
                                          children 0 ;;
                         ret (Js.join "" parts)) ;;
                    ret ("<" ++ tagName ++ attribsString ++ ">" ++ childrenJsx
                         ++ "</" ++ tagName ++ ">")
            end
          else
            _ <- perform (ConsoleWarn ("Unhandled AST node type: " ++ type
                                       ++ " at path " ++ pathStr nodePath)) ;;
            ret ""
      end
  end.

(** [arr.map(f)] when a call of [f] can throw: [None] as soon as one does. *)
Definition mapGenOnStack {A B : Type} (f : A -> option (Gen B))
  : list A -> option (Gen (list B)) :=
  fix go (l : list A) : option (Gen (list B)) :=
    match l with
    | [] => Some (ret [])
    | a :: r =>
        match f a with
        | None => None
        | Some m =>
            match go r with
            | None => None
            | Some ms => Some (b <- m ;; bs <- ms ;; ret (b :: bs))
            end
        end
    end.

Definition mapiGenOnStack {A B : Type} (f : A -> nat -> option (Gen B))
  : list A -> nat -> option (Gen (list B)) :=
  fix go (l : list A) (i : nat) : option (Gen (list B)) :=
    match l with
    | [] => Some (ret [])
    | a :: r =>
        match f a i with
        | None => None
        | Some m =>
            match go r (S i) with
            | None => None
            | Some ms => Some (b <- m ;; bs <- ms ;; ret (b :: bs))
            end
        end
    end.

(** [astNodeToJsx] run on a call stack that holds [stack] more activations of
    it: every call takes one, the calls on the children run on what is left,
    and a call for which none is left throws [RangeError] ([None]); the source
    has no [catch] around the recursion, so the throw ends the rendering. The
    stack is counted in activations of the renderer; what one activation
    calls besides itself (the helpers, the serializer, the digest) is taken
    to return. *)
Fixpoint astNodeToJsxOnStack (E : Env) (stack : nat) (node : Node) (depth : nat)
    (isComponentDefinitionBody : bool) (componentPropsSpec : PropsSpec)
    (nodePath : list PathSeg) (localComponentRegistry : Registry)
    (templateNodeForCurrentDefinition : option Node) {struct node}
  : option (Gen string) :=
  match stack with
  | 0 => None
  | S frames =>
      match node with
      | mkNode _ type name attribs children data =>
          let isTemplate :=
            match templateNodeForCurrentDefinition with
            | Some t => sameNode node t
            | None => false
            end in
          match (if isTemplate then None else Reg.get localComponentRegistry node) with
          | Some compInfo =>
              let reference (childrenGen : Gen string) : Gen string :=
                instanceProps <- instancePropsOf E node (info_propsSpec compInfo) [] ;;
                childrenJsx <- childrenGen ;;
                let propsString := Js.join "" (map instancePropString instanceProps) in
                ret (componentReference (info_name compInfo) propsString childrenJsx) in
              if Obj.has (info_propsSpec compInfo) "children"
              then
                match mapGenOnStack
                        (fun child =>
                           astNodeToJsxOnStack E frames child (depth + 1) false [] []
                             localComponentRegistry templateNodeForCurrentDefinition)
                        children with
                | Some rendered =>
                    Some (reference (parts <- rendered ;; ret (Js.join "" parts)))
                | None => None
                end
              else Some (reference (ret ""))
          | None =>
              if type =? "text" then
                Some (ret (textToJsx isComponentDefinitionBody componentPropsSpec nodePath data))
              else if type =? "comment" then
                Some (ret ("{/*" ++ escapeCommentEnd data ++ "*/}"))
              else if (type =? "directive") || (type =? "script") || (type =? "style") then
                Some (ret "")
              else if type =? "tag" then
                let node' := if (name =? "svg") && Js.nonEmpty (attrValue attribs "viewbox")
                             then withViewBox node else node in
                let currentPathStr := pathStr nodePath in
                let iconProp :=
                  if isComponentDefinitionBody
                  then findProp (fun spec => propTypeEqb (spec_type spec) TSvg
                                             && (pathStr (spec_path spec) =? currentPathStr))
                                componentPropsSpec
                  else None in
                match iconProp with
                | Some propName =>
                    Some (ret ("<img src={" ++ propName ++ "} alt=" ++ Js.quote
                               ++ escapeAlt (altTextOf children) ++ Js.quote ++ " />"))
                | None =>
                    let tagName := Js.toLowerCase name in
                    if tagName =? "svg" then Some (staticSvgToJsx E node')
                    else
                      let attribsString :=
                        Js.join ""
                          (map (attributeString isComponentDefinitionBody componentPropsSpec
                                  nodePath (node_attribs node'))
                               (Obj.keys (node_attribs node'))) in
                      let element (childrenGen : Gen string) : Gen string :=
                        childrenJsx <- childrenGen ;;
                        ret ("<" ++ tagName ++ attribsString ++ ">" ++ childrenJsx
                             ++ "</" ++ tagName ++ ">") in
                      if mem tagName (SELF_CLOSING_TAGS E)
                      then Some (ret ("<" ++ tagName ++ attribsString ++ " />"))
                      else if isComponentDefinitionBody
                              && match Obj.get componentPropsSpec "children" with
                                 | Some spec => propTypeEqb (spec_type spec) TChildren
                                 | None => false
                                 end
                      then Some (element (ret "{children}"))
                      else
                        match mapiGenOnStack
                                (fun child i =>
                                   astNodeToJsxOnStack E frames child (depth + 1)
                                     isComponentDefinitionBody componentPropsSpec
                                     (nodePath ++ [SegChildren; SegIndex i])%list
                                     localComponentRegistry
                                     templateNodeForCurrentDefinition)
                                children 0 with
                        | Some rendered =>
                            Some (element (parts <- rendered ;; ret (Js.join "" parts)))
                        | None => None
                        end
                end
              else
                Some (_ <- perform (ConsoleWarn ("Unhandled AST node type: " ++ type
                                                 ++ " at path " ++ pathStr nodePath)) ;;
                      ret "")
          end
      end
  end.

(* ================================================================= *)
(** ** Global registry and naming *)

Record GlobalState : Type := mkGlobal {
  (** fingerprint to (name, filePath) *)
  globalGeneratedComponentSignatures : list (string * (string * string));
  (** chosen name to fingerprint *)
  globalNameUsage : list (string * string)
}.

Definition emptyGlobal : GlobalState := mkGlobal [] [].

Record Resolved : Type := mkResolved {
  finalName : string;
  componentFilePath : string;
  isNewGlobalComponent : bool;
  globalAfter : GlobalState
}.

(** Name resolution of one candidate (lines 390-417) together with the
    recording of a new component (lines 425-429). *)
Definition resolveName (E : Env) (g : GlobalState) (fingerprint nameAttempt : string)
  : Resolved :=
  match Obj.get (globalGeneratedComponentSignatures g) fingerprint with
  | Some (name, filePath) => mkResolved name filePath false g
  | None =>
      let baseName := nameAttempt in
      let existingFingerprintForName := Obj.get (globalNameUsage g) baseName in
      let claimed :=
        match existingFingerprintForName with
        | Some fp => Js.nonEmpty fp
        | None => false
        end in
      let name :=
        if claimed then baseName ++ "_" ++ String.substring 0 8 fingerprint else baseName in
      let usage :=
        if claimed then globalNameUsage g
        else Obj.set (globalNameUsage g) baseName fingerprint in
      let filePath := path_join E (pathConfig_components E) (name ++ ".jsx") in
      mkResolved name filePath true
        (mkGlobal (Obj.set (globalGeneratedComponentSignatures g) fingerprint (name, filePath))
                  usage)
  end.

(** A run of resolutions: the names given to [(fingerprint, nameAttempt)] in order. *)
Fixpoint resolveAll (E : Env) (g : GlobalState) (requests : list (string * string))
  : list string :=
  match requests with
  | [] => []
  | (fingerprint, nameAttempt) :: rest =>
      let r := resolveName E g fingerprint nameAttempt in
      finalName r :: resolveAll E (globalAfter r) rest
  end.

(* ================================================================= *)
(** ** Pattern detector *)

Inductive CandidateType : Type := Layout | Repetition.

Record Candidate : Type := mkCandidate {
  nameAttempt : string;
  astNode : Node;
  cand_type : CandidateType;
  propsSpec : PropsSpec;
  instances : list Node
}.

Definition layoutCriteria (identifier : string) (node : Node) : bool :=
  (node_type node =? "tag")
  && ((match Obj.get (node_attribs node) "class" with
       | Some c => mem identifier (Js.splitChar " " c)
       | None => false
       end)
      || (match Obj.get (node_attribs node) "id" with
          | Some i => i =? identifier
          | None => false
          end)).

(** The layout pass (lines 292-313). *)
Definition layoutCandidates (E : Env) (bodyNode : Node) (localComponentRegistry : Registry)
  : list Candidate :=
  flat_map
    (fun identifier =>
       flat_map
         (fun node =>
            if negb (isNodeAlreadyComponentPart node localComponentRegistry)
            then [mkCandidate (toPascalCase identifier ++ "Layout") node Layout [] [node]]
            else [])
         (findNodes (layoutCriteria identifier) bodyNode))
    (LAYOUT_CLASSES_OR_IDS E).

(** State of the repetition traversal: the [signatures] map and the
    [processedForRepetition] set. *)
Record Repetitions : Type := mkRepetitions {
  signatures : list (string * list (Node * list PathSeg));
  processedForRepetition : list nat
}.

Definition markProcessed (st : Repetitions) (node : Node) : Repetitions :=
  mkRepetitions (signatures st)
    (if existsb (Nat.eqb (node_id node)) (processedForRepetition st)
     then processedForRepetition st
     else (processedForRepetition st ++ [node_id node])%list).

Definition recordSignature (st : Repetitions) (sig : string) (node : Node)
    (currentPath : list PathSeg) : Repetitions :=
  mkRepetitions
    (match Obj.get (signatures st) sig with
     | Some group => Obj.set (signatures st) sig (group ++ [(node, currentPath)])%list
     | None => Obj.set (signatures st) sig [(node, currentPath)]
     end)
    (processedForRepetition st).

(** [findRepetitive(node, currentPath)] (lines 315-335); [eligible] is the
    eligibility test it consults. *)
Fixpoint findRepetitiveWith (eligible : Node -> bool) (E : Env) (node : Node)
    (currentPath : list PathSeg) (st : Repetitions) {struct node} : Repetitions :=
  match node with
  | mkNode id _ _ _ children _ =>
      if existsb (Nat.eqb id) (processedForRepetition st) then st
      else
        let st1 :=
          if eligible node
             && (MIN_CHILDREN_FOR_REUSABLE_BY_REPETITION E <=? length children)%nat
          then recordSignature st (getStructuralSignature node) node currentPath
          else st in
        let st2 :=
          (fix eachChild (cs : list Node) (i : nat) (s : Repetitions) : Repetitions :=
             match cs with
             | [] => s
             | child :: rest =>
                 eachChild rest (S i)
                   (if isSvgTag child then markProcessed s child
                    else findRepetitiveWith eligible E child
                           (currentPath ++ [SegChildren; SegIndex i])%list s)
             end) children 0 st1 in
        markProcessed st2 node
  end.

Definition findRepetitive (E : Env) (localComponentRegistry : Registry) :=
  findRepetitiveWith
    (fun node => isNodeEligibleForComponentization node localComponentRegistry) E.

(** [baseName] of a repetition group (lines 342-351). *)
Definition repetitionBaseName (firstNodeInstance : Node) : string :=
  let classes :=
    match Obj.get (node_attribs firstNodeInstance) "class" with
    | Some c => filter Js.nonEmpty (Js.splitWs (Js.trim c))
    | None => []
    end in
  let baseName :=
    match classes with
    | first :: _ => toPascalCase first
    | [] =>
        match Obj.get (node_attribs firstNodeInstance) "id" with
        | Some i => if Js.nonEmpty i then toPascalCase i else "Reusable"
        | None => "Reusable"
        end
    end in
  if (String.length baseName <=? 1)%nat || (baseName =? "W")
  then toPascalCase (node_name firstNodeInstance) ++ "Element"
  else baseName.

(** One group of [signatures.forEach] (lines 337-365); [None] when prop
    inference throws. *)
Definition repetitionCandidate (E : Env) (localComponentRegistry : Registry)
    (nodesWithPaths : list (Node * list PathSeg)) : option (list Candidate) :=
  if (MIN_REPETITIONS_FOR_COMPONENT E <=? length nodesWithPaths)%nat then
    match nodesWithPaths with
    | [] => None
    | (firstNodeInstance, _) :: _ =>
        if isNodeAlreadyComponentPart firstNodeInstance localComponentRegistry then Some []
        else
          match analyzeInstancesForProps E firstNodeInstance (map fst nodesWithPaths) with
          | None => None
          | Some spec =>
              Some [mkCandidate (repetitionBaseName firstNodeInstance ++ "Item")
                      firstNodeInstance Repetition spec (map fst nodesWithPaths)]
          end
    end
  else Some [].

Fixpoint repetitionCandidates (E : Env) (localComponentRegistry : Registry)
    (groups : list (list (Node * list PathSeg))) : option (list Candidate) :=
  match groups with
  | [] => Some []
  | g :: rest =>
      match repetitionCandidate E localComponentRegistry g with
      | None => None
      | Some cs =>
          match repetitionCandidates E localComponentRegistry rest with
          | None => None
          | Some more => Some (cs ++ more)%list
          end
      end
  end.

Fixpoint countNodes (n : Node) : nat :=
  match n with
  | mkNode _ _ _ _ children _ => 1 + fold_left (fun sum child => sum + countNodes child) children 0
  end.

(** [componentCandidates.sort((a, b) => countNodes(a.astNode) - countNodes(b.astNode))]:
    the sort is stable, so the result is the stable insertion sort. *)
Fixpoint insertCandidate (c : Candidate) (l : list Candidate) : list Candidate :=
  match l with
  | [] => [c]
  | d :: r => if (countNodes (astNode c) <=? countNodes (astNode d))%nat
              then c :: l else d :: insertCandidate c r
  end.

Definition sortCandidates (l : list Candidate) : list Candidate :=
  fold_right insertCandidate [] l.

(** [componentCandidates] as the extraction loop receives it (lines 290-370);
    [findRep] is the repetition traversal. *)
Definition componentCandidatesWith
    (findRep : Node -> list PathSeg -> Repetitions -> Repetitions)
    (E : Env) (bodyNode : Node) (localComponentRegistry : Registry)
  : option (list Candidate) :=
  let layout := layoutCandidates E bodyNode localComponentRegistry in
  let found := findRep bodyNode [] (mkRepetitions [] []) in
  match repetitionCandidates E localComponentRegistry (Obj.values (signatures found)) with
  | None => None
  | Some repetition => Some (sortCandidates (layout ++ repetition)%list)
  end.

Definition componentCandidates (E : Env) (bodyNode : Node) (localComponentRegistry : Registry)
  : option (list Candidate) :=
  componentCandidatesWith (findRepetitive E localComponentRegistry)
    E bodyNode localComponentRegistry.

Record ComponentDef : Type := mkComponentDef {
  def_candidate : Candidate;
  def_name : string;
  def_jsxBody : string;
  def_filePath : string
}.

(** State of the extraction loop (lines 371-437). *)
Record Extraction : Type := mkExtraction {
  ex_registry : Registry;
  ex_global : GlobalState;
  ex_defs : list ComponentDef;
  ex_effects : list Effect
}.

(** [candidate.instances.forEach((instanceNode) => localComponentRegistry.set(...))] *)
Definition registerInstances (reg : Registry) (candidate : Candidate) (name : string)
  : Registry :=
  fold_left
    (fun r instanceNode =>
       Reg.set r instanceNode (mkCompInfo name (astNode candidate) (propsSpec candidate)))
    (instances candidate) reg.

(** The body of a candidate's definition (lines 373-381). *)
Definition componentBody (E : Env) (reg : Registry) (candidate : Candidate) : Gen string :=
  astNodeToJsx E (astNode candidate) 0 true (propsSpec candidate) [] reg
    (Some (astNode candidate)).

(** One iteration of the extraction loop. *)
Definition extractCandidate (E : Env) (st : Extraction) (candidate : Candidate) : Extraction :=
  let (componentBodyJsx, effects) := componentBody E (ex_registry st) candidate in
  let fingerprint := generateComponentFingerprint E componentBodyJsx (propsSpec candidate) in
  let r := resolveName E (ex_global st) fingerprint (nameAttempt candidate) in
  mkExtraction
    (registerInstances (ex_registry st) candidate (finalName r))
    (globalAfter r)
    (if isNewGlobalComponent r
     then (ex_defs st
           ++ [mkComponentDef candidate (finalName r) componentBodyJsx (componentFilePath r)])%list
     else ex_defs st)
    (ex_effects st ++ effects)%list.

(** [identifyComponents(bodyNode, localComponentRegistry)]: the definitions new
    in this tree with the registry, the global state and the effects after
    the loop; [None] when prop inference throws. *)
Definition identifyComponents (E : Env) (bodyNode : Node) (localComponentRegistry : Registry)
    (g : GlobalState) : option Extraction :=
  match componentCandidates E bodyNode localComponentRegistry with
  | None => None
  | Some candidates =>
      Some (fold_left (extractCandidate E) candidates
              (mkExtraction localComponentRegistry g [] []))
  end.

(* ================================================================= *)
(** ** Main process orchestration *)

Record PageResult : Type := mkPageResult {
  page_defs : list ComponentDef;
  pageJsxContent : string;
  page_registry : Registry;
  page_global : GlobalState;
  page_effects : list Effect
}.

Definition isTagNamed (name : string) (c : Node) : bool :=
  (node_type c =? "tag") && (node_name c =? name).

(** [bodyNode] of an AST (lines 750-755). *)
Definition findBody (ast : Node) : option Node :=
  match find (isTagNamed "html") (node_children ast) with
  | Some rootHtmlNode => find (isTagNamed "body") (node_children rootHtmlNode)
  | None => None
  end.

(** The page body (lines 811-815). *)
Definition renderPage (E : Env) (bodyNode : Node) (reg : Registry) : Gen string :=
  parts <- mapGen (fun child => astNodeToJsx E child 0 false [] [] reg None)
                  (node_children bodyNode) ;;
  ret (Js.join "" parts).

(** [processSingleAst] from the body node on: detection and extraction with a
    fresh registry, then the page body. The component and page files it
    formats and writes are left to the file system. [None] when
    [identifyComponents] throws. *)
Definition processBody (E : Env) (bodyNode : Node) (g : GlobalState) : option PageResult :=
  match identifyComponents E bodyNode [] g with
  | None => None
  | Some ex =>
      let (jsx, effects) := renderPage E bodyNode (ex_registry ex) in
      Some (mkPageResult (ex_defs ex) jsx (ex_registry ex) (ex_global ex)
              (ex_effects ex ++ effects)%list)
  end.

(** [main]: the trees one after the other over the shared global state; a tree
    without a body is skipped. The result is the final global state and every
    effect of the run; [None] when a tree throws. *)
Fixpoint runBatch (E : Env) (asts : list Node) (g : GlobalState)
  : option (GlobalState * list Effect) :=
  match asts with
  | [] => Some (g, [])
  | ast :: rest =>
      match findBody ast with
      | None => runBatch E rest g
      | Some bodyNode =>
          match processBody E bodyNode g with
          | None => None
          | Some page =>
              match runBatch E rest (page_global page) with
              | None => None
              | Some (g', effects) => Some (g', (page_effects page ++ effects)%list)
              end
          end
      end
  end.

(** The asset writes among the effects of a run. *)
Definition assetWrites (effects : list Effect) : list (string * string) :=
  flat_map (fun e => match e with
                     | FsWrite diskPath content => [(diskPath, content)]
                     | ConsoleWarn _ => []
                     end) effects.

(* ================================================================= *)
(** ** Shape relations used to state the signature properties *)

(** The class tokens that enter a signature: [None] when the class attribute
    is absent or empty. *)
Definition classTokens (node : Node) : option (list string) :=
  match Obj.get (node_attribs node) "class" with
  | Some c => if Js.nonEmpty c then Some (Js.splitWs c) else None
  | None => None
  end.

Definition sameSet (l1 l2 : list string) : Prop := forall x, In x l1 <-> In x l2.

Definition tokenSet (node : Node) : list string :=
  match classTokens node with Some ts => ts | None => [] end.

(** Shape equivalence in the words of the specification: same tag name, same
    set of attribute names, same set of class tokens, children pairwise
    equivalent in order; a node that is not an element is equivalent to the
    nodes of its kind. *)
#[warnings="-register-all"]
Inductive shapeEquivalent : Node -> Node -> Prop :=
| shape_kind : forall a b,
    isElementType (node_type a) = false ->
    node_type a = node_type b ->
    shapeEquivalent a b
| shape_element : forall a b,
    isElementType (node_type a) = true ->
    isElementType (node_type b) = true ->
    node_name a = node_name b ->
    sameSet (Obj.keys (node_attribs a)) (Obj.keys (node_attribs b)) ->
    sameSet (tokenSet a) (tokenSet b) ->
    Forall2 shapeEquivalent (node_children a) (node_children b) ->
    shapeEquivalent a b.

Definition sameTokens (a b : option (list string)) : Prop :=
  match a, b with
  | Some ta, Some tb => Permutation ta tb
  | None, None => True
  | _, _ => False
  end.

(** Agreement with multiplicity: attribute names and class tokens agree up to
    order, each counted as often as it occurs. *)
#[warnings="-register-all"]
Inductive sameShape : Node -> Node -> Prop :=
| same_kind : forall a b,
    isElementType (node_type a) = false ->
    node_type a = node_type b ->
    sameShape a b
| same_element : forall a b,
    isElementType (node_type a) = true ->
    isElementType (node_type b) = true ->
    node_name a = node_name b ->
    Permutation (Obj.keys (node_attribs a)) (Obj.keys (node_attribs b)) ->
    sameTokens (classTokens a) (classTokens b) ->
    Forall2 sameShape (node_children a) (node_children b) ->
    sameShape a b.

(* ================================================================= *)
(** ** The detector without the already-claimed check *)

(** [isNodeEligibleForComponentization] with the already-claimed check removed. *)
Definition isNodeEligibleWithoutClaimCheck (node : Node) : bool :=
  if negb (node_type node =? "tag") then false
  else if node_name node =? "svg" then false
  else true.

(** The candidate list when the repetition traversal does not consult the
    registry. *)
Definition componentCandidatesUnguarded (E : Env) (bodyNode : Node)
    (localComponentRegistry : Registry) : option (list Candidate) :=
  componentCandidatesWith (findRepetitiveWith isNodeEligibleWithoutClaimCheck E)
    E bodyNode localComponentRegistry.

(* ================================================================= *)
(** ** Vocabulary of the statements *)

(** The node kinds [astNodeToJsx] has a case for. *)
Definition isHandledType (t : string) : bool :=
  (t =? "text") || (t =? "comment") || (t =? "directive") || (t =? "script")
  || (t =? "style") || (t =? "tag").

(** The default configuration of the README over given collaborators. *)
Definition readmeEnv (md5 : string -> string) (serialize : JsVal -> string)
    (path_join : string -> string -> string) : Env :=
  mkEnv md5 serialize path_join
        ["img"; "br"; "hr"; "input"; "meta"; "link"; "area"; "base"; "col";
         "embed"; "param"; "source"; "track"; "wbr"]
        ["navbar"; "footer"; "sidebar"; "main-content"; "container"]
        2 2 "react_output/public/svgs" "svgs" "components".

(** An environment to run the definitions on concrete trees: the digest is
    md5; the serializer (the name of the node) and [path.join] (the two parts
    around a slash) are stand-ins. *)
Definition sampleEnv : Env :=
  readmeEnv Md5.hex
            (fun v => match v with VNode n => node_name n | _ => "" end)
            (fun a b => a ++ "/" ++ b).

Definition shapeEl (id : nat) (name : string) (attribs : list (string * string))
    (children : list Node) : Node :=
  mkNode id "tag" name attribs children "".

Definition shapeText (id : nat) (data : string) : Node := mkNode id "text" "" [] [] data.

Definition titledCard (id : nat) (title1 title2 : string) : Node :=
  shapeEl id "div" [("class", "card")]
    [shapeEl (id + 1) "h2" [("class", "title")] [shapeText (id + 2) title1];
     shapeEl (id + 3) "h3" [("class", "title")] [shapeText (id + 4) title2]].

(** A page whose only element carries two layout identifiers. *)
Definition twoLayoutsNode : Node :=
  shapeEl 1 "div" [("class", "navbar container")] [shapeEl 2 "p" [] [shapeText 3 "x"]].

Definition twoLayoutsBody : Node := shapeEl 0 "body" [] [twoLayoutsNode].

(** An effect that, when it is an asset write, writes to the file named by
    the digest of the content written. *)
Definition contentAddressed (E : Env) (e : Effect) : Prop :=
  match e with
  | FsWrite diskPath content =>
      diskPath = path_join E (SVGS_OUTPUT_DIR E) (svgFilenameOf E content)
  | ConsoleWarn _ => True
  end.

Definition svgIcon (id : nat) : Node :=
  shapeEl id "svg" [("viewBox", "0 0 8 8")] [shapeEl (id + 1) "path" [("d", "M0 0h8v8z")] []].

(** A document whose body holds the same icon twice. *)
Definition twoIconsAst : Node :=
  mkNode 0 "root" "" []
    [shapeEl 1 "html" [] [shapeEl 2 "body" [] [svgIcon 3; svgIcon 5]]] "".


(** What a path of [collectPaths] designates in the instance it was read from:
    the attribute value, the text child or the icon subtree at that path. *)
Definition designates (E : Env) (node : Node) (path : list PathSeg) (e : Emission) : Prop :=
  match em_type e with
  | TAttribute => walk (VNode node) path = VStr (em_value e)
  | TTextChild =>
      exists child, walk (VNode node) path = VNode child
                    /\ em_value e = Js.trim (node_data child)
  | TSvg =>
      exists svgNode, walk (VNode node) path = VNode svgNode
                      /\ em_value e = serialize E (VNode svgNode)
  | TChildren => False
  end.



(** [v] is among the values recorded for the path string [key]. *)
Definition recorded (differingPaths : list (string * Differing)) (key v : string) : Prop :=
  exists d, Obj.get differingPaths key = Some d /\ In v (diff_values d).

(** The test of line 223: the template has no value at the path, or another one. *)
Definition differsFromTemplate (templateInfo : option (string * PropType)) (v : string)
  : Prop :=
  match templateInfo with
  | None => True
  | Some (tv, _) => v <> tv
  end.

(** A list item with a text, and one whose text is blank. *)
Definition textItem (id : nat) (text : string) : Node :=
  shapeEl id "li" [("class", "item")] [shapeText (id + 1) text].

(** A card of class "card" and a second class [k]: [<div class="card k"><p>a</p><p>b</p></div>]. *)
Definition classCard (id : nat) (k : string) : Node :=
  shapeEl id "div" [("class", "card " ++ k)]
    [shapeEl (id + 1) "p" [] [shapeText (id + 2) "a"];
     shapeEl (id + 3) "p" [] [shapeText (id + 4) "b"]].

(** A body with three repeated cards, two instances each; the three groups
    choose the base name "CardItem". *)
Definition threeCardGroupsBody : Node :=
  shapeEl 0 "body" []
    [classCard 10 "k0"; classCard 20 "k0";
     classCard 30 "k27445"; classCard 40 "k27445";
     classCard 50 "k139748"; classCard 60 "k139748"].

(** The definition body of a card group and the text its fingerprint hashes. *)
Definition classCardJsx (k : string) : string :=
  "<div className={" ++ Js.quote ++ "card " ++ k ++ Js.quote ++ "}><p>a</p><p>b</p></div>".

Definition classCardHashed (k : string) : string := classCardJsx k ++ "::PROPS::[]".


(** The [i]-th name the loop tries from [(count, propName)]. *)
Definition candidateAt (base propName : string) (count i : nat) : string :=
  match i with
  | 0 => propName
  | S i' => base ++ Js.ofNat (count + i')
  end.

(** The prop a differing path becomes. *)
Definition specOfDiffering (d : Differing) : PropSpec :=
  mkPropSpec (diff_type d) (diff_pathArray d) (diff_values d).

(** The names given so far are exactly the keys of the spec, without repeats. *)
Definition namingInvariant (st : Naming) : Prop :=
  existingPropNames st = Obj.keys (propsSpecSoFar st)
  /\ NoDup (Obj.keys (propsSpecSoFar st)).

(** How [generatePropName] chooses: the base name when it is free, else the
    base name with the least suffix 1, 2, ... that is free. *)
Definition suffixNaming (base : string) (existing : list string) (name : string) : Prop :=
  ~ In name existing
  /\ (name = base
      \/ (In base existing
          /\ exists k, 1 <= k /\ name = base ++ Js.ofNat k
                       /\ forall j, 1 <= j < k -> In (base ++ Js.ofNat j) existing)).

(** Every node recorded in the [signatures] map satisfies [P]. *)
Definition groupsSatisfy (P : Node -> Prop) (st : Repetitions) : Prop :=
  Forall (fun kv => Forall (fun np => P (fst np)) (snd kv)) (signatures st).

Definition isElement (node : Node) : Prop := node_type node = "tag".

(** [v] was observed at the path string [key]: it is the template's value
    there, or the value an instance other than the template has there. *)
Definition observed (E : Env) (templateNode : Node) (instances : list Node)
    (key v : string) : Prop :=
  (exists ty, Obj.get (templateValuesByPath E templateNode) key = Some (v, ty))
  \/ (exists instance e,
         In instance instances /\ sameNode instance templateNode = false
         /\ In e (collectPaths E instance [])
         /\ pathStr (em_path e) = key /\ em_value e = v).

(* ================================================================= *)
(** ** Vocabulary of the further properties *)

(** The fingerprint under which a definition was resolved. *)
Definition fingerprintOfDef (E : Env) (d : ComponentDef) : string :=
  generateComponentFingerprint E (def_jsxBody d) (propsSpec (def_candidate d)).

(** Every fingerprint known to [g] is known to [g'] with the same name and
    path, and every name claimed in [g] is claimed by the same fingerprint in
    [g']. *)
Definition globalExtends (g g' : GlobalState) : Prop :=
  (forall fingerprint entry,
      Obj.get (globalGeneratedComponentSignatures g) fingerprint = Some entry ->
      Obj.get (globalGeneratedComponentSignatures g') fingerprint = Some entry)
  /\ (forall name owner,
         Obj.get (globalNameUsage g) name = Some owner -> owner <> "" ->
         Obj.get (globalNameUsage g') name = Some owner).

(** A document with one repeated card group. *)
Definition cardsAst : Node :=
  mkNode 0 "root" "" []
    [shapeEl 1 "html" []
       [shapeEl 2 "body" [] [titledCard 10 "One" "Two"; titledCard 20 "Three" "Four"]]] "".

Definition cardsBody : Node :=
  shapeEl 2 "body" [] [titledCard 10 "One" "Two"; titledCard 20 "Three" "Four"].

(** What detection guarantees of a candidate: the template is the first
    instance; every instance is an unregistered element with the template's
    signature; a layout candidate is its own only instance, has no props and
    matches a configured identifier; a repetition candidate has the
    configured number of instances, each with the configured number of
    children and none of them an svg. *)
Definition candidateWellFormed (E : Env) (reg : Registry) (c : Candidate) : Prop :=
  (exists others, instances c = (astNode c :: others)%list)
  /\ Forall (fun n => getStructuralSignature n = getStructuralSignature (astNode c)
                      /\ node_type n = "tag"
                      /\ isNodeAlreadyComponentPart n reg = false)
            (instances c)
  /\ match cand_type c with
     | Layout =>
         instances c = [astNode c] /\ propsSpec c = []
         /\ exists identifier,
              In identifier (LAYOUT_CLASSES_OR_IDS E)
              /\ nameAttempt c = toPascalCase identifier ++ "Layout"
              /\ layoutCriteria identifier (astNode c) = true
     | Repetition =>
         (MIN_REPETITIONS_FOR_COMPONENT E <= length (instances c))%nat
         /\ Forall (fun n =>
                      (MIN_CHILDREN_FOR_REUSABLE_BY_REPETITION E
                       <= length (node_children n))%nat
                      /\ node_name n <> "svg")
                   (instances c)
     end.

(** Every group of the [signatures] map holds nodes related to its key. *)
Definition groupsKeyed (R : string -> Node -> Prop) (st : Repetitions) : Prop :=
  Forall (fun kv => Forall (fun np => R (fst kv) (fst np)) (snd kv)) (signatures st).

(** The order of the extraction loop: templates with fewer nodes first. *)
Definition smallerFirst (a b : Candidate) : Prop :=
  (countNodes (astNode a) <= countNodes (astNode b))%nat.

Definition ofSize (n : nat) (c : Candidate) : bool := (countNodes (astNode c) =? n)%nat.

(** The nodes of a tree in document order: a node before its children, the
    children from first to last. *)
Fixpoint preorder (n : Node) : list Node :=
  match n with
  | mkNode _ _ _ _ children _ => n :: flat_map preorder children
  end.

(** The global registry is consistent: every recorded component has the file
    [<components>/<name>.jsx], and the fingerprint that claimed a base name
    is recorded under exactly that name. *)
Definition globalConsistent (E : Env) (g : GlobalState) : Prop :=
  (forall fingerprint name filePath,
      Obj.get (globalGeneratedComponentSignatures g) fingerprint = Some (name, filePath) ->
      filePath = path_join E (pathConfig_components E) (name ++ ".jsx"))
  /\ (forall name owner,
         Obj.get (globalNameUsage g) name = Some owner -> owner <> "" ->
         Obj.get (globalGeneratedComponentSignatures g) owner
         = Some (name, path_join E (pathConfig_components E) (name ++ ".jsx"))).

(** Every character of the string satisfies [p]. *)
Fixpoint allChars (p : ascii -> bool) (s : string) : bool :=
  match s with
  | EmptyString => true
  | String c r => p c && allChars p r
  end.

Definition isNot (c : ascii) (x : ascii) : bool := negb (Ascii.eqb x c).

(** The ASCII letters and digits of a string, in lower case. *)
Definition cleanedOf (str : string) : string :=
  Js.filterChars (fun c => Js.isLower c || Js.isDigit c) (Js.toLowerCase str).

Definition startsUpperOrDigit (s : string) : bool :=
  match s with
  | String c _ => Js.isUpper c || Js.isDigit c
  | EmptyString => false
  end.

(** A piece of a style declaration: it holds neither [':'] nor [';']. *)
Definition plainPiece (s : string) : bool :=
  allChars (fun c => isNot ":" c && isNot ";" c) s.

(** The prop that replaces a text node in a definition body, if any. *)
Definition textPropAt (isComponentDefinitionBody : bool) (componentPropsSpec : PropsSpec)
    (nodePath : list PathSeg) : option string :=
  if isComponentDefinitionBody
  then findProp (fun spec => propTypeEqb (spec_type spec) TTextChild
                             && (pathStr (spec_path spec) =? pathStr nodePath))
                componentPropsSpec
  else None.

Fixpoint concatMapChars (f : ascii -> string) (s : string) : string :=
  match s with
  | EmptyString => EmptyString
  | String c r => f c ++ concatMapChars f r
  end.

(** What one character of a text node becomes: the closing brace of the
    expression that replaces ['{'] is replaced in its turn. *)
Definition braceImage (c : ascii) : string :=
  if Ascii.eqb c "{"
  then "{" ++ Js.quote ++ "{" ++ Js.quote ++ "{" ++ Js.quote ++ "}" ++ Js.quote ++ "}"
  else if Ascii.eqb c "}" then "{" ++ Js.quote ++ "}" ++ Js.quote ++ "}"
  else String c EmptyString.

(** The string holds ['*'] followed by ['/']. *)
Fixpoint hasCommentEnd (s : string) : bool :=
  match s with
  | EmptyString => false
  | String c r =>
      match r with
      | String d _ => (Ascii.eqb c "*" && Ascii.eqb d "/") || hasCommentEnd r
      | EmptyString => false
      end
  end.

(** Two renderings with the same text and the same asset writes; the
    warnings may differ. *)
Definition sameOutput {A : Type} (a b : Gen A) : Prop :=
  fst a = fst b /\ assetWrites (snd a) = assetWrites (snd b).

Definition isChildrenProp (entry : string * PropSpec) : bool :=
  propTypeEqb (spec_type (snd entry)) TChildren.

(** A registry entry made from a candidate of [candidates]: its key is one
    of the candidate's instances, its template and prop spec are the
    candidate's. *)
Definition entryFrom (candidates : list Candidate) (entry : Node * CompInfo) : Prop :=
  exists c n,
    In c candidates /\ In n (instances c) /\ sameNode (fst entry) n = true
    /\ info_astNode (snd entry) = astNode c
    /\ info_propsSpec (snd entry) = propsSpec c.

Definition wellNamed (name : string) : bool :=
  allChars Js.isAlnum name && startsUpperOrDigit name.

(** The nodes of a tree that do not lie inside an icon: the traversal of
    [preorder] that does not enter an [svg] child. *)
Fixpoint outsideIcons (n : Node) : list Node :=
  match n with
  | mkNode _ _ _ _ children _ =>
      n :: flat_map (fun child => if isSvgTag child then [] else outsideIcons child) children
  end.

(** The nesting depth of a tree. *)
Fixpoint height (n : Node) : nat :=
  match n with
  | mkNode _ _ _ _ children _ => S (fold_right (fun c m => Nat.max (height c) m) 0 children)
  end.

(** [n + 1] elements nested one inside the other. *)
Fixpoint nestedDivs (n : nat) : Node :=
  match n with
  | 0 => shapeEl 0 "div" [] []
  | S k => shapeEl 0 "div" [] [nestedDivs k]
  end.

(** The rows of the naming loop (lines 236-267): for each differing path, in
    the order of the loop, the base name it receives and the name it is given. *)
Fixpoint namingTrace (templateNode : Node) (st : Naming) (ds : list Differing)
  : option (list (string * string)) :=
  match ds with
  | [] => Some []
  | d :: r =>
      match basePropName templateNode (propCounter st) d, nameOne templateNode st d with
      | Some (base, _), Some st' =>
          match namingTrace templateNode st' r with
          | Some rows =>
              Some ((base, generatePropName base (existingPropNames st)) :: rows)
          | None => None
          end
      | _, _ => None
      end
  end.

(** A path to a node below an instance: [children], an index, [children],
    an index, ... *)
Fixpoint isElementPath (path : list PathSeg) : bool :=
  match path with
  | [] => true
  | SegChildren :: SegIndex _ :: rest => isElementPath rest
  | _ => false
  end.

(** The node of the instance at a path, read off the tree. *)
Fixpoint nodeAt (node : Node) (path : list PathSeg) : option Node :=
  match path with
  | [] => Some node
  | SegChildren :: SegIndex i :: rest =>
      match nth_error (node_children node) i with
      | Some child => nodeAt child rest
      | None => None
      end
  | _ => None
  end.



(** The characters the signature writes between its parts. *)
Definition isDelimiter (c : ascii) : bool :=
  Ascii.eqb c "[" || Ascii.eqb c "]" || Ascii.eqb c "(" || Ascii.eqb c ")"
  || Ascii.eqb c "," || Ascii.eqb c "|" || Ascii.eqb c "_".

Definition plainName (s : string) : bool := allChars (fun c => negb (isDelimiter c)) s.

(** No tag name, attribute name, class token or unknown node kind of the
    tree holds a delimiter, and no attribute name is empty. *)
Fixpoint delimiterFree (n : Node) : bool :=
  match n with
  | mkNode _ type name attribs children _ =>
      if isLeafType type then true
      else if isElementType type then
        plainName name
        && forallb (fun k => Js.nonEmpty k && plainName k) (Obj.keys attribs)
        && forallb plainName (tokenSet n)
        && forallb delimiterFree children
      else plainName type
  end.

(** The string is empty or begins with a character that satisfies [p]. *)
Definition beginsWith (p : ascii -> bool) (s : string) : bool :=
  match s with
  | EmptyString => true
  | String c _ => p c
  end.

Definition closesChild (c : ascii) : bool := Ascii.eqb c "|" || Ascii.eqb c ")".

(** The signature of [a] can be read back off the front of a string: if it
    is followed by the end of the string or by a character that closes a
    child, the signature of a delimiter-free [b] that begins the same string
    is the signature of a tree that agrees with [a], and the rest is the
    same. *)
Definition readsBack (a : Node) : Prop :=
  forall b x y,
    delimiterFree b = true ->
    beginsWith closesChild x = true -> beginsWith closesChild y = true ->
    getStructuralSignature a ++ x = getStructuralSignature b ++ y ->
    sameShape a b /\ x = y.

(* ================================================================= *)
(** * Properties *)

(** ** Induction over trees *)

Lemma Node_forall_ind (P : Node -> Prop) :
  (forall id type name attribs children data,
      Forall P children -> P (mkNode id type name attribs children data)) ->
  forall n, P n.
Proof.
  intros step. fix IH 1. intros [id type name attribs children data].
  apply step. induction children as [| c r IHr]; constructor; [apply IH | exact IHr].
Qed.

(** ** Sorting does not see the order of its input *)

Lemma leb_trans (a b c : string) :
  String.leb a b = true -> String.leb b c = true -> String.leb a c = true.
Proof.
  unfold String.leb.
  change String.compare with String_as_OT.compare.
  destruct (String_as_OT.compare_spec a b) as [Hab | Hab | Hab]; try discriminate;
    destruct (String_as_OT.compare_spec b c) as [Hbc | Hbc | Hbc]; try discriminate;
    intros _ _.
  - rewrite Hab, Hbc.
    destruct (String_as_OT.compare_spec c c) as [| H | H]; auto;
      exfalso; exact (StrictOrder_Irreflexive _ H).
  - rewrite Hab.
    destruct (String_as_OT.compare_spec b c) as [| |H]; auto.
    exfalso. exact (StrictOrder_Irreflexive _ (StrictOrder_Transitive _ _ _ Hbc H)).
  - rewrite <- Hbc.
    destruct (String_as_OT.compare_spec a b) as [| |H]; auto.
    exfalso. exact (StrictOrder_Irreflexive _ (StrictOrder_Transitive _ _ _ Hab H)).
  - pose proof (StrictOrder_Transitive _ _ _ Hab Hbc) as Hac.
    destruct (String_as_OT.compare_spec a c) as [| |H]; auto.
    exfalso. exact (StrictOrder_Irreflexive _ (StrictOrder_Transitive _ _ _ Hac H)).
Qed.

Lemma leb_false_flip (a b : string) : String.leb a b = false -> String.leb b a = true.
Proof.
  intros H. destruct (String.leb_total a b) as [H' | H']; congruence.
Qed.

Lemma insertSorted_comm (x y : string) (l : list string) :
  Js.insertSorted x (Js.insertSorted y l) = Js.insertSorted y (Js.insertSorted x l).
Proof.
  induction l as [| z r IH]; simpl.
  - destruct (String.leb x y) eqn:Hxy, (String.leb y x) eqn:Hyx; auto.
    + rewrite (String.leb_antisym _ _ Hxy Hyx). reflexivity.
    + apply leb_false_flip in Hxy. congruence.
  - destruct (String.leb y z) eqn:Hyz, (String.leb x z) eqn:Hxz; simpl.
    + destruct (String.leb x y) eqn:Hxy, (String.leb y x) eqn:Hyx;
        rewrite ?Hxz, ?Hyz; auto.
      * rewrite (String.leb_antisym _ _ Hxy Hyx). reflexivity.
      * apply leb_false_flip in Hxy. congruence.
    + assert (String.leb x y = false) as Hxy.
      { destruct (String.leb x y) eqn:Hxy; auto.
        rewrite (leb_trans _ _ _ Hxy Hyz) in Hxz. discriminate. }
      rewrite Hxy, Hxz, Hyz. reflexivity.
    + assert (String.leb y x = false) as Hyx.
      { destruct (String.leb y x) eqn:Hyx; auto.
        rewrite (leb_trans _ _ _ Hyx Hxz) in Hyz. discriminate. }
      rewrite Hyx, Hxz, Hyz. reflexivity.
    + rewrite Hxz, Hyz, IH. reflexivity.
Qed.

Lemma sort_permutation (l1 l2 : list string) :
  Permutation l1 l2 -> Js.sort l1 = Js.sort l2.
Proof.
  induction 1; simpl.
  - reflexivity.
  - now f_equal.
  - apply insertSorted_comm.
  - congruence.
Qed.

(** ** Structural signature *)

Lemma signature_unfold (n : Node) :
  getStructuralSignature n =
  if isLeafType (node_type n) then node_type n
  else if isElementType (node_type n) then
    node_name n ++ "[" ++ Js.join "," (Js.sort (Obj.keys (node_attribs n)))
      ++ classAttr (node_attribs n)
      ++ "](" ++ Js.join "|" (map getStructuralSignature (node_children n)) ++ ")"
  else "UNKNOWN_TYPE_" ++ node_type n.
Proof. destruct n; reflexivity. Qed.

Lemma classAttr_tokens (a b : Node) :
  sameTokens (classTokens a) (classTokens b) ->
  classAttr (node_attribs a) = classAttr (node_attribs b).
Proof.
  unfold classTokens, classAttr.
  destruct (Obj.get (node_attribs a) "class") as [ca |];
    destruct (Obj.get (node_attribs b) "class") as [cb |]; simpl;
    try destruct (Js.nonEmpty ca); try destruct (Js.nonEmpty cb); simpl;
    try tauto.
  intros H. now rewrite (sort_permutation _ _ H).
Qed.

Lemma element_not_leaf (t : string) : isElementType t = true -> isLeafType t = false.
Proof.
  intros H. unfold isLeafType.
  destruct (String.eqb_spec t "text") as [Heq | _]; [subst t; discriminate H |].
  destruct (String.eqb_spec t "comment") as [Heq | _]; [subst t; discriminate H |].
  destruct (String.eqb_spec t "directive") as [Heq | _]; [subst t; discriminate H |].
  reflexivity.
Qed.

Lemma children_signatures (l1 l2 : list Node) :
  Forall2 (fun a b => getStructuralSignature a = getStructuralSignature b) l1 l2 ->
  map getStructuralSignature l1 = map getStructuralSignature l2.
Proof. induction 1; simpl; congruence. Qed.

(** Agreement gives equal signatures: if two subtrees agree on tag name, on
    the attribute names up to order, on the class tokens up to order (tokens
    of a non-empty class value split on white-space runs, counted with
    multiplicity) and, recursively and in order, on the shapes of their
    children, then their signatures are equal; attribute values other than
    class, and text and comment content, do not enter. Nodes that are not
    elements agree when they have the same kind. *)
Lemma signature_respects_shape (a : Node) :
  forall b, sameShape a b -> getStructuralSignature a = getStructuralSignature b.
Proof.
  induction a as [id type name attribs children data IH] using Node_forall_ind.
  intros b H. inversion H as [a' b' Hel Hty | a' b' Hea Heb Hn Hk Hc Hch]; subst.
  - rewrite !signature_unfold. simpl in *. rewrite <- Hty, Hel.
    destruct (isLeafType type); reflexivity.
  - pose proof (classAttr_tokens _ _ Hc) as Hcls.
    assert (map getStructuralSignature children
            = map getStructuralSignature (node_children b)) as Hmap.
    { apply children_signatures. simpl in Hch.
      clear - IH Hch. revert IH.
      induction Hch as [| x y l l' Hxy Hl IHl]; intros IH; constructor;
        inversion IH; subst; auto. }
    pose proof (element_not_leaf _ Hea) as Hla.
    pose proof (element_not_leaf _ Heb) as Hlb.
    rewrite !signature_unfold. simpl in *.
    rewrite Hea, Heb, Hla, Hlb, Hn, (sort_permutation _ _ Hk), Hcls, Hmap.
    reflexivity.
Qed.

(** C4 (as stated) fails in both directions, and the signature does not
    ignore what an icon contains. The tokens of a class value are joined with
    an underscore, so the class values "a b" and "a_b" give one signature for
    two token sets; a token is kept as often as it occurs, so "a a" and "a"
    give two signatures for one token set; and the elements inside an [svg]
    enter its signature like the children of any element. *)
Lemma signature_iff_shape_fails :
  (exists a b, getStructuralSignature a = getStructuralSignature b
               /\ ~ shapeEquivalent a b)
  /\ (exists a b, shapeEquivalent a b
                  /\ getStructuralSignature a <> getStructuralSignature b)
  /\ (exists a b, node_name a = "svg" /\ node_name b = "svg"
                  /\ node_attribs a = node_attribs b
                  /\ getStructuralSignature a <> getStructuralSignature b).
Proof.
  split; [| split].
  - exists (shapeEl 1 "div" [("class", "a b")] []), (shapeEl 2 "div" [("class", "a_b")] []).
    split; [reflexivity |].
    intros H. inversion H as [? ? Hk | ? ? H1 H2 H3 H4 Htok H5]; subst.
    + discriminate Hk.
    + destruct (Htok "a") as [Hin _]. specialize (Hin (or_introl eq_refl)).
      simpl in Hin. destruct Hin as [Hin | Hin]; [discriminate Hin | exact Hin].
  - exists (shapeEl 1 "div" [("class", "a a")] []), (shapeEl 2 "div" [("class", "a")] []).
    split.
    + apply shape_element; try reflexivity.
      * intros x; reflexivity.
      * intros x; simpl; tauto.
      * constructor.
    + intros H. vm_compute in H. discriminate H.
  - exists (shapeEl 1 "svg" [] [shapeEl 2 "path" [] []]),
           (shapeEl 3 "svg" [] [shapeEl 4 "circle" [] []]).
    repeat (split; [reflexivity |]).
    intros H. vm_compute in H. discriminate H.
Qed.

(** ** Prop names *)

Lemma mem_In (x : string) (l : list string) : mem x l = true <-> In x l.
Proof.
  unfold mem. rewrite existsb_exists. split.
  - intros [y [Hy Heq]]. apply String.eqb_eq in Heq. now subst.
  - intros H. exists x. split; [exact H | apply String.eqb_refl].
Qed.

Lemma mem_not_In (x : string) (l : list string) : mem x l = false <-> ~ In x l.
Proof.
  rewrite <- mem_In. destruct (mem x l); split; intros; congruence.
Qed.

Lemma append_empty_r (s : string) : s ++ "" = s.
Proof. induction s as [| c s IH]; simpl; congruence. Qed.

Lemma append_inj_l (p s1 s2 : string) : p ++ s1 = p ++ s2 -> s1 = s2.
Proof. induction p as [| c p IH]; simpl; intros H; [exact H | injection H; auto]. Qed.

Lemma ofNat_inj (i j : nat) : Js.ofNat i = Js.ofNat j -> i = j.
Proof.
  unfold Js.ofNat. intros H.
  apply Unsigned.to_uint_inj.
  pose proof (NilEmpty.usu (Nat.to_uint i)) as Hi.
  pose proof (NilEmpty.usu (Nat.to_uint j)) as Hj.
  rewrite H in Hi. congruence.
Qed.

Lemma ofNat_nonempty (k : nat) : Js.ofNat k <> "".
Proof.
  unfold Js.ofNat. intros H.
  pose proof (NilEmpty.usu (Nat.to_uint k)) as Hk. rewrite H in Hk. simpl in Hk.
  injection Hk as Hk.
  pose proof (Unsigned.of_to k) as Hof. rewrite <- Hk in Hof. simpl in Hof.
  subst k. discriminate Hk.
Qed.

(** Either the loop stops at a free name, reached through taken ones, or
    every name it tried within its fuel is taken. *)
Lemma generatePropNameLoop_cases (base : string) (existing : list string) (fuel : nat) :
  forall count propName,
    let r := generatePropNameLoop fuel count base existing propName in
    (exists i, i < fuel /\ r = candidateAt base propName count i
               /\ ~ In r existing
               /\ forall j, j < i -> In (candidateAt base propName count j) existing)
    \/ (forall j, j < fuel -> In (candidateAt base propName count j) existing).
Proof.
  induction fuel as [| fuel IH]; intros count propName; simpl.
  - right. intros j Hj. lia.
  - destruct (mem propName existing) eqn:Hmem.
    + apply mem_In in Hmem.
      destruct (IH (S count) (base ++ Js.ofNat count)) as [[i [Hi [Hr [Hfree Htaken]]]] | Hall].
      * left. exists (S i). split; [lia |]. split; [| split].
        -- rewrite Hr. destruct i; simpl; [now rewrite Nat.add_0_r |].
           f_equal. f_equal. lia.
        -- exact Hfree.
        -- intros [| j] Hj; simpl; [exact Hmem |].
           specialize (Htaken j ltac:(lia)).
           destruct j; simpl in *; [now rewrite Nat.add_0_r |].
           replace (count + S j) with (S count + j) by lia. exact Htaken.
      * right. intros [| j] Hj; simpl; [exact Hmem |].
        specialize (Hall j ltac:(lia)).
        destruct j; simpl in *; [now rewrite Nat.add_0_r |].
        replace (count + S j) with (S count + j) by lia. exact Hall.
    + left. exists 0. split; [lia |]. split; [reflexivity |]. split.
      * now apply mem_not_In.
      * intros j Hj. lia.
Qed.

Lemma candidates_NoDup (base : string) (n : nat) :
  NoDup (map (candidateAt base base 1) (seq 0 n)).
Proof.
  assert (forall i j, candidateAt base base 1 i = candidateAt base base 1 j -> i = j) as Hinj.
  { intros [| i] [| j]; simpl; intros H; auto.
    - rewrite <- (append_empty_r base) in H at 1.
      apply append_inj_l in H. symmetry in H. now apply ofNat_nonempty in H.
    - rewrite <- (append_empty_r base) in H at 2.
      apply append_inj_l in H. now apply ofNat_nonempty in H.
    - apply append_inj_l, ofNat_inj in H. congruence. }
  generalize (seq_NoDup n 0). generalize (seq 0 n) as l.
  induction l as [| x l IH]; simpl; intros Hnd; constructor.
  - inversion Hnd; subst. rewrite in_map_iff. intros [y [Hy Hin]].
    apply Hinj in Hy. now subst.
  - inversion Hnd; subst. auto.
Qed.

(** The fuel of [generatePropName] is never used up: among the
    [length existing + 1] names tried, one is free. *)
Lemma generatePropName_spec (base : string) (existing : list string) :
  exists i, generatePropName base existing = candidateAt base base 1 i
            /\ ~ In (generatePropName base existing) existing
            /\ forall j, j < i -> In (candidateAt base base 1 j) existing.
Proof.
  unfold generatePropName.
  destruct (generatePropNameLoop_cases base existing (S (length existing)) 1 base)
    as [[i [Hi [Hr [Hfree Htaken]]]] | Hall].
  - exists i. auto.
  - exfalso.
    pose proof (candidates_NoDup base (S (length existing))) as Hnd.
    assert (incl (map (candidateAt base base 1) (seq 0 (S (length existing)))) existing)
      as Hincl.
    { intros x Hx. apply in_map_iff in Hx. destruct Hx as [j [Hj Hin]].
      apply in_seq in Hin. subst x. apply Hall. lia. }
    pose proof (NoDup_incl_length Hnd Hincl) as Hlen.
    rewrite length_map, length_seq in Hlen. lia.
Qed.

Lemma generatePropName_fresh (base : string) (existing : list string) :
  ~ In (generatePropName base existing) existing.
Proof. destruct (generatePropName_spec base existing) as [i [_ [H _]]]. exact H. Qed.

Lemma keys_app {A : Type} (o1 o2 : list (string * A)) :
  Obj.keys (o1 ++ o2)%list = (Obj.keys o1 ++ Obj.keys o2)%list.
Proof. apply map_app. Qed.

Lemma set_fresh {A : Type} (o : list (string * A)) (k : string) (v : A) :
  ~ In k (Obj.keys o) -> Obj.set o k v = (o ++ [(k, v)])%list.
Proof.
  induction o as [| [k' v'] o IH]; simpl; intros H; [reflexivity |].
  destruct (String.eqb_spec k' k) as [-> | Hne].
  - exfalso. apply H. now left.
  - rewrite IH; [reflexivity |]. intros Hin. apply H. now right.
Qed.

Lemma setAdd_fresh (l : list string) (x : string) :
  ~ In x l -> setAdd l x = (l ++ [x])%list.
Proof. unfold setAdd. intros H. apply mem_not_In in H. now rewrite H. Qed.

Lemma nameOne_invariant (templateNode : Node) (st st' : Naming) (d : Differing) :
  namingInvariant st ->
  nameOne templateNode st d = Some st' ->
  namingInvariant st'
  /\ Obj.values (propsSpecSoFar st')
     = (Obj.values (propsSpecSoFar st) ++ [specOfDiffering d])%list.
Proof.
  intros [Hex Hnd] H. unfold nameOne in H.
  destruct (basePropName templateNode (propCounter st) d) as [[base counter] |];
    [| discriminate].
  injection H as <-. unfold namingInvariant. simpl. rewrite Hex.
  pose proof (generatePropName_fresh base (Obj.keys (propsSpecSoFar st))) as Hfresh.
  rewrite setAdd_fresh by exact Hfresh.
  rewrite set_fresh by exact Hfresh.
  unfold Obj.values. rewrite keys_app, map_app. simpl. repeat split.
  apply NoDup_app; [exact Hnd | constructor; [intros [] | constructor] |].
  intros x Hx [<- | []]. exact (Hfresh Hx).
Qed.

Lemma nameAll_invariant (templateNode : Node) (ds : list Differing) :
  forall st st',
    namingInvariant st ->
    nameAll templateNode st ds = Some st' ->
    namingInvariant st'
    /\ Obj.values (propsSpecSoFar st')
       = (Obj.values (propsSpecSoFar st) ++ map specOfDiffering ds)%list.
Proof.
  induction ds as [| d ds IH]; simpl; intros st st' Hinv H.
  - injection H as <-. now rewrite app_nil_r.
  - destruct (nameOne templateNode st d) as [st1 |] eqn:Hone; [| discriminate].
    destruct (nameOne_invariant _ _ _ _ Hinv Hone) as [Hinv1 Hvals1].
    destruct (IH _ _ Hinv1 H) as [Hinv' Hvals'].
    split; [exact Hinv' |]. rewrite Hvals', Hvals1, <- app_assoc. reflexivity.
Qed.

Lemma generatePropName_suffix (base : string) (existing : list string) :
  suffixNaming base existing (generatePropName base existing).
Proof.
  destruct (generatePropName_spec base existing) as [i [Hr [Hfree Htaken]]].
  split; [exact Hfree |].
  destruct i as [| i]; [now left | right]. split.
  - exact (Htaken 0 ltac:(lia)).
  - exists (1 + i). split; [lia |]. split; [exact Hr |].
    intros j Hj. specialize (Htaken j ltac:(lia)).
    destruct j as [| j]; [lia |]. exact Htaken.
Qed.

Lemma get_In {A : Type} (o : list (string * A)) (k : string) (v : A) :
  NoDup (Obj.keys o) -> In (k, v) o -> Obj.get o k = Some v.
Proof.
  induction o as [| [k' v'] o IH]; simpl; intros Hnd Hin; [destruct Hin |].
  inversion Hnd as [| ? ? Hk Hrest]; subst.
  destruct Hin as [Heq | Hin].
  - injection Heq as -> ->. now rewrite String.eqb_refl.
  - destruct (String.eqb_spec k' k) as [-> | _]; [| auto].
    exfalso. apply Hk. apply in_map_iff. exists (k, v). auto.
Qed.

(** What the naming loop keeps: the names given are the names held before
    followed by those of the rows, and each row's path is stored under its
    name. *)
Lemma namingTrace_invariant (templateNode : Node) (ds : list Differing) :
  forall st st',
    namingInvariant st ->
    nameAll templateNode st ds = Some st' ->
    exists rows,
      namingTrace templateNode st ds = Some rows
      /\ existingPropNames st' = (existingPropNames st ++ map snd rows)%list
      /\ propsSpecSoFar st'
         = (propsSpecSoFar st ++ combine (map snd rows) (map specOfDiffering ds))%list
      /\ length rows = length ds
      /\ forall i base name,
           nth_error rows i = Some (base, name) ->
           suffixNaming base (existingPropNames st ++ map snd (firstn i rows))%list name.
Proof.
  induction ds as [| d ds IH]; intros st st' Hinv H.
  - simpl in H. injection H as <-. exists []. simpl. rewrite !app_nil_r.
    split; [reflexivity |]. split; [reflexivity |]. split; [reflexivity |].
    split; [reflexivity |]. intros [| i] b n Hi; discriminate Hi.
  - cbn [nameAll] in H.
    destruct (nameOne templateNode st d) as [st1 |] eqn:Hone; [| discriminate H].
    destruct (nameOne_invariant _ _ _ _ Hinv Hone) as [Hinv1 _].
    destruct (IH st1 st' Hinv1 H) as [rows [Htrace [Hnames [Hspec [Hlen Hrows]]]]].
    pose proof Hone as Hone'. unfold nameOne in Hone'.
    destruct (basePropName templateNode (propCounter st) d) as [[b0 counter] |] eqn:Hbase;
      [| discriminate Hone'].
    injection Hone' as <-.
    destruct Hinv as [Hex Hnd].
    pose proof (generatePropName_fresh b0 (existingPropNames st)) as Hfresh.
    cbn [existingPropNames propsSpecSoFar] in Hnames, Hspec, Hrows.
    rewrite (setAdd_fresh _ _ Hfresh) in Hnames, Hrows.
    rewrite set_fresh in Hspec by (rewrite <- Hex; exact Hfresh).
    exists ((b0, generatePropName b0 (existingPropNames st)) :: rows).
    split; [| split; [| split; [| split]]].
    + cbn [namingTrace]. rewrite Hbase, Hone, Htrace. reflexivity.
    + rewrite Hnames, <- app_assoc. reflexivity.
    + rewrite Hspec, <- app_assoc. reflexivity.
    + simpl. now rewrite Hlen.
    + intros [| i] b n Hi.
      * injection Hi as <- <-. simpl. rewrite app_nil_r. apply generatePropName_suffix.
      * simpl in Hi. specialize (Hrows i b n Hi).
        cbn [firstn map snd]. rewrite <- app_assoc in Hrows. exact Hrows.
Qed.

Lemma nth_error_combine {A B : Type} (l1 : list A) (l2 : list B) :
  forall i a b,
    nth_error l1 i = Some a -> nth_error l2 i = Some b -> In (a, b) (combine l1 l2).
Proof.
  revert l2. induction l1 as [| x l1 IH]; intros l2 [| i] a b H1 H2; try discriminate H1;
    destruct l2 as [| y l2]; try discriminate H2; simpl in *.
  - injection H1 as <-. injection H2 as <-. now left.
  - right. eapply IH; eauto.
Qed.

Lemma firstn_names_In (rows : list (string * string)) :
  forall i j base name,
    i < j -> nth_error rows i = Some (base, name) -> In name (map snd (firstn j rows)).
Proof.
  induction rows as [| r rows IH]; intros [| i] [| j] base name Hlt Hi;
    try discriminate Hi; try lia; simpl in *.
  - injection Hi as ->. now left.
  - right. apply (IH i j base name); [lia | exact Hi].
Qed.

Lemma firstn_names_incl (rows : list (string * string)) :
  forall i j, i <= j -> incl (map snd (firstn i rows)) (map snd (firstn j rows)).
Proof.
  induction rows as [| r rows IH]; intros [| i] [| j] Hle x Hx; simpl in *;
    try lia; try contradiction; auto.
  destruct Hx as [Hx | Hx]; [now left | right]. apply (IH i j); [lia | exact Hx].
Qed.

(** C9. The names of an inferred prop spec are pairwise distinct, and the
    naming loop decides them path by path in discovery order: each differing
    path gets its base name when no earlier path was given that name, else
    the base name followed by the least integer suffix 1, 2, 3, ... that is
    not yet taken; so of two paths with the same base name the later one is
    suffixed. Each path is stored in the spec under the name it was given,
    and the spec has no other name but the one of the children prop. *)
Theorem prop_names_unique (E : Env) (templateNode : Node) (instances : list Node)
    (spec : PropsSpec) :
  analyzeInstancesForProps E templateNode instances = Some spec ->
  NoDup (Obj.keys spec)
  /\ exists rows,
       namingTrace templateNode (mkNaming 0 [] [])
         (Obj.values (computeDifferingPaths E templateNode instances)) = Some rows
       /\ NoDup (map snd rows)
       /\ (forall k, In k (Obj.keys spec) ->
                     In k (map snd rows) \/ k = generatePropName "children" (map snd rows))
       /\ (forall i base name,
              nth_error rows i = Some (base, name) ->
              suffixNaming base (map snd (firstn i rows)) name
              /\ exists d,
                   nth_error (Obj.values (computeDifferingPaths E templateNode instances)) i
                   = Some d
                   /\ Obj.get spec name = Some (specOfDiffering d))
       /\ (forall i j base name1 name2,
              i < j ->
              nth_error rows i = Some (base, name1) ->
              nth_error rows j = Some (base, name2) ->
              exists k, 1 <= k /\ name2 = base ++ Js.ofNat k
                        /\ forall m, 1 <= m < k ->
                                     In (base ++ Js.ofNat m) (map snd (firstn j rows))).
Proof.
  intros H. unfold analyzeInstancesForProps in H.
  set (ds := Obj.values (computeDifferingPaths E templateNode instances)) in *.
  destruct (nameAll templateNode (mkNaming 0 [] []) ds) as [st |] eqn:Hall;
    [| discriminate H].
  assert (namingInvariant (mkNaming 0 [] [])) as Hinit
      by (split; [reflexivity | constructor]).
  destruct (nameAll_invariant _ _ _ _ Hinit Hall) as [[Hex Hnd] _].
  destruct (namingTrace_invariant _ _ _ _ Hinit Hall)
    as [rows [Htrace [Hnames [Hspec [Hlen Hrows]]]]].
  cbn [existingPropNames propsSpecSoFar app] in Hnames, Hspec, Hrows.
  pose proof (generatePropName_fresh "children" (existingPropNames st)) as Hfresh.
  assert (map snd rows = Obj.keys (propsSpecSoFar st)) as Hrowkeys by congruence.
  rewrite Hex in H, Hfresh.
  assert (NoDup (Obj.keys spec)
          /\ (forall k, In k (Obj.keys spec) ->
                        In k (map snd rows)
                        \/ k = generatePropName "children" (map snd rows))
          /\ (forall k v, In (k, v) (propsSpecSoFar st) -> In (k, v) spec)) as [Hkeys [Hin Hsub]].
  { rewrite Hrowkeys.
    destruct (_ && _) in H; injection H as <-.
    - rewrite set_fresh by exact Hfresh.
      rewrite keys_app. split; [| split].
      + apply NoDup_app; [exact Hnd | constructor; [intros [] | constructor] |].
        intros x Hx [<- | []]. exact (Hfresh Hx).
      + intros k Hk. apply in_app_or in Hk. destruct Hk as [Hk | [<- | []]]; auto.
      + intros k v Hkv. apply in_or_app. now left.
    - split; [exact Hnd |]. split; auto. }
  split; [exact Hkeys |]. exists rows.
  split; [exact Htrace |]. split; [now rewrite Hrowkeys |].
  split; [exact Hin |]. split.
  - intros i base name Hi. split; [exact (Hrows i base name Hi) |].
    assert (i < length ds) as Hlt.
    { rewrite <- Hlen. apply nth_error_Some. congruence. }
    destruct (nth_error ds i) as [d |] eqn:Hd; [| apply nth_error_None in Hd; lia].
    exists d. split; [reflexivity |].
    apply get_In; [exact Hkeys |]. apply Hsub. rewrite Hspec.
    apply (nth_error_combine _ _ i).
    + now rewrite nth_error_map, Hi.
    + now rewrite nth_error_map, Hd.
  - intros i j base name1 name2 Hlt Hi Hj.
    destruct (Hrows j base name2 Hj) as [Hfree2 Hform2].
    destruct (Hrows i base name1 Hi) as [_ Hform1].
    assert (In base (map snd (firstn j rows))) as Htaken.
    { destruct Hform1 as [-> | [Hearlier _]].
      - apply (firstn_names_In rows i j base base Hlt Hi).
      - apply (firstn_names_incl rows i j); [lia | exact Hearlier]. }
    destruct Hform2 as [-> | [_ [k [Hk [Hname Hbelow]]]]]; [contradiction |].
    exists k. auto.
Qed.

Lemma prop_names_unique_witness :
  let t := titledCard 10 "One" "Two" in
  let i := titledCard 20 "Three" "Four" in
  exists spec,
    analyzeInstancesForProps sampleEnv t [t; i] = Some spec
    /\ namingTrace t (mkNaming 0 [] [])
         (Obj.values (computeDifferingPaths sampleEnv t [t; i]))
       = Some [("title", "title"); ("title", "title1")]
    /\ NoDup (Obj.keys spec).
Proof.
  eexists. split; [vm_compute; reflexivity |]. split; [reflexivity |].
  refine (proj1 (prop_names_unique sampleEnv (titledCard 10 "One" "Two")
                   [titledCard 10 "One" "Two"; titledCard 20 "Three" "Four"] _ _)).
  vm_compute. reflexivity.
Defined.

(** ** Candidates *)

Lemma insertCandidate_In (c x : Candidate) (l : list Candidate) :
  In x (insertCandidate c l) -> x = c \/ In x l.
Proof.
  induction l as [| d r IH]; simpl.
  - intros [<- | []]. now left.
  - destruct (_ <=? _)%nat; simpl.
    + intros [<- | H]; auto.
    + intros [<- | H]; auto. destruct (IH H); auto.
Qed.

Lemma sortCandidates_In (x : Candidate) (l : list Candidate) :
  In x (sortCandidates l) -> In x l.
Proof.
  induction l as [| c r IH]; simpl; [auto |].
  intros H. destruct (insertCandidate_In _ _ _ H); auto.
Qed.

Lemma repetitionCandidates_type (E : Env) (reg : Registry)
    (groups : list (list (Node * list PathSeg))) (cs : list Candidate) :
  repetitionCandidates E reg groups = Some cs ->
  Forall (fun c => cand_type c = Repetition) cs.
Proof.
  revert cs. induction groups as [| g rest IH]; simpl; intros cs H.
  - injection H as <-. constructor.
  - destruct (repetitionCandidate E reg g) as [c1 |] eqn:Hg; [| discriminate].
    destruct (repetitionCandidates E reg rest) as [more |]; [| discriminate].
    injection H as <-. apply Forall_app. split; [| now apply IH].
    unfold repetitionCandidate in Hg.
    destruct (_ <=? _)%nat; [| injection Hg as <-; constructor].
    destruct g as [| [first p] g']; [discriminate |].
    destruct (isNodeAlreadyComponentPart first reg); [injection Hg as <-; constructor |].
    destruct (analyzeInstancesForProps E first _); [| discriminate].
    injection Hg as <-. repeat constructor.
Qed.

Lemma layoutCandidates_shape (E : Env) (bodyNode : Node) (reg : Registry) :
  Forall (fun c => cand_type c = Layout /\ propsSpec c = [] /\ instances c = [astNode c])
         (layoutCandidates E bodyNode reg).
Proof.
  unfold layoutCandidates. apply Forall_forall. intros c Hc.
  apply in_flat_map in Hc. destruct Hc as [identifier [_ Hc]].
  apply in_flat_map in Hc. destruct Hc as [node [_ Hc]].
  destruct (negb _); [| destruct Hc].
  destruct Hc as [<- | []]. repeat split.
Qed.

(** C10. Inference on an instance list that holds only the template gives
    the empty prop spec; a layout candidate is created with the empty spec and
    its node as only instance, and this holds of every layout candidate that
    reaches the extraction loop. *)
Theorem single_instance_has_no_props (E : Env) (templateNode bodyNode : Node)
    (reg : Registry) :
  analyzeInstancesForProps E templateNode [templateNode] = Some []
  /\ Forall (fun c => cand_type c = Layout /\ propsSpec c = [] /\ instances c = [astNode c])
            (layoutCandidates E bodyNode reg)
  /\ match componentCandidates E bodyNode reg with
     | Some candidates =>
         Forall (fun c => cand_type c = Layout ->
                          propsSpec c = [] /\ instances c = [astNode c]) candidates
     | None => True
     end.
Proof.
  split; [| split].
  - unfold analyzeInstancesForProps, computeDifferingPaths,
      instancesHaveDifferentChildStructure, sameNode.
    simpl. rewrite Nat.eqb_refl. simpl. rewrite String.eqb_refl. reflexivity.
  - apply layoutCandidates_shape.
  - unfold componentCandidates, componentCandidatesWith.
    destruct (repetitionCandidates E reg _) as [repetition |] eqn:Hrep; [| exact I].
    apply Forall_forall. intros c Hc Hlayout.
    apply sortCandidates_In, in_app_or in Hc. destruct Hc as [Hc | Hc].
    + pose proof (layoutCandidates_shape E bodyNode reg) as Hall.
      rewrite Forall_forall in Hall. destruct (Hall c Hc) as [_ H]. exact H.
    + pose proof (repetitionCandidates_type _ _ _ _ Hrep) as Hall.
      rewrite Forall_forall in Hall. specialize (Hall c Hc). congruence.
Qed.

(** ** The already-claimed check during detection *)

Lemma findRepetitiveWith_ext (eligible1 eligible2 : Node -> bool) (E : Env) :
  (forall n, eligible1 n = eligible2 n) ->
  forall node currentPath st,
    findRepetitiveWith eligible1 E node currentPath st
    = findRepetitiveWith eligible2 E node currentPath st.
Proof.
  intros Hext node.
  induction node as [id type name attribs children data IH] using Node_forall_ind.
  intros currentPath st. simpl.
  destruct (existsb (Nat.eqb id) (processedForRepetition st)); [reflexivity |].
  rewrite Hext. f_equal.
  match goal with
  | |- _ children 0 ?s0 = _ children 0 ?s0 => generalize s0 as s; generalize 0 as i
  end.
  induction IH as [| child rest Hchild _ IHrest]; intros i s; [reflexivity |].
  simpl. rewrite Hchild. apply IHrest.
Qed.

(** C7. With the empty registry a tree starts with, the already-claimed
    check excludes no node, so the detector gives the candidate list of the
    detector without the check; [processBody] runs detection on that empty
    registry, before any instance of the tree is registered. *)
Theorem claimed_guard_is_noop (E : Env) (bodyNode : Node) (g : GlobalState) :
  (forall node, isNodeAlreadyComponentPart node [] = false)
  /\ (forall node,
         isNodeEligibleForComponentization node [] = isNodeEligibleWithoutClaimCheck node)
  /\ componentCandidates E bodyNode [] = componentCandidatesUnguarded E bodyNode []
  /\ processBody E bodyNode g
     = match componentCandidatesUnguarded E bodyNode [] with
       | None => None
       | Some candidates =>
           let ex := fold_left (extractCandidate E) candidates (mkExtraction [] g [] []) in
           let (jsx, effects) := renderPage E bodyNode (ex_registry ex) in
           Some (mkPageResult (ex_defs ex) jsx (ex_registry ex) (ex_global ex)
                   (ex_effects ex ++ effects)%list)
       end.
Proof.
  assert (forall node,
             isNodeEligibleForComponentization node [] = isNodeEligibleWithoutClaimCheck node)
    as Helig by reflexivity.
  assert (componentCandidates E bodyNode [] = componentCandidatesUnguarded E bodyNode [])
    as Hsame.
  { unfold componentCandidates, componentCandidatesUnguarded, componentCandidatesWith,
      findRepetitive.
    now rewrite (findRepetitiveWith_ext _ _ E Helig). }
  repeat split; auto.
  unfold processBody, identifyComponents. rewrite Hsame.
  destruct (componentCandidatesUnguarded E bodyNode []); reflexivity.
Qed.

(** ** Rendering registered nodes and unhandled kinds *)

Arguments bind : simpl never.

Lemma fst_bind {A B : Type} (m : Gen A) (k : A -> Gen B) :
  fst (bind m k) = fst (k (fst m)).
Proof. unfold bind. destruct (k (fst m)). reflexivity. Qed.

Lemma snd_bind {A B : Type} (m : Gen A) (k : A -> Gen B) :
  snd (bind m k) = (snd m ++ snd (k (fst m)))%list.
Proof. unfold bind. destruct (k (fst m)). reflexivity. Qed.

(** C5 (amended). A node present in the registry is rendered as a reference
    to its component whenever it is not the template root of the definition
    being rendered: in the body of a later definition with another template
    and in the page body. *)
Theorem registered_node_renders_as_reference (E : Env) (node : Node) (reg : Registry)
    (info : CompInfo) (depth : nat) (isDef : bool) (spec : PropsSpec)
    (nodePath : list PathSeg) (template : option Node) :
  Reg.get reg node = Some info ->
  match template with Some t => sameNode node t = false | None => True end ->
  exists propsString childrenJsx,
    fst (astNodeToJsx E node depth isDef spec nodePath reg template)
    = componentReference (info_name info) propsString childrenJsx.
Proof.
  intros Hreg Htemplate.
  destruct node as [id type name attribs children data].
  cbn [astNodeToJsx].
  assert ((if match template with
              | Some t => sameNode (mkNode id type name attribs children data) t
              | None => false
              end
           then None
           else Reg.get reg (mkNode id type name attribs children data)) = Some info) as ->.
  { destruct template as [t |]; [rewrite Htemplate |]; exact Hreg. }
  rewrite fst_bind, fst_bind. simpl. eauto.
Qed.

Lemma registered_node_renders_as_reference_witness :
  let node := twoLayoutsNode in
  let info := mkCompInfo "NavbarLayout" node [] in
  Reg.get [(node, info)] node = Some info
  /\ exists propsString childrenJsx,
      fst (astNodeToJsx sampleEnv node 0 false [] [] [(node, info)] None)
      = componentReference "NavbarLayout" propsString childrenJsx.
Proof.
  split; [reflexivity |].
  exact (registered_node_renders_as_reference sampleEnv twoLayoutsNode
           [(twoLayoutsNode, mkCompInfo "NavbarLayout" twoLayoutsNode [])]
           (mkCompInfo "NavbarLayout" twoLayoutsNode []) 0 false [] [] None
           eq_refl I).
Defined.

Lemma reference_starts_with_name (name propsString childrenJsx : string) :
  exists rest, componentReference name propsString childrenJsx = "<" ++ name ++ rest.
Proof.
  unfold componentReference. destruct (Js.nonEmpty _); eexists; reflexivity.
Qed.

(** C5 (as stated) fails. An element carrying two layout identifiers gives
    two layout candidates with the same node. After the first is extracted
    the node is in the registry, and the body of the second, whose template
    root it is, inlines its markup again. *)
Lemma registered_template_is_inlined_again :
  exists bodyNode node,
    forall md5 serialize path_join,
      let E := readmeEnv md5 serialize path_join in
      exists first second,
        componentCandidates E bodyNode [] = Some [first; second]
        /\ astNode second = node
        /\ let st := extractCandidate E (mkExtraction [] emptyGlobal [] []) first in
           Reg.has (ex_registry st) node = true
           /\ fst (componentBody E (ex_registry st) second)
              = "<div className={" ++ Js.quote ++ "navbar container" ++ Js.quote
                ++ "}><p>x</p></div>"
           /\ forall info propsString childrenJsx,
               Reg.get (ex_registry st) node = Some info ->
               fst (componentBody E (ex_registry st) second)
               <> componentReference (info_name info) propsString childrenJsx.
Proof.
  exists twoLayoutsBody, twoLayoutsNode. intros md5 serialize path_join E.
  exists (mkCandidate "NavbarLayout" twoLayoutsNode Layout [] [twoLayoutsNode]),
         (mkCandidate "ContainerLayout" twoLayoutsNode Layout [] [twoLayoutsNode]).
  split; [reflexivity |]. split; [reflexivity |].
  split; [reflexivity |]. split; [reflexivity |].
  intros info propsString childrenJsx Hinfo.
  injection Hinfo as <-.
  destruct (reference_starts_with_name "NavbarLayout" propsString childrenJsx)
    as [rest Hrest].
  simpl info_name. rewrite Hrest. intros H. vm_compute in H. discriminate H.
Qed.

(** The default case: a node whose kind is none of text, comment, directive,
    script, style and tag, and that is therefore not in the registry (which
    holds elements only), renders as the empty text with one warning. *)
Lemma unhandled_kind_renders_empty (E : Env) (node : Node) (reg : Registry)
    (depth : nat) (isDef : bool) (spec : PropsSpec) (nodePath : list PathSeg)
    (template : option Node) :
  isHandledType (node_type node) = false ->
  Reg.get reg node = None ->
  astNodeToJsx E node depth isDef spec nodePath reg template
  = ("", [ConsoleWarn ("Unhandled AST node type: " ++ node_type node
                       ++ " at path " ++ pathStr nodePath)]).
Proof.
  intros Hkind Hreg.
  destruct node as [id type name attribs children data].
  cbn [astNodeToJsx]. simpl in Hkind.
  assert ((if match template with
              | Some t => sameNode (mkNode id type name attribs children data) t
              | None => false
              end
           then None
           else Reg.get reg (mkNode id type name attribs children data)) = None) as ->.
  { rewrite Hreg. now destruct (match template with Some _ => _ | None => _ end). }
  unfold isHandledType in Hkind.
  repeat (apply orb_false_elim in Hkind; destruct Hkind as [Hkind ?]).
  repeat match goal with H : (_ =? _) = false |- _ => rewrite H; clear H end.
  reflexivity.
Qed.

Lemma unhandled_cdata_example :
  let node := mkNode 7 "cdata" "" [] [] "" in
  astNodeToJsx sampleEnv node 0 false [] [SegChildren; SegIndex 2] [] None
  = ("", [ConsoleWarn "Unhandled AST node type: cdata at path children.2"]).
Proof.
  exact (unhandled_kind_renders_empty sampleEnv (mkNode 7 "cdata" "" [] [] "") [] 0 false []
           [SegChildren; SegIndex 2] None eq_refl eq_refl).
Defined.

(** ** Rendering on a bounded call stack *)

Lemma mapGenOnStack_returns {A B : Type} (f : A -> option (Gen B)) (g : A -> Gen B)
    (l : list A) :
  Forall (fun a => f a = Some (g a)) l -> mapGenOnStack f l = Some (mapGen g l).
Proof. induction 1 as [| a r Ha _ IH]; simpl; [reflexivity | now rewrite Ha, IH]. Qed.

Lemma mapiGenOnStack_returns {A B : Type} (f : A -> nat -> option (Gen B))
    (g : A -> nat -> Gen B) (l : list A) :
  Forall (fun a => forall i, f a i = Some (g a i)) l ->
  forall i, mapiGenOnStack f l i = Some (mapiGen g l i).
Proof.
  induction 1 as [| a r Ha _ IH]; simpl; intros i; [reflexivity | now rewrite Ha, IH].
Qed.

Lemma mapGenOnStack_result {A B : Type} (f : A -> option (Gen B)) (g : A -> Gen B)
    (l : list A) :
  Forall (fun a => forall m, f a = Some m -> m = g a) l ->
  forall ms, mapGenOnStack f l = Some ms -> ms = mapGen g l.
Proof.
  induction 1 as [| a r Ha _ IH]; simpl; intros ms H.
  - now injection H as <-.
  - destruct (f a) as [m |]; [| discriminate H].
    destruct (mapGenOnStack f r) as [rest |]; [| discriminate H].
    injection H as <-. now rewrite (Ha m eq_refl), (IH rest eq_refl).
Qed.

Lemma mapiGenOnStack_result {A B : Type} (f : A -> nat -> option (Gen B))
    (g : A -> nat -> Gen B) (l : list A) :
  Forall (fun a => forall i m, f a i = Some m -> m = g a i) l ->
  forall i ms, mapiGenOnStack f l i = Some ms -> ms = mapiGen g l i.
Proof.
  induction 1 as [| a r Ha _ IH]; simpl; intros i ms H.
  - now injection H as <-.
  - destruct (f a i) as [m |] eqn:Hm; [| discriminate H].
    destruct (mapiGenOnStack f r (S i)) as [rest |] eqn:Hrest; [| discriminate H].
    injection H as <-. now rewrite (Ha i m Hm), (IH (S i) rest Hrest).
Qed.

Lemma height_children (children : list Node) (m : nat) :
  fold_right (fun c k => Nat.max (height c) k) 0 children <= m ->
  Forall (fun c => height c <= m) children.
Proof.
  induction children as [| c r IH]; simpl; intros H; constructor; [lia |].
  apply IH. lia.
Qed.

(** A call that returns on the stack returns what [astNodeToJsx] gives. *)
Lemma astNodeToJsxOnStack_result (E : Env) (node : Node) :
  forall stack depth isDef spec nodePath reg template r,
    astNodeToJsxOnStack E stack node depth isDef spec nodePath reg template = Some r ->
    r = astNodeToJsx E node depth isDef spec nodePath reg template.
Proof.
  induction node as [id type name attribs children data IH] using Node_forall_ind.
  intros stack depth isDef spec nodePath reg template r.
  destruct stack as [| frames]; [discriminate |].
  cbn [astNodeToJsxOnStack astNodeToJsx].
  match goal with
  | |- context [if ?c then None else Reg.get ?r ?n] =>
      destruct (if c then None else Reg.get r n) as [compInfo |]
  end.
  - destruct (Obj.has _ _).
    + destruct (mapGenOnStack _ children) as [rendered |] eqn:Hmap; [| discriminate].
      intros H. injection H as <-.
      apply (mapGenOnStack_result _
               (fun child => astNodeToJsx E child (depth + 1) false [] [] reg template))
        in Hmap; [now subst rendered |].
      eapply Forall_impl; [| exact IH]. intros child Hc m Hm. eapply Hc. exact Hm.
    + intros H. injection H as <-. reflexivity.
  - destruct (type =? "text"); [intros H; injection H as <-; reflexivity |].
    destruct (type =? "comment"); [intros H; injection H as <-; reflexivity |].
    destruct (_ || _); [intros H; injection H as <-; reflexivity |].
    destruct (type =? "tag"); [| intros H; injection H as <-; reflexivity].
    destruct (if isDef then _ else None); [intros H; injection H as <-; reflexivity |].
    destruct (Js.toLowerCase name =? "svg"); [intros H; injection H as <-; reflexivity |].
    destruct (mem _ _); [intros H; injection H as <-; reflexivity |].
    destruct (_ && _); [intros H; injection H as <-; reflexivity |].
    destruct (mapiGenOnStack _ children 0) as [rendered |] eqn:Hmap; [| discriminate].
    intros H. injection H as <-.
    apply (mapiGenOnStack_result _
             (fun child i =>
                astNodeToJsx E child (depth + 1) isDef spec
                  (nodePath ++ [SegChildren; SegIndex i])%list reg template))
      in Hmap; [now subst rendered |].
    eapply Forall_impl; [| exact IH]. intros child Hc i m Hm. eapply Hc. exact Hm.
Qed.

(** A stack as deep as the tree is enough. *)
Lemma astNodeToJsxOnStack_returns (E : Env) (node : Node) :
  forall stack depth isDef spec nodePath reg template,
    height node <= stack ->
    astNodeToJsxOnStack E stack node depth isDef spec nodePath reg template
    = Some (astNodeToJsx E node depth isDef spec nodePath reg template).
Proof.
  induction node as [id type name attribs children data IH] using Node_forall_ind.
  intros stack depth isDef spec nodePath reg template Hheight.
  destruct stack as [| frames]; [simpl in Hheight; lia |].
  cbn [height] in Hheight. apply le_S_n in Hheight.
  apply height_children in Hheight.
  assert (Forall (fun child => forall depth isDef spec nodePath,
                      astNodeToJsxOnStack E frames child depth isDef spec nodePath reg template
                      = Some (astNodeToJsx E child depth isDef spec nodePath reg template))
                 children) as Hall.
  { clear - IH Hheight. induction IH as [| c r Hc _ IHr]; [constructor |].
    inversion Hheight; subst. constructor; auto. }
  cbn [astNodeToJsxOnStack astNodeToJsx].
  rewrite (mapGenOnStack_returns _
             (fun child => astNodeToJsx E child (depth + 1) false [] [] reg template)
             children)
    by (eapply Forall_impl; [| exact Hall]; intros child Hc; apply Hc).
  rewrite (mapiGenOnStack_returns _
             (fun child i =>
                astNodeToJsx E child (depth + 1) isDef spec
                  (nodePath ++ [SegChildren; SegIndex i])%list reg template)
             children)
    by (eapply Forall_impl; [| exact Hall]; intros child Hc i; apply Hc).
  match goal with
  | |- context [if ?c then None else Reg.get ?r ?n] =>
      destruct (if c then None else Reg.get r n) as [compInfo |]
  end.
  - destruct (Obj.has _ _); reflexivity.
  - destruct (type =? "text"); [reflexivity |].
    destruct (type =? "comment"); [reflexivity |].
    destruct (_ || _); [reflexivity |].
    destruct (type =? "tag"); [| reflexivity].
    destruct (if isDef then _ else None); [reflexivity |].
    destruct (Js.toLowerCase name =? "svg"); [reflexivity |].
    destruct (mem _ _); [reflexivity |].
    destruct (_ && _); reflexivity.
Qed.

Lemma nestedDivs_overflow (stack : nat) :
  forall depth nodePath,
    astNodeToJsxOnStack sampleEnv stack (nestedDivs stack) depth false [] nodePath [] None
    = None.
Proof.
  induction stack as [| frames IH]; intros depth nodePath; [reflexivity |].
  cbn [nestedDivs]. unfold shapeEl. cbn [astNodeToJsxOnStack].
  cbn [Reg.get]. simpl (_ =? _). cbv iota. simpl (mem _ _). cbv iota.
  cbn [mapiGenOnStack]. unfold shapeEl in IH. rewrite IH. reflexivity.
Qed.

(** C8 (amended). The renderer handles every node kind, and it returns
    whenever the call stack holds the nesting of the tree: a call on a stack
    that holds as many activations as the tree is high returns the text and
    the effects that [astNodeToJsx] gives, for every node and every argument;
    in particular a node whose kind is none of the handled kinds, and that is
    therefore not registered, renders as the empty text with one warning. *)
Theorem rendering_returns_within_stack (E : Env) (stack : nat) (node : Node)
    (reg : Registry) (depth : nat) (isDef : bool) (spec : PropsSpec)
    (nodePath : list PathSeg) (template : option Node) :
  height node <= stack ->
  astNodeToJsxOnStack E stack node depth isDef spec nodePath reg template
  = Some (astNodeToJsx E node depth isDef spec nodePath reg template)
  /\ (isHandledType (node_type node) = false -> Reg.get reg node = None ->
      astNodeToJsxOnStack E stack node depth isDef spec nodePath reg template
      = Some ("", [ConsoleWarn ("Unhandled AST node type: " ++ node_type node
                                ++ " at path " ++ pathStr nodePath)])).
Proof.
  intros Hheight.
  pose proof (astNodeToJsxOnStack_returns E node stack depth isDef spec nodePath reg
                template Hheight) as Hreturns.
  split; [exact Hreturns |].
  intros Hkind Hreg. rewrite Hreturns. f_equal.
  now apply unhandled_kind_renders_empty.
Qed.

Lemma rendering_returns_within_stack_witness :
  let node := mkNode 7 "cdata" "" [] [shapeText 8 "x"] "" in
  height node <= 2
  /\ astNodeToJsxOnStack sampleEnv 2 node 0 false [] [SegChildren; SegIndex 2] [] None
     = Some ("", [ConsoleWarn "Unhandled AST node type: cdata at path children.2"]).
Proof.
  split; [simpl; lia |].
  apply (rendering_returns_within_stack sampleEnv 2
           (mkNode 7 "cdata" "" [] [shapeText 8 "x"] "") [] 0 false []
           [SegChildren; SegIndex 2] None);
    [simpl; lia | reflexivity | reflexivity].
Defined.

(** C8 (as stated) fails: rendering does not return for every node. Whatever
    the call stack holds, the recursion on a tree nested that deep runs out
    of it and throws; nothing in the source catches the error. *)
Lemma deep_tree_overflows_stack :
  (forall stack,
      astNodeToJsxOnStack sampleEnv stack (nestedDivs stack) 0 false [] [] [] None = None)
  /\ ~ (exists stack, forall node,
          astNodeToJsxOnStack sampleEnv stack node 0 false [] [] [] None <> None).
Proof.
  split.
  - intros stack. apply nestedDivs_overflow.
  - intros [stack Hall].
    exact (Hall (nestedDivs stack) (nestedDivs_overflow stack 0 [])).
Qed.

(** ** Asset writes *)

Lemma Forall_bind {A B : Type} (P : Effect -> Prop) (m : Gen A) (k : A -> Gen B) :
  Forall P (snd m) -> Forall P (snd (k (fst m))) -> Forall P (snd (bind m k)).
Proof. intros Hm Hk. rewrite snd_bind. apply Forall_app. now split. Qed.

Lemma mapGen_effects {A B : Type} (P : Effect -> Prop) (f : A -> Gen B) (l : list A) :
  Forall (fun a => Forall P (snd (f a))) l -> Forall P (snd (mapGen f l)).
Proof.
  induction 1 as [| a r Ha _ IH]; simpl; [constructor |].
  repeat (apply Forall_app; split); auto.
Qed.

Lemma mapiGen_effects {A B : Type} (P : Effect -> Prop) (f : A -> nat -> Gen B)
    (l : list A) :
  Forall (fun a => forall i, Forall P (snd (f a i))) l ->
  forall i, Forall P (snd (mapiGen f l i)).
Proof.
  induction 1 as [| a r Ha _ IH]; simpl; intros i; [constructor |].
  repeat (apply Forall_app; split); auto.
Qed.

Lemma writeSvg_effects (E : Env) (svgString : string) :
  Forall (contentAddressed E) (snd (writeSvg E svgString)).
Proof. repeat constructor. Qed.

Lemma instancePropsOf_effects (E : Env) (node : Node) (propsSpec : PropsSpec) :
  forall acc, Forall (contentAddressed E) (snd (instancePropsOf E node propsSpec acc)).
Proof.
  induction propsSpec as [| [propName spec] rest IH]; intros acc; simpl; [constructor |].
  apply Forall_bind; [| apply IH].
  unfold valueToPass. destruct (spec_type spec); try constructor.
  destruct (truthy _); [| constructor].
  apply Forall_bind; [apply writeSvg_effects | constructor].
Qed.

Lemma astNodeToJsx_effects (E : Env) (node : Node) :
  forall depth isDef spec nodePath reg template,
    Forall (contentAddressed E)
           (snd (astNodeToJsx E node depth isDef spec nodePath reg template)).
Proof.
  induction node as [id type name attribs children data IH] using Node_forall_ind.
  intros depth isDef spec nodePath reg template. cbn [astNodeToJsx].
  match goal with
  | |- context [if ?c then None else Reg.get ?r ?n] =>
      destruct (if c then None else Reg.get r n) as [compInfo |]
  end.
  - apply Forall_bind; [apply instancePropsOf_effects |].
    apply Forall_bind; [| constructor].
    destruct (Obj.has _ _); [| constructor].
    apply Forall_bind; [| constructor].
    apply mapGen_effects. eapply Forall_impl; [| exact IH]. intros child H. apply H.
  - destruct (type =? "text"); [constructor |].
    destruct (type =? "comment"); [constructor |].
    destruct (_ || _); [constructor |].
    destruct (type =? "tag"); [| repeat constructor].
    destruct (if isDef then _ else None); [constructor |].
    destruct (Js.toLowerCase name =? "svg").
    + unfold staticSvgToJsx.
      apply Forall_bind; [apply writeSvg_effects | constructor].
    + destruct (mem _ _); [constructor |].
      apply Forall_bind; [| constructor].
      destruct (_ && _); [constructor |].
      apply Forall_bind; [| constructor].
      apply mapiGen_effects. eapply Forall_impl; [| exact IH].
      intros child H i. apply H.
Qed.

Lemma extraction_effects (E : Env) (candidates : list Candidate) :
  forall st,
    Forall (contentAddressed E) (ex_effects st) ->
    Forall (contentAddressed E) (ex_effects (fold_left (extractCandidate E) candidates st)).
Proof.
  induction candidates as [| c rest IH]; simpl; intros st Hst; [exact Hst |].
  apply IH. unfold extractCandidate.
  pose proof (astNodeToJsx_effects E (astNode c) 0 true (propsSpec c) [] (ex_registry st)
                (Some (astNode c))) as Hbody.
  unfold componentBody. destruct (astNodeToJsx _ _ _ _ _ _ _ _) as [body effects].
  simpl. apply Forall_app. now split.
Qed.

Lemma processBody_effects (E : Env) (bodyNode : Node) (g : GlobalState) (page : PageResult) :
  processBody E bodyNode g = Some page ->
  Forall (contentAddressed E) (page_effects page).
Proof.
  unfold processBody, identifyComponents.
  destruct (componentCandidates E bodyNode []) as [candidates |]; [| discriminate].
  pose proof (extraction_effects E candidates (mkExtraction [] g [] []) (Forall_nil _)) as Hex.
  set (ex := fold_left _ _ _) in *.
  assert (Forall (contentAddressed E) (snd (renderPage E bodyNode (ex_registry ex)))) as Hpage.
  { unfold renderPage. apply Forall_bind; [| constructor].
    apply mapGen_effects. apply Forall_forall. intros child _.
    apply astNodeToJsx_effects. }
  destruct (renderPage E bodyNode (ex_registry ex)) as [jsx effects].
  intros H. injection H as <-. simpl. apply Forall_app. now split.
Qed.

Lemma runBatch_effects (E : Env) (asts : list Node) :
  forall g g' effects,
    runBatch E asts g = Some (g', effects) -> Forall (contentAddressed E) effects.
Proof.
  induction asts as [| ast rest IH]; simpl; intros g g' effects H.
  - injection H as <- <-. constructor.
  - destruct (findBody ast) as [bodyNode |]; [| eauto].
    destruct (processBody E bodyNode g) as [page |] eqn:Hpage; [| discriminate].
    destruct (runBatch E rest (page_global page)) as [[g1 later] |] eqn:Hrest;
      [| discriminate].
    injection H as <- <-. apply Forall_app. split.
    + eapply processBody_effects; eauto.
    + eapply IH; eauto.
Qed.

(** C1 (amended). Every asset write of a batch run goes to the file named
    by the digest of the content written, so the writes for two icon subtrees
    with identical serialized markup are the same write to the same file.
    There is no deduplication set: a write is issued at each rendering of an
    icon. *)
Theorem asset_writes_content_addressed (E : Env) (asts : list Node) (g : GlobalState) :
  match runBatch E asts g with
  | Some (_, effects) =>
      Forall (fun w => fst w = path_join E (SVGS_OUTPUT_DIR E) (svgFilenameOf E (snd w)))
             (assetWrites effects)
      /\ forall w1 w2, In w1 (assetWrites effects) -> In w2 (assetWrites effects) ->
                       snd w1 = snd w2 -> w1 = w2
  | None => True
  end.
Proof.
  destruct (runBatch E asts g) as [[g' effects] |] eqn:Hrun; [| exact I].
  pose proof (runBatch_effects _ _ _ _ _ Hrun) as Hall.
  assert (Forall (fun w => fst w = path_join E (SVGS_OUTPUT_DIR E) (svgFilenameOf E (snd w)))
                 (assetWrites effects)) as Hwrites.
  { clear Hrun. induction Hall as [| e r He _ IH]; simpl; [constructor |].
    destruct e as [diskPath content | message]; simpl; [| exact IH].
    constructor; [exact He | exact IH]. }
  split; [exact Hwrites |].
  rewrite Forall_forall in Hwrites.
  intros [p1 c1] [p2 c2] H1 H2 Hc. simpl in Hc. subst c2.
  pose proof (Hwrites _ H1) as E1. pose proof (Hwrites _ H2) as E2.
  simpl in E1, E2. congruence.
Qed.

(** C1 (as stated) fails: a page with the same icon twice (two nodes that
    differ in identity only, so that they serialize to the same markup) makes
    the generator write the same content to the same file twice. *)
Lemma identical_icons_written_twice :
  exists asts icon1 icon2,
    forall md5 serialize path_join,
      let E := readmeEnv md5 serialize path_join in
      serialize (VNode icon1) = serialize (VNode icon2) ->
      exists w,
        option_map (fun r => assetWrites (snd r)) (runBatch E asts emptyGlobal)
        = Some [w; w]
        /\ snd w = serialize (VNode icon1).
Proof.
  exists [twoIconsAst], (svgIcon 3), (svgIcon 5).
  intros md5 serialize path_join E Hsame.
  exists (path_join "react_output/public/svgs"
            ("icon-" ++ md5 (serialize (VNode (svgIcon 3))) ++ ".svg"),
          serialize (VNode (svgIcon 3))).
  split; [| reflexivity].
  assert (option_map (fun r => assetWrites (snd r)) (runBatch E [twoIconsAst] emptyGlobal)
          = Some [(path_join "react_output/public/svgs"
                     ("icon-" ++ md5 (serialize (VNode (svgIcon 3))) ++ ".svg"),
                   serialize (VNode (svgIcon 3)));
                  (path_join "react_output/public/svgs"
                     ("icon-" ++ md5 (serialize (VNode (svgIcon 5))) ++ ".svg"),
                   serialize (VNode (svgIcon 5)))]) as Hrun by reflexivity.
  rewrite Hrun, <- Hsame. reflexivity.
Qed.

(** ** Call-site props *)

Lemma keys_get {A : Type} (o : list (string * A)) (k : string) :
  In k (Obj.keys o) -> exists v, Obj.get o k = Some v.
Proof.
  induction o as [| [k' v'] o IH]; simpl; [intros [] |].
  intros [-> | H].
  - rewrite String.eqb_refl. eauto.
  - destruct (k' =? k); eauto.
Qed.

Lemma get_set_same {A : Type} (o : list (string * A)) (k : string) (v : A) :
  Obj.get (Obj.set o k v) k = Some v.
Proof.
  induction o as [| [k' v'] o IH]; simpl.
  - now rewrite String.eqb_refl.
  - destruct (k' =? k) eqn:Hk; simpl.
    + now rewrite String.eqb_refl.
    + now rewrite Hk.
Qed.

Lemma get_set_other {A : Type} (o : list (string * A)) (k k' : string) (v : A) :
  k <> k' -> Obj.get (Obj.set o k v) k' = Obj.get o k'.
Proof.
  intros Hne. induction o as [| [k0 v0] o IH]; simpl.
  - destruct (String.eqb_spec k k'); congruence.
  - destruct (String.eqb_spec k0 k) as [-> | Hk]; simpl.
    + destruct (String.eqb_spec k k'); congruence.
    + destruct (k0 =? k'); auto.
Qed.

Lemma walk_app (v : JsVal) (p1 p2 : list PathSeg) :
  walk v (p1 ++ p2) = walk (walk v p1) p2.
Proof. unfold walk. apply fold_left_app. Qed.

Lemma walk_child (node child : Node) (i : nat) (rel : list PathSeg) :
  nth_error (node_children node) i = Some child ->
  walk (VNode node) ([SegChildren; SegIndex i] ++ rel) = walk (VNode child) rel.
Proof. intros H. rewrite walk_app. unfold walk at 2. simpl. now rewrite H. Qed.

Lemma designates_child (E : Env) (node child : Node) (i : nat) (rel : list PathSeg)
    (e : Emission) :
  nth_error (node_children node) i = Some child ->
  designates E child rel e ->
  designates E node ([SegChildren; SegIndex i] ++ rel) e.
Proof.
  intros Hnth. unfold designates.
  rewrite (walk_child _ _ _ _ Hnth). auto.
Qed.

(** Walking an instance along a path that [collectPaths] read from it reaches
    the value that was read. *)
Lemma collectPaths_designates (E : Env) (node : Node) :
  forall currentPath e,
    In e (collectPaths E node currentPath) ->
    exists rel, em_path e = (currentPath ++ rel)%list /\ designates E node rel e.
Proof.
  induction node as [id type name attribs children data IH] using Node_forall_ind.
  intros currentPath e. cbn [collectPaths].
  set (node := mkNode id type name attribs children data).
  destruct (isSvgTag node).
  - intros [<- | []]. exists []. split; [now rewrite app_nil_r |].
    unfold designates. simpl. eauto.
  - intros Hin. apply in_app_or in Hin. destruct Hin as [Hin | Hin].
    + apply in_map_iff in Hin. destruct Hin as [attrKey [<- Hkey]].
      exists [SegAttribs; SegKey attrKey]. split; [reflexivity |].
      unfold designates, walk, attrValue. simpl.
      destruct (keys_get _ _ Hkey) as [v ->]. reflexivity.
    + assert (forall cs i,
                 (forall j c, nth_error cs j = Some c ->
                              nth_error children (i + j) = Some c) ->
                 Forall (fun c => forall currentPath e,
                             In e (collectPaths E c currentPath) ->
                             exists rel, em_path e = (currentPath ++ rel)%list
                                         /\ designates E c rel e) cs ->
                 In e ((fix eachChild (cs : list Node) (i : nat) : list Emission :=
                          match cs with
                          | [] => []
                          | child :: rest =>
                              ((if (node_type child =? "text")
                                   && Js.nonEmpty (Js.trim (node_data child))
                                then [mkEmission (currentPath ++ [SegChildren; SegIndex i])
                                        (Js.trim (node_data child)) TTextChild]
                                else if node_type child =? "tag"
                                     then collectPaths E child
                                            (currentPath ++ [SegChildren; SegIndex i])
                                     else [])
                               ++ eachChild rest (S i))%list
                          end) cs i) ->
                 exists rel, em_path e = (currentPath ++ rel)%list
                             /\ designates E node rel e) as Hloop.
      { clear Hin. induction cs as [| child rest IHrest]; intros i Hnth Hall Hin;
          [destruct Hin |].
        apply in_app_or in Hin. destruct Hin as [Hin | Hin].
        - assert (nth_error (node_children node) i = Some child) as Hchild.
          { specialize (Hnth 0 child eq_refl). now rewrite Nat.add_0_r in Hnth. }
          destruct (_ && _).
          + destruct Hin as [<- | []]. exists [SegChildren; SegIndex i].
            split; [reflexivity |].
            rewrite <- (app_nil_r [SegChildren; SegIndex i]).
            apply (designates_child E node child i [] _ Hchild).
            unfold designates, walk. simpl. eauto.
          + destruct (node_type child =? "tag"); [| destruct Hin].
            inversion Hall as [| ? ? Hc _]; subst.
            destruct (Hc _ _ Hin) as [rel [Hpath Hd]].
            exists ([SegChildren; SegIndex i] ++ rel)%list. split.
            * now rewrite Hpath, <- app_assoc.
            * now apply designates_child with (child := child).
        - apply (IHrest (S i)); auto.
          + intros j c Hj. specialize (Hnth (S j) c Hj).
            now replace (S i + j) with (i + S j) by lia.
          + now inversion Hall. }
      apply (Hloop children 0); auto.
Qed.






Lemma isElementPath_app (p q : list PathSeg) :
  isElementPath p = true -> isElementPath (p ++ q) = isElementPath q.
Proof.
  assert (forall n (p : list PathSeg), length p <= n -> isElementPath p = true ->
            isElementPath (p ++ q) = isElementPath q) as H.
  { induction n as [| n IH]; intros p0 Hlen Hp.
    - destruct p0; [reflexivity | simpl in Hlen; lia].
    - destruct p0 as [| s p0]; [reflexivity |].
      destruct s; try discriminate Hp.
      destruct p0 as [| s p0]; [discriminate Hp |].
      destruct s; try discriminate Hp.
      simpl. apply IH; [simpl in Hlen; lia | exact Hp]. }
  intros Hp. apply (H (length p)); auto.
Qed.

Lemma nodeAt_app (p q : list PathSeg) :
  forall node,
    isElementPath p = true ->
    nodeAt node (p ++ q)
    = match nodeAt node p with Some n => nodeAt n q | None => None end.
Proof.
  assert (forall n (p : list PathSeg), length p <= n -> forall node,
            isElementPath p = true ->
            nodeAt node (p ++ q)
            = match nodeAt node p with Some x => nodeAt x q | None => None end) as H.
  { induction n as [| n IH]; intros p0 Hlen node Hp.
    - destruct p0; [reflexivity | simpl in Hlen; lia].
    - destruct p0 as [| s p0]; [reflexivity |].
      destruct s; try discriminate Hp.
      destruct p0 as [| s p0]; [discriminate Hp |].
      destruct s; try discriminate Hp.
      simpl. destruct (nth_error (node_children node) i) as [child |]; [| reflexivity].
      apply IH; [simpl in Hlen; lia | exact Hp]. }
  intros node Hp. apply (H (length p)); auto.
Qed.





(** ** Differing paths *)

Lemma setAdd_In (l : list string) (x y : string) :
  In x (setAdd l y) <-> In x l \/ x = y.
Proof.
  unfold setAdd. destruct (mem y l) eqn:Hm.
  - apply mem_In in Hm. split; [auto | intros [H | ->]; auto].
  - rewrite in_app_iff. simpl. intuition.
Qed.

Lemma addValue_mono (dp : list (string * Differing)) (key v k v0 : string) :
  recorded dp k v0 -> recorded (addValue dp key v) k v0.
Proof.
  intros [d [Hget Hin]]. unfold addValue.
  destruct (Obj.get dp key) as [d' |] eqn:Hkey; [| exists d; auto].
  destruct (String.eqb_spec key k) as [-> | Hne].
  - rewrite Hget in Hkey. injection Hkey as <-.
    eexists. split; [apply get_set_same |]. simpl. apply setAdd_In. now left.
  - exists d. split; [| exact Hin]. now rewrite get_set_other.
Qed.

Lemma addValue_records (dp : list (string * Differing)) (key v : string) :
  Obj.has dp key = true -> recorded (addValue dp key v) key v.
Proof.
  unfold Obj.has, addValue. destruct (Obj.get dp key) as [d |]; [| discriminate].
  intros _. eexists. split; [apply get_set_same |]. simpl. apply setAdd_In. now right.
Qed.

Lemma recordDifference_mono (templateValues : list (string * (string * PropType)))
    (dp : list (string * Differing)) (e : Emission) (k v0 : string) :
  recorded dp k v0 -> recorded (recordDifference templateValues dp e) k v0.
Proof.
  intros H. unfold recordDifference.
  destruct (match Obj.get templateValues _ with None => true | Some _ => _ end); [| exact H].
  assert (recorded (if Obj.has dp (pathStr (em_path e)) then dp
                    else Obj.set dp (pathStr (em_path e))
                           (mkDiffering (em_type e) [] (em_path e))) k v0) as H1.
  { destruct (Obj.has dp (pathStr (em_path e))) eqn:Hhas; [exact H |].
    destruct H as [d [Hget Hin]]. exists d. split; [| exact Hin].
    rewrite get_set_other; [exact Hget |]. intros <-.
    unfold Obj.has in Hhas. now rewrite Hget in Hhas. }
  destruct (Obj.get templateValues _) as [[tv ty] |]; repeat apply addValue_mono; exact H1.
Qed.

Lemma recordDifference_records (templateValues : list (string * (string * PropType)))
    (dp : list (string * Differing)) (e : Emission) :
  differsFromTemplate (Obj.get templateValues (pathStr (em_path e))) (em_value e) ->
  recorded (recordDifference templateValues dp e) (pathStr (em_path e)) (em_value e)
  /\ forall tv ty, Obj.get templateValues (pathStr (em_path e)) = Some (tv, ty) ->
                   recorded (recordDifference templateValues dp e) (pathStr (em_path e)) tv.
Proof.
  intros Hdiff. unfold recordDifference.
  set (key := pathStr (em_path e)) in *.
  set (d1 := if Obj.has dp key then dp
             else Obj.set dp key (mkDiffering (em_type e) [] (em_path e))).
  assert (Obj.has d1 key = true) as Hhas.
  { unfold d1. destruct (Obj.has dp key) eqn:Hh; [exact Hh |].
    unfold Obj.has. now rewrite get_set_same. }
  destruct (Obj.get templateValues key) as [[tv ty] |]; simpl in Hdiff.
  - destruct (String.eqb_spec (em_value e) tv) as [Heq | _]; [contradiction |]. simpl.
    split.
    + apply addValue_mono. now apply addValue_records.
    + intros tv' ty' Heq. injection Heq as <- <-.
      apply addValue_records.
      destruct (addValue_records d1 key (em_value e) Hhas) as [d [Hget _]].
      unfold Obj.has. now rewrite Hget.
  - split; [now apply addValue_records | discriminate].
Qed.

Lemma recordDifferences_mono (templateValues : list (string * (string * PropType)))
    (es : list Emission) (k v0 : string) :
  forall dp, recorded dp k v0 -> recorded (fold_left (recordDifference templateValues) es dp) k v0.
Proof.
  induction es as [| e es IH]; simpl; intros dp H; [exact H |].
  apply IH. now apply recordDifference_mono.
Qed.

Lemma instances_mono (E : Env) (templateNode : Node) (instances : list Node) (k v0 : string) :
  forall dp,
    recorded dp k v0 ->
    recorded
      (fold_left
         (fun differingPaths instance =>
            if sameNode instance templateNode then differingPaths
            else fold_left (recordDifference (templateValuesByPath E templateNode))
                           (collectPaths E instance []) differingPaths)
         instances dp) k v0.
Proof.
  induction instances as [| i rest IH]; simpl; intros dp H; [exact H |].
  apply IH. destruct (sameNode i templateNode); [exact H |].
  now apply recordDifferences_mono.
Qed.

Lemma addValue_sound (P : string -> string -> Prop) (dp : list (string * Differing))
    (key v : string) :
  (forall k x, recorded dp k x -> P k x) ->
  P key v ->
  forall k x, recorded (addValue dp key v) k x -> P k x.
Proof.
  intros Hdp Hv k x [d [Hget Hin]]. unfold addValue in Hget.
  destruct (Obj.get dp key) as [d0 |] eqn:Hkey; [| apply Hdp; exists d; auto].
  destruct (String.eqb_spec key k) as [<- | Hne].
  - rewrite get_set_same in Hget. injection Hget as <-. simpl in Hin.
    apply setAdd_In in Hin. destruct Hin as [Hin | ->]; [| exact Hv].
    apply Hdp. exists d0. auto.
  - rewrite get_set_other in Hget by exact Hne. apply Hdp. exists d. auto.
Qed.

Lemma recordDifference_sound (P : string -> string -> Prop)
    (templateValues : list (string * (string * PropType)))
    (dp : list (string * Differing)) (e : Emission) :
  (forall k x, recorded dp k x -> P k x) ->
  P (pathStr (em_path e)) (em_value e) ->
  (forall tv ty, Obj.get templateValues (pathStr (em_path e)) = Some (tv, ty) ->
                 P (pathStr (em_path e)) tv) ->
  forall k x, recorded (recordDifference templateValues dp e) k x -> P k x.
Proof.
  intros Hdp He Ht. unfold recordDifference.
  set (key := pathStr (em_path e)) in *.
  destruct (match Obj.get templateValues key with None => true | Some _ => _ end);
    [| exact Hdp].
  assert (forall k x,
             recorded (if Obj.has dp key then dp
                       else Obj.set dp key (mkDiffering (em_type e) [] (em_path e))) k x ->
             P k x) as H1.
  { destruct (Obj.has dp key); [exact Hdp |].
    intros k x [d [Hget Hin]].
    destruct (String.eqb_spec key k) as [<- | Hne].
    - rewrite get_set_same in Hget. injection Hget as <-. destruct Hin.
    - rewrite get_set_other in Hget by exact Hne. apply Hdp. exists d. auto. }
  destruct (Obj.get templateValues key) as [[tv ty] |] eqn:Htv.
  - apply addValue_sound; [apply addValue_sound; [exact H1 | exact He] |].
    eapply Ht. reflexivity.
  - apply addValue_sound; [exact H1 | exact He].
Qed.

(** X23. Every value attached to a differing path was observed at that
    path, in the template or in an instance other than the template. *)
Lemma recorded_values_observed (E : Env) (templateNode : Node) (instances : list Node)
    (key v : string) :
  recorded (computeDifferingPaths E templateNode instances) key v ->
  observed E templateNode instances key v.
Proof.
  unfold computeDifferingPaths.
  assert (forall seen dp,
             incl seen instances ->
             (forall k x, recorded dp k x -> observed E templateNode instances k x) ->
             forall k x,
               recorded
                 (fold_left
                    (fun differingPaths instance =>
                       if sameNode instance templateNode then differingPaths
                       else fold_left (recordDifference (templateValuesByPath E templateNode))
                                      (collectPaths E instance []) differingPaths)
                    seen dp) k x ->
               observed E templateNode instances k x) as Hfold.
  { induction seen as [| i rest IH]; intros dp Hincl Hdp; [exact Hdp |].
    simpl. apply IH; [intros x Hx; apply Hincl; now right |].
    destruct (sameNode i templateNode) eqn:Hsame; [exact Hdp |].
    assert (forall es dp0,
               incl es (collectPaths E i []) ->
               (forall k x, recorded dp0 k x -> observed E templateNode instances k x) ->
               forall k x,
                 recorded (fold_left (recordDifference (templateValuesByPath E templateNode))
                                     es dp0) k x ->
                 observed E templateNode instances k x) as Hes.
    { induction es as [| e es IHes]; intros dp0 Hsub Hdp0; [exact Hdp0 |].
      simpl. apply IHes; [intros x Hx; apply Hsub; now right |].
      apply recordDifference_sound; [exact Hdp0 | |].
      - right. exists i, e. repeat split; auto.
        + apply Hincl. now left.
        + apply Hsub. now left.
      - intros tv ty Htv. left. exists ty. exact Htv. }
    apply Hes; [apply incl_refl | exact Hdp]. }
  apply Hfold; [apply incl_refl |].
  intros k x [d [Hget _]]. discriminate Hget.
Qed.

(** C3 (amended). For every instance other than the template and every path
    read from that instance, when the template has no value at the path (the
    path newly appears) or a different one, the path is recorded as
    differing, with the instance's value and the template's value, if any,
    among its values. Paths are read from the instances only. *)
Theorem differing_paths_recorded (E : Env) (templateNode : Node) (instances : list Node)
    (instance : Node) (e : Emission) :
  In instance instances ->
  sameNode instance templateNode = false ->
  In e (collectPaths E instance []) ->
  let key := pathStr (em_path e) in
  let templateInfo := Obj.get (templateValuesByPath E templateNode) key in
  differsFromTemplate templateInfo (em_value e) ->
  recorded (computeDifferingPaths E templateNode instances) key (em_value e)
  /\ forall tv ty, templateInfo = Some (tv, ty) ->
                   recorded (computeDifferingPaths E templateNode instances) key tv.
Proof.
  intros Hinst Hother He key templateInfo Hdiff.
  unfold computeDifferingPaths. generalize (@nil (string * Differing)) as dp.
  induction instances as [| i rest IH]; [destruct Hinst |].
  intros dp. simpl. destruct Hinst as [-> | Hinst]; [| now apply IH].
  rewrite Hother.
  assert (forall es dp0,
             In e es ->
             recorded (fold_left (recordDifference (templateValuesByPath E templateNode))
                                 es dp0) key (em_value e)
             /\ forall tv ty, templateInfo = Some (tv, ty) ->
                  recorded (fold_left (recordDifference (templateValuesByPath E templateNode))
                                      es dp0) key tv) as Hfold.
  { induction es as [| e0 es IHes]; intros dp0 Hin; [destruct Hin |].
    simpl. destruct Hin as [-> | Hin]; [| now apply IHes].
    destruct (recordDifference_records (templateValuesByPath E templateNode) dp0 e Hdiff)
      as [Hv Ht].
    split.
    - now apply recordDifferences_mono.
    - intros tv ty Htv. apply recordDifferences_mono. eapply Ht. exact Htv. }
  destruct (Hfold (collectPaths E instance []) dp He) as [Hv Ht].
  split.
  - now apply instances_mono.
  - intros tv ty Htv. apply instances_mono. eapply Ht. exact Htv.
Qed.

Lemma differing_paths_recorded_witness :
  let t := textItem 1 "Home" in
  let i := textItem 3 "About" in
  recorded (computeDifferingPaths sampleEnv t [t; i]) "children.0" "About"
  /\ recorded (computeDifferingPaths sampleEnv t [t; i]) "children.0" "Home".
Proof.
  pose (t := textItem 1 "Home"). pose (i := textItem 3 "About").
  destruct (differing_paths_recorded sampleEnv t [t; i] i
              (mkEmission [SegChildren; SegIndex 0] "About" TTextChild)
              (or_intror (or_introl eq_refl)) eq_refl
              (or_intror (or_introl eq_refl))) as [Hv Ht].
  - simpl. discriminate.
  - split; [exact Hv |]. exact (Ht "Home" TTextChild eq_refl).
Defined.

(** C3 (as stated) fails for a path present in the template but absent from
    an instance: a text that is blank in the instance is not read from it, so
    the path is not recorded and no prop is inferred. *)
Lemma template_only_path_not_recorded :
  exists templateNode instance,
    forall E,
      sameNode instance templateNode = false
      /\ In "children.0" (map (fun e => pathStr (em_path e)) (collectPaths E templateNode []))
      /\ ~ In "children.0" (map (fun e => pathStr (em_path e)) (collectPaths E instance []))
      /\ Obj.get (computeDifferingPaths E templateNode [templateNode; instance]) "children.0"
         = None
      /\ analyzeInstancesForProps E templateNode [templateNode; instance] = Some [].
Proof.
  exists (textItem 1 "Home"), (textItem 3 " "). intros E.
  split; [reflexivity |]. split; [simpl; tauto |]. split.
  - simpl. intros [H | H]; [discriminate H | exact H].
  - split; reflexivity.
Qed.

(** ** Component names *)

(** A second fingerprint under a claimed base name gets the base name, an
    underscore and the first eight characters of the fingerprint; the name so
    made is not recorded as used. *)
Lemma resolveName_claimed (E : Env) (g : GlobalState) (fingerprint baseName owner : string) :
  Obj.get (globalGeneratedComponentSignatures g) fingerprint = None ->
  Obj.get (globalNameUsage g) baseName = Some owner ->
  owner <> "" ->
  finalName (resolveName E g fingerprint baseName)
  = baseName ++ "_" ++ String.substring 0 8 fingerprint
  /\ globalNameUsage (globalAfter (resolveName E g fingerprint baseName)) = globalNameUsage g.
Proof.
  intros Hnew Hused Howner. unfold resolveName. rewrite Hnew, Hused.
  assert (Js.nonEmpty owner = true) as ->.
  { unfold Js.nonEmpty. destruct (String.eqb_spec owner ""); [contradiction | reflexivity]. }
  split; reflexivity.
Qed.

(** Under a claimed base name, two new fingerprints that agree on their
    first eight characters are given the same name, whatever else they hold. *)
Lemma shared_prefix_shares_name (E : Env) (g : GlobalState)
    (f1 f2 baseName owner : string) :
  Obj.get (globalGeneratedComponentSignatures g) f1 = None ->
  Obj.get (globalGeneratedComponentSignatures g) f2 = None ->
  Obj.get (globalNameUsage g) baseName = Some owner ->
  owner <> "" ->
  f1 <> f2 ->
  String.substring 0 8 f1 = String.substring 0 8 f2 ->
  resolveAll E g [(f1, baseName); (f2, baseName)]
  = [baseName ++ "_" ++ String.substring 0 8 f1;
     baseName ++ "_" ++ String.substring 0 8 f1].
Proof.
  intros H1 H2 Hused Howner Hne Hprefix. simpl.
  destruct (resolveName_claimed E g f1 baseName owner H1 Hused Howner) as [Hn1 Hu1].
  assert (Obj.get (globalGeneratedComponentSignatures
                     (globalAfter (resolveName E g f1 baseName))) f2 = None) as H2'.
  { unfold resolveName. rewrite H1. simpl. now rewrite get_set_other. }
  assert (Obj.get (globalNameUsage (globalAfter (resolveName E g f1 baseName))) baseName
          = Some owner) as Hused' by now rewrite Hu1.
  destruct (resolveName_claimed E _ f2 baseName owner H2' Hused' Howner) as [Hn2 _].
  now rewrite Hn1, Hn2, Hprefix.
Qed.

(** C2 (the code against the claim). On a page with three repeated card
    groups that all choose the base name "CardItem", and whose definition
    bodies have the md5 digests stated in the hypotheses (the second and the
    third share their first eight characters), the second and the third
    component are distinct, with distinct fingerprints, and get the same
    name. *)
Theorem distinct_components_share_name (md5 : string -> string)
    (serialize : JsVal -> string) (path_join : string -> string -> string) :
  md5 (classCardHashed "k0") = "52a0f06e2d3b9d2d8fd4b03511a06682" ->
  md5 (classCardHashed "k27445") = "aef72e97d02bbcca38879150301d27dd" ->
  md5 (classCardHashed "k139748") = "aef72e97c9e0e63d45fd1a33d9154fa3" ->
  let E := readmeEnv md5 serialize path_join in
  option_map (fun ex => map (fun d => (def_name d, def_jsxBody d)) (ex_defs ex))
             (identifyComponents E threeCardGroupsBody [] emptyGlobal)
  = Some [("CardItem", classCardJsx "k0");
          ("CardItem_aef72e97", classCardJsx "k27445");
          ("CardItem_aef72e97", classCardJsx "k139748")].
Proof.
  intros H0 H1 H2 E.
  vm_compute in H0, H1, H2. vm_compute.
  rewrite H0, H1. vm_compute. rewrite H2. vm_compute.
  reflexivity.
Qed.

Lemma distinct_components_share_name_witness :
  Md5.hex (classCardHashed "k27445") <> Md5.hex (classCardHashed "k139748")
  /\ option_map (fun ex => map (fun d => (def_name d, def_jsxBody d)) (ex_defs ex))
             (identifyComponents sampleEnv threeCardGroupsBody [] emptyGlobal)
     = Some [("CardItem", classCardJsx "k0");
             ("CardItem_aef72e97", classCardJsx "k27445");
             ("CardItem_aef72e97", classCardJsx "k139748")].
Proof.
  split.
  - vm_compute. discriminate.
  - apply (distinct_components_share_name Md5.hex
             (fun v => match v with VNode n => node_name n | _ => "" end)
             (fun a b => a ++ "/" ++ b)); vm_compute; reflexivity.
Defined.

(** ** The registry holds elements only *)

Lemma set_Forall {A : Type} (Q : A -> Prop) (o : list (string * A)) (k : string) (v : A) :
  Forall (fun kv => Q (snd kv)) o -> Q v -> Forall (fun kv => Q (snd kv)) (Obj.set o k v).
Proof.
  intros Ho Hv. induction Ho as [| [k' v'] r Hk Hr IH]; simpl.
  - repeat constructor. exact Hv.
  - destruct (k' =? k); constructor; simpl; auto.
Qed.

Lemma get_Forall {A : Type} (Q : A -> Prop) (o : list (string * A)) (k : string) (v : A) :
  Forall (fun kv => Q (snd kv)) o -> Obj.get o k = Some v -> Q v.
Proof.
  induction 1 as [| [k' v'] r Hk _ IH]; simpl; [discriminate |].
  destruct (k' =? k); [intros H; injection H as <-; exact Hk | exact IH].
Qed.

Lemma findNodes_criteria (criteriaFn : Node -> bool) (node : Node) :
  forall n, In n (findNodes criteriaFn node) -> criteriaFn n = true.
Proof.
  induction node as [id type name attribs children data IH] using Node_forall_ind.
  intros n. cbn [findNodes]. rewrite in_app_iff. intros [Hn | Hn].
  - destruct (criteriaFn _) eqn:Hc; [| destruct Hn].
    destruct Hn as [<- | []]. exact Hc.
  - apply in_flat_map in Hn. destruct Hn as [child [Hchild Hn]].
    rewrite Forall_forall in IH. exact (IH child Hchild n Hn).
Qed.

Lemma findRepetitiveWith_groups (P : Node -> Prop) (eligible : Node -> bool) (E : Env) :
  (forall n, eligible n = true -> P n) ->
  forall node currentPath st,
    groupsSatisfy P st ->
    groupsSatisfy P (findRepetitiveWith eligible E node currentPath st).
Proof.
  intros Helig node.
  induction node as [id type name attribs children data IH] using Node_forall_ind.
  intros currentPath st Hst. cbn [findRepetitiveWith].
  destruct (existsb (Nat.eqb id) (processedForRepetition st)); [exact Hst |].
  unfold groupsSatisfy, markProcessed. cbn [signatures].
  match goal with
  | |- Forall _ (signatures (_ children 0 ?s0)) =>
      assert (groupsSatisfy P s0) as Hs0; [| revert Hs0; generalize s0 as s; generalize 0 as i]
  end.
  - destruct (eligible _ && _) eqn:Hcond; [| exact Hst].
    apply andb_prop in Hcond. destruct Hcond as [Hnode _].
    unfold groupsSatisfy, recordSignature. cbn [signatures].
    destruct (Obj.get (signatures st) _) as [group |] eqn:Hget.
    + apply (set_Forall (Forall (fun np => P (fst np)))); [exact Hst |].
      apply Forall_app. split.
      * exact (get_Forall (Forall (fun np => P (fst np))) _ _ _ Hst Hget).
      * repeat constructor. simpl. now apply Helig.
    + apply (set_Forall (Forall (fun np => P (fst np)))); [exact Hst |].
      repeat constructor. simpl. now apply Helig.
  - induction IH as [| child rest Hchild _ IHrest]; intros i s Hs; [exact Hs |].
    apply IHrest. destruct (isSvgTag child); [exact Hs | now apply Hchild].
Qed.

Lemma repetitionCandidates_instances (P : Node -> Prop) (E : Env) (reg : Registry)
    (groups : list (list (Node * list PathSeg))) (cs : list Candidate) :
  Forall (Forall (fun np => P (fst np))) groups ->
  repetitionCandidates E reg groups = Some cs ->
  Forall (fun c => Forall P (instances c)) cs.
Proof.
  intros Hgroups. revert cs.
  induction Hgroups as [| g rest Hg _ IH]; simpl; intros cs H.
  - injection H as <-. constructor.
  - destruct (repetitionCandidate E reg g) as [c1 |] eqn:Hc1; [| discriminate].
    destruct (repetitionCandidates E reg rest) as [more |]; [| discriminate].
    injection H as <-. apply Forall_app. split; [| now apply IH].
    unfold repetitionCandidate in Hc1.
    destruct (_ <=? _)%nat; [| injection Hc1 as <-; constructor].
    destruct g as [| [first p] g']; [discriminate |].
    destruct (isNodeAlreadyComponentPart first reg); [injection Hc1 as <-; constructor |].
    destruct (analyzeInstancesForProps E first _); [| discriminate].
    injection Hc1 as <-. constructor; [| constructor].
    change (Forall P (map fst ((first, p) :: g'))).
    apply Forall_map. exact Hg.
Qed.

Lemma candidates_are_elements (E : Env) (bodyNode : Node) (reg : Registry)
    (candidates : list Candidate) :
  componentCandidates E bodyNode reg = Some candidates ->
  Forall (fun c => Forall isElement (instances c)) candidates.
Proof.
  unfold componentCandidates, componentCandidatesWith.
  destruct (repetitionCandidates E reg _) as [repetition |] eqn:Hrep; [| discriminate].
  intros H. injection H as <-.
  apply Forall_forall. intros c Hc.
  apply sortCandidates_In, in_app_or in Hc. destruct Hc as [Hc | Hc].
  - unfold layoutCandidates in Hc.
    apply in_flat_map in Hc. destruct Hc as [identifier [_ Hc]].
    apply in_flat_map in Hc. destruct Hc as [node [Hnode Hc]].
    destruct (negb _); [| destruct Hc]. destruct Hc as [<- | []].
    repeat constructor. apply findNodes_criteria in Hnode.
    unfold layoutCriteria in Hnode. apply andb_prop in Hnode.
    destruct Hnode as [Htag _]. now apply String.eqb_eq in Htag.
  - assert (Forall (fun c => Forall isElement (instances c)) repetition) as Hall.
    { eapply (repetitionCandidates_instances isElement E reg); [| exact Hrep].
      assert (groupsSatisfy isElement
                (findRepetitive E reg bodyNode [] (mkRepetitions [] []))) as Hgroups.
      { apply findRepetitiveWith_groups; [| constructor].
        intros n Hn. unfold isNodeEligibleForComponentization in Hn.
        unfold isElement. destruct (String.eqb_spec (node_type n) "tag"); [auto |].
        discriminate Hn. }
      unfold groupsSatisfy in Hgroups. unfold Obj.values.
      apply Forall_map. exact Hgroups. }
    rewrite Forall_forall in Hall. exact (Hall c Hc).
Qed.

Lemma Reg_set_elements (reg : Registry) (node : Node) (info : CompInfo) :
  Forall (fun entry => isElement (fst entry)) reg ->
  isElement node ->
  Forall (fun entry => isElement (fst entry)) (Reg.set reg node info).
Proof.
  intros Hreg Hnode. induction Hreg as [| [k i] r Hk Hr IH]; simpl.
  - repeat constructor. exact Hnode.
  - destruct (sameNode k node); constructor; auto.
Qed.

(** X22. Only elements are ever registered: the layout pass matches elements
    and the repetition pass records eligible nodes, which are elements. *)
Lemma registry_holds_elements (E : Env) (bodyNode : Node) (g : GlobalState)
    (ex : Extraction) :
  identifyComponents E bodyNode [] g = Some ex ->
  Forall (fun entry => isElement (fst entry)) (ex_registry ex).
Proof.
  unfold identifyComponents.
  destruct (componentCandidates E bodyNode []) as [candidates |] eqn:Hc; [| discriminate].
  intros H. injection H as <-.
  pose proof (candidates_are_elements _ _ _ _ Hc) as Hall.
  assert (forall st,
             Forall (fun entry => isElement (fst entry)) (ex_registry st) ->
             Forall (fun entry => isElement (fst entry))
                    (ex_registry (fold_left (extractCandidate E) candidates st))) as Hfold.
  { clear Hc. induction Hall as [| c rest Hinst _ IH]; intros st Hst; [exact Hst |].
    simpl. apply IH. unfold extractCandidate.
    destruct (componentBody E (ex_registry st) c) as [body effects]. cbn [ex_registry].
    unfold registerInstances.
    generalize (mkCompInfo
                  (finalName (resolveName E (ex_global st)
                                (generateComponentFingerprint E body (propsSpec c))
                                (nameAttempt c)))
                  (astNode c) (propsSpec c)) as info.
    intros info. revert Hst. generalize (ex_registry st) as reg.
    induction Hinst as [| n ns Hn _ IHn]; intros reg Hreg; [exact Hreg |].
    simpl. apply IHn. now apply Reg_set_elements. }
  apply Hfold. constructor.
Qed.

(** ** The rename of [viewbox] *)

Lemma get_delete_same {A : Type} (o : list (string * A)) (k : string) :
  Obj.get (Obj.delete o k) k = None.
Proof.
  induction o as [| [k' v'] o IH]; simpl; [reflexivity |].
  destruct (k' =? k) eqn:Hk; simpl; [exact IH | now rewrite Hk].
Qed.

(** The source renames [viewbox] in place, once; rendering the node again
    finds nothing to rename, so applying the rename at each use gives the
    node the source holds after its first rendering. *)
Lemma withViewBox_idempotent (node : Node) :
  withViewBox (withViewBox node) = withViewBox node.
Proof.
  assert (forall attribs,
             normalizeViewBox (normalizeViewBox attribs) = normalizeViewBox attribs) as H.
  { intros attribs. unfold normalizeViewBox.
    destruct (Obj.get attribs "viewbox") as [v |] eqn:Hget.
    - destruct (Js.nonEmpty v) eqn:Hv.
      + now rewrite get_delete_same.
      + now rewrite Hget, Hv.
    - now rewrite Hget. }
  unfold withViewBox. simpl. now rewrite H.
Qed.

(* ================================================================= *)
(** * Further properties of the code *)

(** ** The global registry *)

Lemma resolveName_records (E : Env) (g : GlobalState) (fingerprint nameAttempt : string) :
  let r := resolveName E g fingerprint nameAttempt in
  Obj.get (globalGeneratedComponentSignatures (globalAfter r)) fingerprint
  = Some (finalName r, componentFilePath r).
Proof.
  unfold resolveName.
  destruct (Obj.get (globalGeneratedComponentSignatures g) fingerprint) as [[n p] |] eqn:Hget.
  - simpl. exact Hget.
  - simpl. apply get_set_same.
Qed.

Lemma resolveName_extends (E : Env) (g : GlobalState) (fingerprint nameAttempt : string) :
  globalExtends g (globalAfter (resolveName E g fingerprint nameAttempt)).
Proof.
  unfold resolveName.
  destruct (Obj.get (globalGeneratedComponentSignatures g) fingerprint) as [[n p] |] eqn:Hget.
  - split; auto.
  - split; simpl.
    + intros f entry Hf. rewrite get_set_other; [exact Hf |]. intros <-. congruence.
    + intros name owner Hname Howner.
      destruct (Obj.get (globalNameUsage g) nameAttempt) as [fp |] eqn:Hbase.
      * destruct (Js.nonEmpty fp) eqn:Hfp; [exact Hname |].
        rewrite get_set_other; [exact Hname |]. intros <-.
        rewrite Hname in Hbase. injection Hbase as ->.
        unfold Js.nonEmpty in Hfp. destruct (String.eqb_spec fp ""); [contradiction |].
        discriminate Hfp.
      * rewrite get_set_other; [exact Hname |]. intros <-. congruence.
Qed.

Lemma globalExtends_refl (g : GlobalState) : globalExtends g g.
Proof. split; auto. Qed.

Lemma globalExtends_trans (g1 g2 g3 : GlobalState) :
  globalExtends g1 g2 -> globalExtends g2 g3 -> globalExtends g1 g3.
Proof. intros [H1 H2] [H3 H4]. split; eauto. Qed.

Lemma extractCandidate_unfold (E : Env) (st : Extraction) (c : Candidate) :
  let body := componentBody E (ex_registry st) c in
  let r := resolveName E (ex_global st)
             (generateComponentFingerprint E (fst body) (propsSpec c)) (nameAttempt c) in
  extractCandidate E st c
  = mkExtraction
      (registerInstances (ex_registry st) c (finalName r))
      (globalAfter r)
      (if isNewGlobalComponent r
       then (ex_defs st
             ++ [mkComponentDef c (finalName r) (fst body) (componentFilePath r)])%list
       else ex_defs st)
      (ex_effects st ++ snd body)%list.
Proof. unfold extractCandidate. destruct (componentBody E (ex_registry st) c). reflexivity. Qed.

Lemma extraction_extends (E : Env) (candidates : list Candidate) :
  forall st, globalExtends (ex_global st)
                           (ex_global (fold_left (extractCandidate E) candidates st)).
Proof.
  induction candidates as [| c rest IH]; intros st; simpl; [apply globalExtends_refl |].
  eapply globalExtends_trans; [| apply IH].
  rewrite extractCandidate_unfold. simpl. apply resolveName_extends.
Qed.

Lemma processBody_extends (E : Env) (bodyNode : Node) (g : GlobalState) (page : PageResult) :
  processBody E bodyNode g = Some page -> globalExtends g (page_global page).
Proof.
  unfold processBody, identifyComponents.
  destruct (componentCandidates E bodyNode []) as [candidates |]; [| discriminate].
  destruct (renderPage E bodyNode _) as [jsx effects].
  intros H. injection H as <-. simpl.
  apply (extraction_extends E candidates (mkExtraction [] g [] [])).
Qed.

(** X1. The global registry only grows during a batch: a fingerprint known
    at any point keeps its component name and file path to the end of the
    run, and a base name keeps the fingerprint that first claimed it. *)
Theorem global_registry_only_grows (E : Env) (asts : list Node) :
  forall g g' effects,
    runBatch E asts g = Some (g', effects) -> globalExtends g g'.
Proof.
  induction asts as [| ast rest IH]; simpl; intros g g' effects H.
  - injection H as <- _. apply globalExtends_refl.
  - destruct (findBody ast) as [bodyNode |]; [| eauto].
    destruct (processBody E bodyNode g) as [page |] eqn:Hpage; [| discriminate].
    destruct (runBatch E rest (page_global page)) as [[g1 later] |] eqn:Hrest;
      [| discriminate].
    injection H as <- _.
    eapply globalExtends_trans; [eapply processBody_extends; eauto | eapply IH; eauto].
Qed.

Lemma global_registry_only_grows_witness :
  let g := mkGlobal [("0123", ("OldItem", "components/OldItem.jsx"))] [("CardItem", "0123")] in
  exists g' effects,
    runBatch sampleEnv [cardsAst] g = Some (g', effects)
    /\ Obj.get (globalGeneratedComponentSignatures g') "0123"
       = Some ("OldItem", "components/OldItem.jsx")
    /\ Obj.get (globalNameUsage g') "CardItem" = Some "0123".
Proof.
  intros g.
  destruct (runBatch sampleEnv [cardsAst] g) as [[g' effects] |] eqn:Hrun.
  - exists g', effects. split; [reflexivity |].
    destruct (global_registry_only_grows sampleEnv [cardsAst] g g' effects Hrun) as [Hs Hu].
    split; [apply Hs; reflexivity | apply Hu; [reflexivity | discriminate]].
  - vm_compute in Hrun. discriminate Hrun.
Defined.

(** X2. Resolving a fingerprint that has been resolved before gives the
    name and file path of the first resolution, whatever name is attempted,
    marks the component as not new and leaves the global registry as it is. *)
Theorem resolved_fingerprint_is_reused (E : Env) (g : GlobalState)
    (fingerprint nameAttempt1 nameAttempt2 : string) :
  let first := resolveName E g fingerprint nameAttempt1 in
  resolveName E (globalAfter first) fingerprint nameAttempt2
  = mkResolved (finalName first) (componentFilePath first) false (globalAfter first).
Proof.
  intros first.
  pose proof (resolveName_records E g fingerprint nameAttempt1) as Hrec.
  fold first in Hrec. simpl in Hrec.
  unfold resolveName at 1. now rewrite Hrec.
Qed.

(** ** The extraction loop *)

Lemma resolveName_new (E : Env) (g : GlobalState) (fingerprint nameAttempt : string) :
  isNewGlobalComponent (resolveName E g fingerprint nameAttempt) = true ->
  Obj.get (globalGeneratedComponentSignatures g) fingerprint = None
  /\ componentFilePath (resolveName E g fingerprint nameAttempt)
     = path_join E (pathConfig_components E)
         (finalName (resolveName E g fingerprint nameAttempt) ++ ".jsx").
Proof.
  unfold resolveName.
  destruct (Obj.get (globalGeneratedComponentSignatures g) fingerprint) as [[n p] |];
    simpl; [discriminate | auto].
Qed.

(** What the loop keeps true of the definitions it has emitted. *)
Lemma extraction_defs_invariant (E : Env) (g0 : GlobalState) (candidates : list Candidate) :
  forall st,
    globalExtends g0 (ex_global st) ->
    NoDup (map (fingerprintOfDef E) (ex_defs st)) ->
    Forall (fun d =>
              Obj.get (globalGeneratedComponentSignatures (ex_global st)) (fingerprintOfDef E d)
              = Some (def_name d, def_filePath d)
              /\ Obj.get (globalGeneratedComponentSignatures g0) (fingerprintOfDef E d) = None
              /\ def_filePath d
                 = path_join E (pathConfig_components E) (def_name d ++ ".jsx"))
           (ex_defs st) ->
    let final := fold_left (extractCandidate E) candidates st in
    NoDup (map (fingerprintOfDef E) (ex_defs final))
    /\ Forall (fun d =>
                 Obj.get (globalGeneratedComponentSignatures (ex_global final))
                         (fingerprintOfDef E d)
                 = Some (def_name d, def_filePath d)
                 /\ Obj.get (globalGeneratedComponentSignatures g0) (fingerprintOfDef E d) = None
                 /\ def_filePath d
                    = path_join E (pathConfig_components E) (def_name d ++ ".jsx"))
              (ex_defs final).
Proof.
  induction candidates as [| c rest IH]; intros st Hext Hnd Hall; simpl; [auto |].
  apply IH; rewrite extractCandidate_unfold; cbn [ex_global ex_defs].
  - eapply globalExtends_trans; [exact Hext | apply resolveName_extends].
  - set (body := componentBody E (ex_registry st) c).
    set (fp := generateComponentFingerprint E (fst body) (propsSpec c)).
    destruct (isNewGlobalComponent (resolveName E (ex_global st) fp (nameAttempt c)))
      eqn:Hnew; [| exact Hnd].
    rewrite map_app. apply NoDup_app; [exact Hnd | repeat constructor; intros [] |].
    intros x Hx [<- | []].
    apply in_map_iff in Hx. destruct Hx as [d [Hd Hin]].
    rewrite Forall_forall in Hall. destruct (Hall d Hin) as [Hknown _].
    destruct (resolveName_new _ _ _ _ Hnew) as [Hnone _].
    rewrite Hd in Hknown. unfold fingerprintOfDef in Hknown. cbn [def_jsxBody def_candidate] in Hknown.
    fold body in Hknown. fold fp in Hknown. congruence.
  - set (body := componentBody E (ex_registry st) c).
    set (fp := generateComponentFingerprint E (fst body) (propsSpec c)).
    assert (Forall (fun d =>
                      Obj.get (globalGeneratedComponentSignatures
                                 (globalAfter (resolveName E (ex_global st) fp (nameAttempt c))))
                              (fingerprintOfDef E d)
                      = Some (def_name d, def_filePath d)
                      /\ Obj.get (globalGeneratedComponentSignatures g0) (fingerprintOfDef E d)
                         = None
                      /\ def_filePath d
                         = path_join E (pathConfig_components E) (def_name d ++ ".jsx"))
                   (ex_defs st)) as Hold.
    { eapply Forall_impl; [| exact Hall]. intros d [Hk Hrest]. split; [| exact Hrest].
      destruct (resolveName_extends E (ex_global st) fp (nameAttempt c)) as [Hs _]. auto. }
    destruct (isNewGlobalComponent (resolveName E (ex_global st) fp (nameAttempt c)))
      eqn:Hnew; [| exact Hold].
    apply Forall_app. split; [exact Hold |]. constructor; [| constructor].
    destruct (resolveName_new _ _ _ _ Hnew) as [Hnone Hpath].
    unfold fingerprintOfDef. simpl. fold fp. split; [| split].
    + apply resolveName_records.
    + destruct (Obj.get (globalGeneratedComponentSignatures g0) fp) as [entry |] eqn:Hg0;
        [| reflexivity].
      destruct Hext as [Hs _]. rewrite (Hs _ _ Hg0) in Hnone. discriminate Hnone.
    + exact Hpath.
Qed.

(** X3. The definitions a tree adds are new and pairwise distinct by
    content: their fingerprints are pairwise distinct, none was known to the
    global registry before the tree, and after it the registry maps each
    fingerprint to the definition's name and to the file
    [<components>/<name>.jsx]. *)
Theorem new_definitions_are_distinct (E : Env) (bodyNode : Node) (reg : Registry)
    (g : GlobalState) (ex : Extraction) :
  identifyComponents E bodyNode reg g = Some ex ->
  NoDup (map (fingerprintOfDef E) (ex_defs ex))
  /\ Forall (fun d =>
               Obj.get (globalGeneratedComponentSignatures (ex_global ex))
                       (fingerprintOfDef E d)
               = Some (def_name d, def_filePath d)
               /\ Obj.get (globalGeneratedComponentSignatures g) (fingerprintOfDef E d) = None
               /\ def_filePath d
                  = path_join E (pathConfig_components E) (def_name d ++ ".jsx"))
            (ex_defs ex).
Proof.
  unfold identifyComponents.
  destruct (componentCandidates E bodyNode reg) as [candidates |]; [| discriminate].
  intros H. injection H as <-.
  apply (extraction_defs_invariant E g candidates (mkExtraction reg g [] [])).
  - apply globalExtends_refl.
  - constructor.
  - constructor.
Qed.

Lemma new_definitions_are_distinct_witness :
  exists ex,
    identifyComponents sampleEnv threeCardGroupsBody [] emptyGlobal = Some ex
    /\ length (ex_defs ex) = 3
    /\ NoDup (map (fingerprintOfDef sampleEnv) (ex_defs ex)).
Proof.
  destruct (identifyComponents sampleEnv threeCardGroupsBody [] emptyGlobal)
    as [ex |] eqn:Hrun.
  - exists ex. split; [reflexivity |]. split.
    + vm_compute in Hrun. injection Hrun as <-. reflexivity.
    + exact (proj1 (new_definitions_are_distinct sampleEnv threeCardGroupsBody []
                      emptyGlobal ex Hrun)).
  - vm_compute in Hrun. discriminate Hrun.
Defined.

Lemma Reg_has_set_same (reg : Registry) (node : Node) (info : CompInfo) :
  Reg.has (Reg.set reg node info) node = true.
Proof.
  unfold Reg.has. induction reg as [| [k i] r IH]; simpl.
  - unfold sameNode. now rewrite Nat.eqb_refl.
  - destruct (sameNode k node) eqn:Hk; simpl; now rewrite Hk.
Qed.

Lemma Reg_has_set_mono (reg : Registry) (node other : Node) (info : CompInfo) :
  Reg.has reg other = true -> Reg.has (Reg.set reg node info) other = true.
Proof.
  unfold Reg.has. induction reg as [| [k i] r IH]; simpl; [discriminate |].
  destruct (sameNode k node) eqn:Hk; simpl; destruct (sameNode k other); auto.
Qed.

Lemma registerInstances_has (candidate : Candidate) (name : string) :
  forall reg,
    (forall n, Reg.has reg n = true ->
               Reg.has (registerInstances reg candidate name) n = true)
    /\ Forall (fun n => Reg.has (registerInstances reg candidate name) n = true)
              (instances candidate).
Proof.
  unfold registerInstances. generalize (instances candidate) as l.
  induction l as [| x l IH]; intros reg; simpl; [split; auto |].
  destruct (IH (Reg.set reg x (mkCompInfo name (astNode candidate) (propsSpec candidate))))
    as [Hmono Hall].
  split.
  - intros n Hn. apply Hmono. now apply Reg_has_set_mono.
  - constructor; [| exact Hall]. apply Hmono. apply Reg_has_set_same.
Qed.

Lemma extraction_registers (E : Env) (candidates : list Candidate) :
  forall st,
    let final := fold_left (extractCandidate E) candidates st in
    (forall n, Reg.has (ex_registry st) n = true -> Reg.has (ex_registry final) n = true)
    /\ Forall (fun c => Forall (fun n => Reg.has (ex_registry final) n = true) (instances c))
              candidates.
Proof.
  induction candidates as [| c rest IH]; intros st; simpl; [split; auto |].
  destruct (IH (extractCandidate E st c)) as [Hmono Hall].
  assert (exists name,
             ex_registry (extractCandidate E st c)
             = registerInstances (ex_registry st) c name) as [name Hreg].
  { rewrite extractCandidate_unfold. eexists. reflexivity. }
  destruct (registerInstances_has c name (ex_registry st)) as [Hm1 Ha1].
  rewrite <- Hreg in Hm1, Ha1.
  split.
  - intros n Hn. apply Hmono. now apply Hm1.
  - constructor; [| exact Hall].
    eapply Forall_impl; [| exact Ha1]. intros n Hn. now apply Hmono.
Qed.

(** X4. When [identifyComponents] returns, detection has returned its
    candidates and every instance of every candidate, not only its template,
    is in the per-tree registry; nodes registered before stay registered. *)
Theorem every_instance_is_registered (E : Env) (bodyNode : Node) (reg : Registry)
    (g : GlobalState) (ex : Extraction) :
  identifyComponents E bodyNode reg g = Some ex ->
  exists candidates,
    componentCandidates E bodyNode reg = Some candidates
    /\ Forall (fun c => Forall (fun n => Reg.has (ex_registry ex) n = true) (instances c))
              candidates
    /\ forall n, Reg.has reg n = true -> Reg.has (ex_registry ex) n = true.
Proof.
  unfold identifyComponents.
  destruct (componentCandidates E bodyNode reg) as [candidates |]; [| discriminate].
  intros H. injection H as <-. exists candidates. split; [reflexivity |].
  destruct (extraction_registers E candidates (mkExtraction reg g [] [])) as [Hmono Hall].
  split; [exact Hall | exact Hmono].
Qed.

Lemma every_instance_is_registered_witness :
  exists ex,
    identifyComponents sampleEnv cardsBody [] emptyGlobal = Some ex
    /\ Reg.has (ex_registry ex) (titledCard 10 "One" "Two") = true
    /\ Reg.has (ex_registry ex) (titledCard 20 "Three" "Four") = true.
Proof.
  eexists. split; [reflexivity |].
  destruct (every_instance_is_registered sampleEnv cardsBody [] emptyGlobal _ eq_refl)
    as [candidates [Hcandidates [Hall _]]].
  vm_compute in Hcandidates. injection Hcandidates as <-.
  inversion Hall as [| c rest Hc _]; subst.
  inversion Hc as [| n1 r1 H1 Hrest]; subst.
  inversion Hrest as [| n2 r2 H2 _]; subst.
  split; [exact H1 | exact H2].
Defined.

Lemma resolveName_known (E : Env) (g : GlobalState) (fingerprint nameAttempt name path : string) :
  Obj.get (globalGeneratedComponentSignatures g) fingerprint = Some (name, path) ->
  resolveName E g fingerprint nameAttempt = mkResolved name path false g.
Proof. intros H. unfold resolveName. now rewrite H. Qed.

(** Running the loop again over a global state that holds what the first run
    recorded: same registry, same effects, no definition, no change. *)
Lemma extraction_rerun (E : Env) (G : GlobalState) (candidates : list Candidate) :
  forall st1 st2,
    ex_registry st2 = ex_registry st1 ->
    ex_global st2 = G ->
    globalExtends (ex_global (fold_left (extractCandidate E) candidates st1)) G ->
    let final1 := fold_left (extractCandidate E) candidates st1 in
    let final2 := fold_left (extractCandidate E) candidates st2 in
    ex_registry final2 = ex_registry final1
    /\ ex_global final2 = G
    /\ ex_defs final2 = ex_defs st2
    /\ exists effects,
         ex_effects final1 = (ex_effects st1 ++ effects)%list
         /\ ex_effects final2 = (ex_effects st2 ++ effects)%list.
Proof.
  induction candidates as [| c rest IH]; intros st1 st2 Hreg Hg Hext; simpl.
  - repeat split; auto. exists []. now rewrite !app_nil_r.
  - simpl in Hext.
    pose proof (extraction_extends E rest (extractCandidate E st1 c)) as Hrest.
    pose proof (globalExtends_trans _ _ _ Hrest Hext) as [Hsigs _].
    pose proof (extractCandidate_unfold E st1 c) as H1.
    pose proof (extractCandidate_unfold E st2 c) as H2.
    cbv zeta in H1, H2. rewrite Hreg, Hg in H2.
    set (body := componentBody E (ex_registry st1) c) in *.
    set (fp := generateComponentFingerprint E (fst body) (propsSpec c)) in *.
    set (r1 := resolveName E (ex_global st1) fp (nameAttempt c)) in *.
    assert (resolveName E G fp (nameAttempt c)
            = mkResolved (finalName r1) (componentFilePath r1) false G) as Hr2.
    { apply resolveName_known. apply Hsigs. rewrite H1. cbn [ex_global].
      apply resolveName_records. }
    rewrite Hr2 in H2. cbn [finalName globalAfter isNewGlobalComponent] in H2.
    destruct (IH (extractCandidate E st1 c) (extractCandidate E st2 c))
      as [Ha [Hb [Hc [effects [Hd He]]]]].
    + rewrite H1, H2. reflexivity.
    + rewrite H2. reflexivity.
    + exact Hext.
    + split; [exact Ha |]. split; [exact Hb |]. split.
      * rewrite Hc, H2. reflexivity.
      * exists (snd body ++ effects)%list. rewrite Hd, He, H1, H2. cbn [ex_effects].
        now rewrite <- !app_assoc.
Qed.

(** X5. Converting a body a second time, over the global registry the
    first conversion left, finds every component already known: it emits no
    definition, changes nothing in the global registry, and produces the
    same per-tree registry, the same page markup and the same effects. *)
Theorem reconversion_emits_no_definition (E : Env) (bodyNode : Node) (g : GlobalState)
    (page : PageResult) :
  processBody E bodyNode g = Some page ->
  processBody E bodyNode (page_global page)
  = Some (mkPageResult [] (pageJsxContent page) (page_registry page) (page_global page)
            (page_effects page)).
Proof.
  unfold processBody, identifyComponents.
  destruct (componentCandidates E bodyNode []) as [candidates |]; [| discriminate].
  set (final1 := fold_left (extractCandidate E) candidates (mkExtraction [] g [] [])).
  destruct (renderPage E bodyNode (ex_registry final1)) as [jsx effects] eqn:Hrender.
  intros H. injection H as <-. cbn [page_global pageJsxContent page_registry page_effects].
  destruct (extraction_rerun E (ex_global final1) candidates
              (mkExtraction [] g [] []) (mkExtraction [] (ex_global final1) [] []))
    as [Ha [Hb [Hc [effs [Hd He]]]]]; try reflexivity.
  - apply globalExtends_refl.
  - fold final1 in Ha, Hd. simpl in Hd, He.
    rewrite Ha, Hrender, Hb, Hc, He, <- Hd. reflexivity.
Qed.

Lemma reconversion_emits_no_definition_witness :
  exists page,
    processBody sampleEnv threeCardGroupsBody emptyGlobal = Some page
    /\ length (page_defs page) = 3
    /\ processBody sampleEnv threeCardGroupsBody (page_global page)
       = Some (mkPageResult [] (pageJsxContent page) (page_registry page) (page_global page)
                 (page_effects page)).
Proof.
  destruct (processBody sampleEnv threeCardGroupsBody emptyGlobal) as [page |] eqn:Hrun.
  - exists page. split; [reflexivity |]. split.
    + vm_compute in Hrun. injection Hrun as <-. reflexivity.
    + exact (reconversion_emits_no_definition sampleEnv threeCardGroupsBody emptyGlobal
               page Hrun).
  - vm_compute in Hrun. discriminate Hrun.
Defined.

(** ** What detection guarantees *)

Lemma set_Forall_keyed {A : Type} (R : string -> A -> Prop) (o : list (string * A))
    (k : string) (v : A) :
  Forall (fun kv => R (fst kv) (snd kv)) o -> R k v ->
  Forall (fun kv => R (fst kv) (snd kv)) (Obj.set o k v).
Proof.
  intros Ho Hv. induction Ho as [| [k' v'] r Hk Hr IH]; simpl.
  - repeat constructor. exact Hv.
  - destruct (String.eqb_spec k' k) as [-> | Hne]; constructor; simpl; auto.
Qed.

Lemma get_Forall_keyed {A : Type} (R : string -> A -> Prop) (o : list (string * A))
    (k : string) (v : A) :
  Forall (fun kv => R (fst kv) (snd kv)) o -> Obj.get o k = Some v -> R k v.
Proof.
  induction 1 as [| [k' v'] r Hk _ IH]; simpl; [discriminate |].
  destruct (String.eqb_spec k' k) as [-> | Hne];
    [intros H; injection H as <-; exact Hk | exact IH].
Qed.

Lemma findRepetitiveWith_keyed (R : string -> Node -> Prop) (eligible : Node -> bool)
    (E : Env) :
  (forall n, eligible n = true ->
             (MIN_CHILDREN_FOR_REUSABLE_BY_REPETITION E <=? length (node_children n))%nat = true ->
             R (getStructuralSignature n) n) ->
  forall node currentPath st,
    groupsKeyed R st ->
    groupsKeyed R (findRepetitiveWith eligible E node currentPath st).
Proof.
  intros Helig node.
  induction node as [id type name attribs children data IH] using Node_forall_ind.
  intros currentPath st Hst. cbn [findRepetitiveWith].
  destruct (existsb (Nat.eqb id) (processedForRepetition st)); [exact Hst |].
  unfold groupsKeyed, markProcessed. cbn [signatures].
  match goal with
  | |- Forall _ (signatures (_ children 0 ?s0)) =>
      assert (groupsKeyed R s0) as Hs0; [| revert Hs0; generalize s0 as s; generalize 0 as i]
  end.
  - destruct (eligible _ && _) eqn:Hcond; [| exact Hst].
    apply andb_prop in Hcond. destruct Hcond as [Hnode Hlen].
    pose proof (Helig _ Hnode Hlen) as Hrel.
    unfold groupsKeyed, recordSignature. cbn [signatures].
    set (sig := getStructuralSignature (mkNode id type name attribs children data)) in *.
    destruct (Obj.get (signatures st) sig) as [group |] eqn:Hget.
    + apply (set_Forall_keyed (fun k g => Forall (fun np => R k (fst np)) g));
        [exact Hst |].
      apply Forall_app. split.
      * exact (get_Forall_keyed (fun k g => Forall (fun np => R k (fst np)) g) _ _ _ Hst Hget).
      * repeat constructor. exact Hrel.
    + apply (set_Forall_keyed (fun k g => Forall (fun np => R k (fst np)) g));
        [exact Hst |].
      repeat constructor. exact Hrel.
  - induction IH as [| child rest Hchild _ IHrest]; intros i s Hs; [exact Hs |].
    apply IHrest. destruct (isSvgTag child); [exact Hs | now apply Hchild].
Qed.

Lemma eligible_facts (n : Node) (reg : Registry) :
  isNodeEligibleForComponentization n reg = true ->
  node_type n = "tag" /\ isNodeAlreadyComponentPart n reg = false /\ node_name n <> "svg".
Proof.
  unfold isNodeEligibleForComponentization.
  destruct (String.eqb_spec (node_type n) "tag") as [Ht | Ht]; simpl; [| discriminate].
  destruct (isNodeAlreadyComponentPart n reg); [discriminate |].
  destruct (String.eqb_spec (node_name n) "svg") as [Hs | Hs]; [discriminate |].
  auto.
Qed.

Lemma repetitionCandidate_wellFormed (E : Env) (reg : Registry)
    (group : list (Node * list PathSeg)) (cs : list Candidate) :
  (exists sig,
      Forall (fun np =>
                getStructuralSignature (fst np) = sig
                /\ isNodeEligibleForComponentization (fst np) reg = true
                /\ (MIN_CHILDREN_FOR_REUSABLE_BY_REPETITION E
                    <=? length (node_children (fst np)))%nat = true) group) ->
  repetitionCandidate E reg group = Some cs ->
  Forall (candidateWellFormed E reg) cs.
Proof.
  intros [sig Hgroup]. unfold repetitionCandidate.
  destruct (_ <=? _)%nat eqn:Hmin; [| intros H; injection H as <-; constructor].
  destruct group as [| [first p] g']; [discriminate |].
  destruct (isNodeAlreadyComponentPart first reg); [intros H; injection H as <-; constructor |].
  destruct (analyzeInstancesForProps E first _) as [spec |]; [| discriminate].
  intros H. injection H as <-. constructor; [| constructor].
  assert (getStructuralSignature first = sig) as Hfirst.
  { inversion Hgroup as [| x l Hx Hl]. apply Hx. }
  unfold candidateWellFormed. cbn [instances astNode cand_type].
  split; [exists (map fst g'); reflexivity |].
  change (first :: map fst g')%list with (map fst ((first, p) :: g')).
  split; [| split].
  - apply Forall_map. eapply Forall_impl; [| exact Hgroup].
    intros np [Hsig [Hel _]]. destruct (eligible_facts _ _ Hel) as [Ht [Hr _]].
    rewrite Hfirst. auto.
  - apply Nat.leb_le in Hmin. rewrite length_map. exact Hmin.
  - apply Forall_map. eapply Forall_impl; [| exact Hgroup].
    intros np [_ [Hel Hlen]]. destruct (eligible_facts _ _ Hel) as [_ [_ Hs]].
    apply Nat.leb_le in Hlen. auto.
Qed.

Lemma repetitionCandidates_wellFormed (E : Env) (reg : Registry)
    (groups : list (list (Node * list PathSeg))) (cs : list Candidate) :
  Forall (fun group =>
            exists sig,
              Forall (fun np =>
                        getStructuralSignature (fst np) = sig
                        /\ isNodeEligibleForComponentization (fst np) reg = true
                        /\ (MIN_CHILDREN_FOR_REUSABLE_BY_REPETITION E
                            <=? length (node_children (fst np)))%nat = true) group)
         groups ->
  repetitionCandidates E reg groups = Some cs ->
  Forall (candidateWellFormed E reg) cs.
Proof.
  intros Hgroups. revert cs.
  induction Hgroups as [| g rest Hg _ IH]; simpl; intros cs H.
  - injection H as <-. constructor.
  - destruct (repetitionCandidate E reg g) as [c1 |] eqn:Hc1; [| discriminate].
    destruct (repetitionCandidates E reg rest) as [more |]; [| discriminate].
    injection H as <-. apply Forall_app. split; [| now apply IH].
    eapply repetitionCandidate_wellFormed; eauto.
Qed.

(** X6. Every candidate the detector hands to the extraction loop is well
    formed: its template is its first instance; every instance is an element
    not yet in the registry and has the template's structural signature; a
    layout candidate is its own single instance, has no props, and matches a
    configured class or id; a repetition candidate has at least the
    configured number of instances, each with at least the configured number
    of children, and none is an svg. *)
Theorem candidates_are_well_formed (E : Env) (bodyNode : Node) (reg : Registry)
    (candidates : list Candidate) :
  componentCandidates E bodyNode reg = Some candidates ->
  Forall (candidateWellFormed E reg) candidates.
Proof.
  unfold componentCandidates, componentCandidatesWith.
  destruct (repetitionCandidates E reg _) as [repetition |] eqn:Hrep; [| discriminate].
  intros H. injection H as <-.
  apply Forall_forall. intros c Hc.
  apply sortCandidates_In, in_app_or in Hc. destruct Hc as [Hc | Hc].
  - unfold layoutCandidates in Hc.
    apply in_flat_map in Hc. destruct Hc as [identifier [Hid Hc]].
    apply in_flat_map in Hc. destruct Hc as [node [Hnode Hc]].
    destruct (isNodeAlreadyComponentPart node reg) eqn:Hpart; [destruct Hc |].
    destruct Hc as [<- | []].
    apply findNodes_criteria in Hnode.
    unfold candidateWellFormed. cbn [instances astNode cand_type propsSpec nameAttempt].
    split; [exists []; reflexivity |]. split; [| split; [reflexivity | split; [reflexivity |]]].
    + repeat constructor; [| exact Hpart].
      unfold layoutCriteria in Hnode. apply andb_prop in Hnode.
      destruct Hnode as [Htag _]. now apply String.eqb_eq in Htag.
    + exists identifier. auto.
  - assert (Forall (candidateWellFormed E reg) repetition) as Hall.
    { eapply repetitionCandidates_wellFormed; [| exact Hrep].
      assert (groupsKeyed
                (fun sig n =>
                   getStructuralSignature n = sig
                   /\ isNodeEligibleForComponentization n reg = true
                   /\ (MIN_CHILDREN_FOR_REUSABLE_BY_REPETITION E
                       <=? length (node_children n))%nat = true)
                (findRepetitive E reg bodyNode [] (mkRepetitions [] []))) as Hgroups.
      { apply findRepetitiveWith_keyed; [| constructor]. intros n Hn Hlen. auto. }
      unfold groupsKeyed in Hgroups. unfold Obj.values.
      apply Forall_map. eapply Forall_impl; [| exact Hgroups].
      intros [sig group] Hkv. exists sig. exact Hkv. }
    rewrite Forall_forall in Hall. exact (Hall c Hc).
Qed.

Lemma candidates_are_well_formed_witness :
  exists candidates,
    componentCandidates sampleEnv threeCardGroupsBody [] = Some candidates
    /\ length candidates = 3
    /\ Forall (candidateWellFormed sampleEnv []) candidates.
Proof.
  destruct (componentCandidates sampleEnv threeCardGroupsBody []) as [candidates |] eqn:Hrun.
  - exists candidates. split; [reflexivity |]. split.
    + vm_compute in Hrun. injection Hrun as <-. reflexivity.
    + exact (candidates_are_well_formed sampleEnv threeCardGroupsBody [] candidates Hrun).
  - vm_compute in Hrun. discriminate Hrun.
Defined.

(** ** The order of extraction *)

Lemma insertCandidate_perm (c : Candidate) (l : list Candidate) :
  Permutation (c :: l) (insertCandidate c l).
Proof.
  induction l as [| d r IH]; simpl; [reflexivity |].
  destruct (_ <=? _)%nat; [reflexivity |].
  rewrite perm_swap. now constructor.
Qed.

Lemma insertCandidate_sorted (c : Candidate) (l : list Candidate) :
  StronglySorted smallerFirst l -> StronglySorted smallerFirst (insertCandidate c l).
Proof.
  induction 1 as [| d r Hr IH Hd]; simpl; [repeat constructor |].
  destruct (Nat.leb_spec (countNodes (astNode c)) (countNodes (astNode d))) as [Hle | Hgt].
  - constructor; [constructor; assumption |].
    constructor; [exact Hle |].
    eapply Forall_impl; [| exact Hd]. unfold smallerFirst. intros a Ha. lia.
  - constructor; [exact IH |].
    apply Forall_forall. intros x Hx.
    destruct (insertCandidate_In _ _ _ Hx) as [-> | Hin].
    + unfold smallerFirst. lia.
    + rewrite Forall_forall in Hd. now apply Hd.
Qed.

Lemma insertCandidate_filter (n : nat) (c : Candidate) (l : list Candidate) :
  filter (ofSize n) (insertCandidate c l) = filter (ofSize n) (c :: l).
Proof.
  induction l as [| d r IH]; [reflexivity |].
  cbn [insertCandidate].
  destruct (Nat.leb_spec (countNodes (astNode c)) (countNodes (astNode d))) as [Hle | Hgt];
    [reflexivity |].
  cbn [filter] in *. rewrite IH. unfold ofSize.
  destruct (Nat.eqb_spec (countNodes (astNode c)) n) as [Hc | Hc]; [| reflexivity].
  destruct (Nat.eqb_spec (countNodes (astNode d)) n) as [Hd | Hd]; [lia | reflexivity].
Qed.

(** X7. The extraction loop receives the candidates sorted by the number
    of nodes of their templates, smallest first: the sorted list is a
    rearrangement of the detected one, it is ascending, and candidates whose
    templates have the same number of nodes keep the order in which they
    were detected (layout candidates before repetition candidates). *)
Theorem candidates_sorted_smallest_first (l : list Candidate) :
  Permutation l (sortCandidates l)
  /\ StronglySorted smallerFirst (sortCandidates l)
  /\ forall n, filter (ofSize n) (sortCandidates l) = filter (ofSize n) l.
Proof.
  unfold sortCandidates. induction l as [| c r [IHp [IHs IHf]]]; cbn [fold_right].
  - repeat split; constructor.
  - split; [| split].
    + rewrite <- insertCandidate_perm. now constructor.
    + now apply insertCandidate_sorted.
    + intros n. rewrite insertCandidate_filter. cbn [filter]. now rewrite IHf.
Qed.

(** ** Tree traversals *)

Lemma filter_flat_map {A B : Type} (f : B -> bool) (g : A -> list B) (l : list A) :
  filter f (flat_map g l) = flat_map (fun x => filter f (g x)) l.
Proof.
  induction l as [| x r IH]; simpl; [reflexivity |].
  now rewrite filter_app, IH.
Qed.

Lemma flat_map_ext_Forall {A B : Type} (f g : A -> list B) (l : list A) :
  Forall (fun x => f x = g x) l -> flat_map f l = flat_map g l.
Proof. induction 1 as [| x r Hx _ IH]; simpl; [reflexivity | now rewrite Hx, IH]. Qed.

Lemma countNodes_children (children : list Node) :
  forall acc,
    fold_left (fun sum child => sum + countNodes child) children acc
    = acc + fold_right (fun child sum => countNodes child + sum) 0 children.
Proof.
  induction children as [| c r IH]; intros acc; simpl; [lia |].
  rewrite IH. lia.
Qed.

Lemma countNodes_preorder (node : Node) : countNodes node = length (preorder node).
Proof.
  induction node as [id type name attribs children data IH] using Node_forall_ind.
  cbn [countNodes preorder length]. rewrite countNodes_children.
  assert (fold_right (fun child sum => countNodes child + sum) 0 children
          = length (flat_map preorder children)) as ->; [| lia].
  induction IH as [| c r Hc _ IHr]; simpl; [reflexivity |].
  rewrite length_app, Hc, IHr. reflexivity.
Qed.

Lemma findNodes_all (node : Node) : findNodes (fun _ => true) node = preorder node.
Proof.
  induction node as [id type name attribs children data IH] using Node_forall_ind.
  cbn [findNodes preorder app]. f_equal. now apply flat_map_ext_Forall.
Qed.

(** X8. [findNodes] returns exactly the nodes of the tree that satisfy the
    criterion, the root included, each as often as it occurs, in document
    order. *)
Theorem findNodes_document_order (criteriaFn : Node -> bool) (node : Node) :
  findNodes criteriaFn node = filter criteriaFn (preorder node).
Proof.
  induction node as [id type name attribs children data IH] using Node_forall_ind.
  cbn [findNodes preorder filter].
  rewrite filter_flat_map, (flat_map_ext_Forall _ _ _ IH).
  now destruct (criteriaFn _).
Qed.

(** X9. [countNodes] is the number of nodes of the tree, so a node nested
    inside a template counts strictly less than the template: the sort by
    [countNodes] puts a candidate nested in another before it. *)
Theorem nested_node_counts_less (node inner : Node) :
  countNodes node = length (findNodes (fun _ => true) node)
  /\ (In inner (flat_map preorder (node_children node)) ->
      (countNodes inner < countNodes node)%nat).
Proof.
  split.
  - rewrite findNodes_all, countNodes_preorder. reflexivity.
  - revert inner.
    induction node as [id type name attribs children data IH] using Node_forall_ind.
    intros inner Hin. cbn [node_children] in Hin.
    rewrite (countNodes_preorder (mkNode id type name attribs children data)).
    cbn [preorder length].
    apply in_flat_map in Hin. destruct Hin as [child [Hchild Hin]].
    rewrite Forall_forall in IH. pose proof (IH child Hchild inner) as Hrec.
    assert (length (preorder child) <= length (flat_map preorder children))%nat as Hlen.
    { clear - Hchild. induction children as [| c r IHr]; [destruct Hchild |].
      simpl. rewrite length_app. destruct Hchild as [-> | Hr]; [lia |].
      specialize (IHr Hr). lia. }
    destruct child as [cid ctype cname cattribs cchildren cdata].
    cbn [preorder] in Hin. destruct Hin as [<- | Hin].
    + rewrite countNodes_preorder. lia.
    + cbn [node_children] in Hrec. specialize (Hrec Hin).
      rewrite (countNodes_preorder (mkNode cid ctype cname cattribs cchildren cdata)) in Hrec.
      lia.
Qed.

Lemma nested_node_counts_less_witness :
  (countNodes (titledCard 20 "Three" "Four") < countNodes cardsBody)%nat.
Proof.
  apply (proj2 (nested_node_counts_less cardsBody (titledCard 20 "Three" "Four"))).
  simpl. do 5 right. left. reflexivity.
Defined.

(** ** Consistency of the global registry *)

Lemma runBatch_preserves (E : Env) (P : GlobalState -> Prop) :
  (forall g fingerprint nameAttempt,
      P g -> P (globalAfter (resolveName E g fingerprint nameAttempt))) ->
  forall asts g g' effects,
    runBatch E asts g = Some (g', effects) -> P g -> P g'.
Proof.
  intros Hstep.
  assert (forall candidates st,
             P (ex_global st) ->
             P (ex_global (fold_left (extractCandidate E) candidates st))) as Hfold.
  { induction candidates as [| c rest IH]; intros st Hst; [exact Hst |].
    simpl. apply IH. rewrite extractCandidate_unfold. cbn [ex_global]. now apply Hstep. }
  induction asts as [| ast rest IH]; simpl; intros g g' effects H Hg.
  - injection H as <- _. exact Hg.
  - destruct (findBody ast) as [bodyNode |]; [| eauto].
    destruct (processBody E bodyNode g) as [page |] eqn:Hpage; [| discriminate].
    destruct (runBatch E rest (page_global page)) as [[g1 later] |] eqn:Hrest;
      [| discriminate].
    injection H as <- _. eapply IH; [exact Hrest |].
    unfold processBody, identifyComponents in Hpage.
    destruct (componentCandidates E bodyNode []) as [candidates |]; [| discriminate].
    destruct (renderPage E bodyNode _) as [jsx effs].
    injection Hpage as <-. cbn [page_global]. now apply Hfold.
Qed.

Lemma resolveName_consistent (E : Env) (g : GlobalState) (fingerprint nameAttempt : string) :
  globalConsistent E g ->
  globalConsistent E (globalAfter (resolveName E g fingerprint nameAttempt)).
Proof.
  intros [Hpath Hown]. unfold resolveName.
  destruct (Obj.get (globalGeneratedComponentSignatures g) fingerprint) as [[n p] |] eqn:Hget;
    [split; assumption |].
  cbn [globalAfter]. split; cbn [globalGeneratedComponentSignatures globalNameUsage].
  - intros f name filePath Hf.
    destruct (String.eqb_spec fingerprint f) as [<- | Hne].
    + rewrite get_set_same in Hf. injection Hf as <- <-. reflexivity.
    + rewrite get_set_other in Hf by exact Hne. eauto.
  - assert (forall name owner,
               Obj.get (globalNameUsage g) name = Some owner -> owner <> "" ->
               Obj.get (Obj.set (globalGeneratedComponentSignatures g) fingerprint
                          (if match Obj.get (globalNameUsage g) nameAttempt with
                              | Some fp => Js.nonEmpty fp
                              | None => false
                              end
                           then nameAttempt ++ "_" ++ String.substring 0 8 fingerprint
                           else nameAttempt,
                           path_join E (pathConfig_components E)
                             ((if match Obj.get (globalNameUsage g) nameAttempt with
                                  | Some fp => Js.nonEmpty fp
                                  | None => false
                                  end
                               then nameAttempt ++ "_" ++ String.substring 0 8 fingerprint
                               else nameAttempt) ++ ".jsx"))) owner
               = Some (name, path_join E (pathConfig_components E) (name ++ ".jsx")))
      as Hold.
    { intros name owner Hname Howner. rewrite get_set_other; [now apply Hown |].
      intros <-. rewrite (Hown _ _ Hname Howner) in Hget. discriminate Hget. }
    intros name owner.
    destruct (match Obj.get (globalNameUsage g) nameAttempt with
              | Some fp => Js.nonEmpty fp
              | None => false
              end) eqn:Hclaimed; [apply Hold |].
    destruct (String.eqb_spec nameAttempt name) as [<- | Hne].
    + rewrite get_set_same. intros H _. injection H as <-. apply get_set_same.
    + rewrite get_set_other by exact Hne. apply Hold.
Qed.

(** X10. A batch keeps the global registry consistent: every recorded
    component has the file [<components>/<name>.jsx], and the fingerprint
    recorded as owner of a base name is a recorded component with exactly
    that name. *)
Theorem global_registry_stays_consistent (E : Env) (asts : list Node)
    (g g' : GlobalState) (effects : list Effect) :
  globalConsistent E g ->
  runBatch E asts g = Some (g', effects) ->
  globalConsistent E g'.
Proof.
  intros Hg Hrun.
  exact (runBatch_preserves E (globalConsistent E) (fun g0 f n => resolveName_consistent E g0 f n)
           asts g g' effects Hrun Hg).
Qed.

Lemma global_registry_stays_consistent_witness :
  exists g' effects,
    runBatch sampleEnv [cardsAst] emptyGlobal = Some (g', effects)
    /\ length (globalNameUsage g') = 1
    /\ globalConsistent sampleEnv g'.
Proof.
  destruct (runBatch sampleEnv [cardsAst] emptyGlobal) as [[g' effects] |] eqn:Hrun.
  - exists g', effects. split; [reflexivity |]. split.
    + vm_compute in Hrun. injection Hrun as <- _. reflexivity.
    + apply (global_registry_stays_consistent sampleEnv [cardsAst] emptyGlobal g' effects);
        [| exact Hrun].
      split; intros; discriminate.
  - vm_compute in Hrun. discriminate Hrun.
Defined.

(** ** Names *)

Lemma allChars_impl (p q : ascii -> bool) (s : string) :
  (forall c, p c = true -> q c = true) -> allChars p s = true -> allChars q s = true.
Proof.
  intros Hpq. induction s as [| c r IH]; simpl; [auto |].
  intros H. apply andb_prop in H. destruct H as [Hc Hr].
  now rewrite (Hpq c Hc), IH.
Qed.

Lemma filterChars_all (p q : ascii -> bool) (s : string) :
  allChars p s = true -> allChars (fun c => p c && q c) (Js.filterChars q s) = true.
Proof.
  induction s as [| c r IH]; simpl; [auto |].
  intros H. apply andb_prop in H. destruct H as [Hc Hr].
  destruct (q c) eqn:Hq; simpl; [rewrite Hc, Hq; simpl |]; auto.
Qed.

Lemma filterChars_map_empty (p : ascii -> bool) (f : ascii -> ascii) (s : string) :
  Js.filterChars p (Js.mapChars f s) = "" -> allChars (fun c => negb (p (f c))) s = true.
Proof.
  induction s as [| c r IH]; simpl; [auto |].
  destruct (p (f c)); [discriminate | simpl; exact IH].
Qed.

Lemma splitRuns_all_separators (sep : ascii -> bool) (s : string) :
  allChars sep s = true -> filter Js.nonEmpty (Js.splitRuns sep s) = [].
Proof.
  induction s as [| c r IH]; simpl; [reflexivity |].
  intros H. apply andb_prop in H. destruct H as [Hc Hr]. rewrite Hc.
  destruct r as [| c' r']; [reflexivity |].
  pose proof Hr as Hr'. simpl in Hr'. apply andb_prop in Hr'. destruct Hr' as [Hc' _].
  rewrite Hc'. now apply IH.
Qed.

Lemma letters_survive_cleaning (c : ascii) :
  negb (Js.isLower (Js.lowerChar c) || Js.isDigit (Js.lowerChar c)) = true ->
  Js.isAlnum c = false.
Proof. destruct c as [[] [] [] [] [] [] [] []]; vm_compute; auto. Qed.

Lemma upperChar_of_cleaned (c : ascii) :
  Js.isLower c || Js.isDigit c = true ->
  Js.isUpper (Js.upperChar c) || Js.isDigit (Js.upperChar c) = true
  /\ Js.isAlnum (Js.upperChar c) = true /\ Js.isAlnum c = true.
Proof. destruct c as [[] [] [] [] [] [] [] []]; vm_compute; auto. Qed.

Lemma fallback_words_empty (str : string) :
  Js.nonEmpty (cleanedOf str) = false ->
  filter Js.nonEmpty
    (Js.splitRuns (fun c => Js.isSpace c || Ascii.eqb c "_" || Ascii.eqb c "-")
       (Js.filterChars
          (fun c => Js.isAlnum c || Ascii.eqb c "_" || Ascii.eqb c "-" || Js.isSpace c) str))
  = [].
Proof.
  intros Hclean.
  assert (cleanedOf str = "") as Hempty.
  { unfold Js.nonEmpty in Hclean. destruct (String.eqb_spec (cleanedOf str) ""); auto.
    discriminate Hclean. }
  apply filterChars_map_empty in Hempty.
  apply splitRuns_all_separators.
  eapply allChars_impl; [| apply filterChars_all; exact Hempty].
  intros c Hc. apply andb_prop in Hc. destruct Hc as [Hno Hkept].
  rewrite (letters_survive_cleaning c Hno) in Hkept. simpl in Hkept.
  destruct (Ascii.eqb c "_"), (Ascii.eqb c "-"), (Js.isSpace c); auto.
Qed.

Lemma capitalized_cleaned_alnum (str : string) :
  Js.nonEmpty (cleanedOf str) = true ->
  allChars Js.isAlnum (capitalize (fun r => r) (cleanedOf str)) = true
  /\ startsUpperOrDigit (capitalize (fun r => r) (cleanedOf str)) = true.
Proof.
  intros Hclean.
  assert (allChars (fun c => Js.isLower c || Js.isDigit c) (cleanedOf str) = true) as Hall.
  { unfold cleanedOf.
    eapply allChars_impl;
      [| apply (filterChars_all (fun _ => true)); induction (Js.toLowerCase str); auto].
    intros c Hc. exact Hc. }
  destruct (cleanedOf str) as [| c r]; [discriminate Hclean |].
  simpl in Hall. apply andb_prop in Hall. destruct Hall as [Hc Hr].
  destruct (upperChar_of_cleaned c Hc) as [Hfirst [Halnum _]].
  cbn [capitalize allChars startsUpperOrDigit]. rewrite Halnum. split; [| exact Hfirst].
  simpl. eapply allChars_impl; [| exact Hr].
  intros x Hx. now destruct (upperChar_of_cleaned x Hx) as [_ [_ H]].
Qed.

Lemma toPascalCase_alnum (str : string) :
  allChars Js.isAlnum (toPascalCase str) = true
  /\ startsUpperOrDigit (toPascalCase str) = true.
Proof.
  unfold toPascalCase. fold (cleanedOf str).
  destruct (Js.trim str =? ""); [split; reflexivity |].
  destruct (Js.nonEmpty (cleanedOf str)) eqn:Hclean.
  - now apply capitalized_cleaned_alnum.
  - rewrite (fallback_words_empty str Hclean). split; reflexivity.
Qed.

(** X11. On a string of Latin-1 characters [toPascalCase] has three
    results: "Unnamed" for a blank string; otherwise the ASCII letters and
    digits of the string in lower case with the first one in upper case;
    and "UnnamedComponent" when there is none, the branch that capitalizes
    the fallback words being unreachable. The result is never empty, holds
    letters and digits only, and starts with an upper-case letter or with a
    digit. *)
Theorem toPascalCase_results (str : string) :
  toPascalCase str
  = (if Js.trim str =? "" then "Unnamed"
     else if Js.nonEmpty (cleanedOf str) then capitalize (fun r => r) (cleanedOf str)
     else "UnnamedComponent")
  /\ allChars Js.isAlnum (toPascalCase str) = true
  /\ startsUpperOrDigit (toPascalCase str) = true.
Proof.
  unfold toPascalCase. fold (cleanedOf str).
  destruct (Js.trim str =? ""); [repeat split |].
  destruct (Js.nonEmpty (cleanedOf str)) eqn:Hclean.
  - split; [reflexivity |]. now apply capitalized_cleaned_alnum.
  - rewrite (fallback_words_empty str Hclean). repeat split.
Qed.

Lemma string_pair_ind (P : string -> Prop) :
  P "" -> (forall c, P (String c "")) ->
  (forall c d r, P r -> P (String d r) -> P (String c (String d r))) ->
  forall s, P s.
Proof.
  intros H0 H1 H2 s.
  assert (P s /\ forall c, P (String c s)) as [H _]; [| exact H].
  induction s as [| d r [IHr IHdr]]; [split; auto |].
  split; [apply IHdr |]. intros c. apply H2; [exact IHr | apply IHdr].
Qed.

Lemma upperChar_of_lower (d : ascii) :
  Js.isLower d = true ->
  Ascii.eqb (Js.upperChar d) "-" = false /\ Js.isLower (Js.upperChar d) = false.
Proof. destruct d as [[] [] [] [] [] [] [] []]; vm_compute; auto; discriminate. Qed.

Lemma hyphen_not_lower : Js.isLower "-" = false.
Proof. reflexivity. Qed.

Lemma kebabToCamelCase_head (s : string) :
  match kebabToCamelCase s with
  | String e _ => Js.isLower e = true ->
                  match s with String c _ => Js.isLower c = true | EmptyString => False end
  | EmptyString => True
  end.
Proof.
  destruct s as [| c r]; simpl; [exact I |].
  destruct (Ascii.eqb_spec c "-") as [-> | Hc]; [| auto].
  destruct r as [| d r']; [auto |].
  destruct (Js.isLower d) eqn:Hd; [| auto].
  intros H. destruct (upperChar_of_lower d Hd) as [_ Hup]. congruence.
Qed.

(** X12. [kebabToCamelCase] leaves nothing for a second application: in
    its result no lower-case ASCII letter follows a hyphen, so applying it
    again changes nothing. *)
Theorem kebabToCamelCase_idempotent (str : string) :
  kebabToCamelCase (kebabToCamelCase str) = kebabToCamelCase str.
Proof.
  induction str as [| c | c d r IHr IHdr] using string_pair_ind; [reflexivity | |].
  - simpl. destruct (Ascii.eqb_spec c "-") as [-> | Hc]; [reflexivity |].
    simpl. destruct (Ascii.eqb_spec c "-"); [contradiction | reflexivity].
  - cbn [kebabToCamelCase]. destruct (Ascii.eqb_spec c "-") as [-> | Hc].
    + destruct (Js.isLower d) eqn:Hd.
      * destruct (upperChar_of_lower d Hd) as [Hne _].
        cbn [kebabToCamelCase]. rewrite Hne, IHr. reflexivity.
      * pose proof (kebabToCamelCase_head (String d r)) as Hhead.
        change (kebabToCamelCase (String "-" (kebabToCamelCase (String d r)))
                = String "-" (kebabToCamelCase (String d r))).
        destruct (kebabToCamelCase (String d r)) as [| e t] eqn:Hk; [reflexivity |].
        cbn [kebabToCamelCase]. simpl (Ascii.eqb "-" "-").
        destruct (Js.isLower e) eqn:He; [specialize (Hhead eq_refl); congruence |].
        f_equal. exact IHdr.
    + change (kebabToCamelCase (String c (kebabToCamelCase (String d r)))
              = String c (kebabToCamelCase (String d r))).
      revert IHdr.
      generalize (kebabToCamelCase (String d r)) as k. intros k Hk.
      cbn [kebabToCamelCase]. destruct (Ascii.eqb_spec c "-"); [contradiction |].
      now rewrite Hk.
Qed.

(** ** Inline styles *)

Lemma allChars_app (p : ascii -> bool) (a b : string) :
  allChars p (a ++ b) = allChars p a && allChars p b.
Proof. induction a as [| c r IH]; simpl; [reflexivity | now rewrite IH, andb_assoc]. Qed.

Lemma splitChar_none (d : ascii) (s : string) :
  allChars (isNot d) s = true -> Js.splitChar d s = [s].
Proof.
  induction s as [| c r IH]; simpl; [reflexivity |].
  unfold isNot at 1. intros H. apply andb_prop in H. destruct H as [Hc Hr].
  destruct (Ascii.eqb c d); [discriminate Hc |]. now rewrite IH.
Qed.

Lemma splitChar_at_first (d : ascii) (a b : string) :
  allChars (isNot d) a = true ->
  Js.splitChar d (a ++ String d b) = (a :: Js.splitChar d b)%list.
Proof.
  induction a as [| c r IH]; simpl.
  - now rewrite Ascii.eqb_refl.
  - unfold isNot at 1. intros H. apply andb_prop in H. destruct H as [Hc Hr].
    destruct (Ascii.eqb c d); [discriminate Hc |]. now rewrite IH.
Qed.

Lemma plainPiece_facts (s : string) :
  plainPiece s = true -> allChars (isNot ":") s = true /\ allChars (isNot ";") s = true.
Proof.
  unfold plainPiece. intros H. split; (eapply allChars_impl; [| exact H]);
    intros c Hc; apply andb_prop in Hc; tauto.
Qed.

Lemma assign_first {A : Type} (k : string) (v : A) :
  Obj.assign [] k v = if k =? "__proto__" then [] else [(k, v)].
Proof.
  unfold Obj.assign. destruct (k =? "__proto__"); [reflexivity |].
  cbn [Obj.has Obj.get]. destruct (Obj.arrayIndex k); reflexivity.
Qed.

(** X13. A style declaration is cut at its second colon: for a property
    and a value that hold neither a colon nor a semicolon, whatever follows
    a further colon (up to the next semicolon) is dropped, so the style
    object is the one of [property:value] alone: one entry, with the property
    in camel case and both trimmed, or no entry when the property is
    [__proto__], whose assignment the language ignores. *)
Theorem style_value_cut_at_colon (property value rest : string) :
  plainPiece property = true -> plainPiece value = true ->
  allChars (isNot ";") rest = true ->
  property <> "" -> value <> "" ->
  let key := kebabToCamelCase (Js.trim property) in
  let entries := if key =? "__proto__" then [] else [(key, Js.trim value)] in
  styleStringToObject (property ++ ":" ++ value ++ ":" ++ rest) = entries
  /\ styleStringToObject (property ++ ":" ++ value) = entries.
Proof.
  intros Hp Hv Hrest Hpne Hvne key entries. subst key entries.
  destruct (plainPiece_facts _ Hp) as [Hp1 Hp2].
  destruct (plainPiece_facts _ Hv) as [Hv1 Hv2].
  assert (Js.nonEmpty property && Js.nonEmpty value = true) as Hne.
  { unfold Js.nonEmpty.
    destruct (String.eqb_spec property ""); [contradiction |].
    destruct (String.eqb_spec value ""); [contradiction | reflexivity]. }
  assert (forall tail, (property ++ ":" ++ tail =? "") = false) as Hwhole.
  { intros tail. destruct property; [contradiction | reflexivity]. }
  unfold styleStringToObject. rewrite !Hwhole. split.
  - rewrite splitChar_none.
    + cbn [fold_left]. unfold styleDeclaration.
      change (property ++ ":" ++ value ++ ":" ++ rest)
        with (property ++ String ":" (value ++ String ":" rest)).
      rewrite (splitChar_at_first ":" property _ Hp1).
      rewrite (splitChar_at_first ":" value _ Hv1).
      rewrite Hne. apply assign_first.
    + change (property ++ ":" ++ value ++ ":" ++ rest)
        with (property ++ String ":" (value ++ String ":" rest)).
      rewrite allChars_app. cbn [allChars]. rewrite allChars_app. cbn [allChars].
      rewrite Hp2, Hv2, Hrest. reflexivity.
  - rewrite splitChar_none.
    + cbn [fold_left]. unfold styleDeclaration.
      change (property ++ ":" ++ value) with (property ++ String ":" value).
      rewrite (splitChar_at_first ":" property _ Hp1).
      rewrite (splitChar_none ":" value Hv1).
      rewrite Hne. apply assign_first.
    + change (property ++ ":" ++ value) with (property ++ String ":" value).
      rewrite allChars_app. cbn [allChars]. rewrite Hp2, Hv2. reflexivity.
Qed.

Lemma style_value_cut_at_colon_witness :
  styleStringToObject "background-image:url(https://cdn.example/a.png)"
  = [("backgroundImage", "url(https")]
  /\ styleStringToObject "__proto__:x:y" = [].
Proof.
  split.
  - exact (proj1 (style_value_cut_at_colon "background-image" "url(https"
                    "//cdn.example/a.png" eq_refl eq_refl eq_refl
                    ltac:(discriminate) ltac:(discriminate))).
  - exact (proj1 (style_value_cut_at_colon "__proto__" "x" "y" eq_refl eq_refl eq_refl
                    ltac:(discriminate) ltac:(discriminate))).
Defined.

(** ** Text roles *)

Lemma substring_after (s : string) :
  forall m x y,
    String.substring m (String.length x + String.length y) s = x ++ y ->
    String.substring (m + String.length x) (String.length y) s = y.
Proof.
  induction s as [| c r IH]; intros m x y H.
  - assert (x ++ y = "") as Hxy.
    { rewrite <- H. destruct m; destruct (String.length x + String.length y)%nat; reflexivity. }
    destruct x; [| discriminate Hxy]. simpl in Hxy. subst y.
    destruct (m + _)%nat; reflexivity.
  - destruct m as [| m'].
    + destruct x as [| cx rx].
      * simpl in *. exact H.
      * simpl in H. injection H as _ H.
        change (String.substring (String.length rx) (String.length y) r = y).
        specialize (IH 0 rx y). simpl in IH. now apply IH.
    + simpl. apply IH. exact H.
Qed.

Lemma subtitle_includes_title (s : string) :
  Js.includes "subtitle" s = true -> Js.includes "title" s = true.
Proof.
  unfold Js.includes.
  destruct (String.index 0 "subtitle" s) as [m |] eqn:Hsub; [intros _ | discriminate].
  destruct (String.index 0 "title" s) as [k |] eqn:Htitle; [reflexivity |].
  apply index_correct1 in Hsub.
  pose proof (substring_after s m "sub" "title" Hsub) as Hat.
  exfalso.
  refine (index_correct3 0 (m + 3) "title" s Htitle _ _ Hat); [discriminate | lia].
Qed.

(** X14. The role "subtitle" is never guessed: a class or id that
    contains "subtitle" contains "title", which is tested first, so it gets
    the role "title"; the guessed role is one of the eight others. *)
Theorem subtitle_role_is_never_guessed (attribs : list (string * string)) :
  guessTextRoleFromClassOrId attribs <> Some "subtitle"
  /\ forall role,
       guessTextRoleFromClassOrId attribs = Some role ->
       In role ["title"; "label"; "description"; "header"; "footer"; "buttonText";
                "caption"; "itemText"].
Proof.
  assert (forall str role,
             roleOfToken str = Some role ->
             In role ["title"; "label"; "description"; "header"; "footer"; "buttonText";
                      "caption"; "itemText"]) as Htoken.
  { intros str role. unfold roleOfToken. cbv zeta.
    destruct (str =? ""); [discriminate |].
    destruct (Js.includes "title" _) eqn:Htitle; [intros H; injection H as <-; simpl; tauto |].
    destruct (Js.includes "label" _); [intros H; injection H as <-; simpl; tauto |].
    destruct (Js.includes "desc" _); [intros H; injection H as <-; simpl; tauto |].
    destruct (Js.includes "header" _); [intros H; injection H as <-; simpl; tauto |].
    destruct (Js.includes "footer" _); [intros H; injection H as <-; simpl; tauto |].
    destruct (Js.includes "button" _); [intros H; injection H as <-; simpl; tauto |].
    destruct (Js.includes "caption" _); [intros H; injection H as <-; simpl; tauto |].
    destruct (Js.includes "subtitle" _) eqn:Hsub.
    - apply subtitle_includes_title in Hsub. congruence.
    - destruct (Js.includes "item" _); [intros H; injection H as <-; simpl; tauto |].
      discriminate. }
  assert (forall candidates role,
             firstRole candidates = Some role ->
             In role ["title"; "label"; "description"; "header"; "footer"; "buttonText";
                      "caption"; "itemText"]) as Hfirst.
  { induction candidates as [| str r IH]; simpl; [discriminate |].
    intros role. destruct (roleOfToken str) as [found |] eqn:Hrole; [| apply IH].
    intros H. injection H as <-. eapply Htoken; eauto. }
  unfold guessTextRoleFromClassOrId. split.
  - intros H. apply Hfirst in H. simpl in H.
    repeat (destruct H as [H | H]; [discriminate H |]). exact H.
  - intros role. apply Hfirst.
Qed.

(** ** Text and comments *)

Lemma append_assoc_string (x y z : string) : (x ++ y) ++ z = x ++ (y ++ z).
Proof. induction x as [| c r IH]; simpl; [reflexivity | now rewrite IH]. Qed.

Lemma replaceChar_app (c : ascii) (by_ a b : string) :
  Js.replaceChar c by_ (a ++ b) = Js.replaceChar c by_ a ++ Js.replaceChar c by_ b.
Proof.
  induction a as [| x r IH]; simpl; [reflexivity |].
  destruct (Ascii.eqb x c); rewrite IH; [| reflexivity].
  now rewrite append_assoc_string.
Qed.

(** X15. A text node that is not replaced by a prop and is not blank is
    rendered character by character: ['}'] becomes [{"}"}], every other
    character but ['{'] is kept, and ['{'] becomes [{"{"{"}"}], not
    [{"{"}]: the second replacement rewrites the closing brace that the
    first one has just written. *)
Theorem text_braces_replaced_twice (isComponentDefinitionBody : bool)
    (componentPropsSpec : PropsSpec) (nodePath : list PathSeg) (data : string) :
  textPropAt isComponentDefinitionBody componentPropsSpec nodePath = None ->
  Js.trim data <> "" ->
  textToJsx isComponentDefinitionBody componentPropsSpec nodePath data
  = concatMapChars braceImage data.
Proof.
  intros Hprop Hdata. unfold textToJsx. unfold textPropAt in Hprop. rewrite Hprop.
  destruct (String.eqb_spec (Js.trim data) ""); [contradiction |].
  clear. induction data as [| c r IH]; [reflexivity |].
  cbn [Js.replaceChar concatMapChars]. unfold braceImage at 1.
  destruct (Ascii.eqb_spec c "{") as [-> | Hopen].
  - rewrite replaceChar_app, IH. reflexivity.
  - cbn [Js.replaceChar]. rewrite IH.
    destruct (Ascii.eqb c "}"); reflexivity.
Qed.

Lemma text_braces_replaced_twice_witness :
  textToJsx false [] [] "a{b"
  = "a{" ++ Js.quote ++ "{" ++ Js.quote ++ "{" ++ Js.quote ++ "}" ++ Js.quote ++ "}b".
Proof.
  exact (text_braces_replaced_twice false [] [] "a{b" eq_refl ltac:(discriminate)).
Defined.

Lemma escapeCommentEnd_head (s : string) :
  match escapeCommentEnd s with
  | String e _ => e = "/"%char -> match s with String c _ => c = "/"%char | EmptyString => False end
  | EmptyString => True
  end.
Proof.
  destruct s as [| c r]; simpl; [exact I |].
  destruct (Ascii.eqb_spec c "*") as [-> | Hc]; [| auto].
  destruct r as [| d r']; [discriminate |].
  destruct (Ascii.eqb d "/"); simpl; discriminate.
Qed.

Lemma escapeCommentEnd_pair (c d : ascii) (r : string) :
  escapeCommentEnd (String c (String d r))
  = if Ascii.eqb c "*"
    then if Ascii.eqb d "/" then "*\/" ++ escapeCommentEnd r
         else String c (escapeCommentEnd (String d r))
    else String c (escapeCommentEnd (String d r)).
Proof. reflexivity. Qed.

(** X16. The text written inside a JSX comment never holds the two
    characters that end a comment: after the replacement no ['/'] follows a
    ['*'], whatever the comment node holds. *)
Theorem comment_text_cannot_end_comment (data : string) :
  hasCommentEnd (escapeCommentEnd data) = false.
Proof.
  induction data as [| c | c d r IHr IHdr] using string_pair_ind; [reflexivity | |].
  - simpl. destruct (Ascii.eqb c "*"); reflexivity.
  - rewrite escapeCommentEnd_pair.
    destruct (Ascii.eqb_spec c "*") as [-> | Hc].
    + destruct (Ascii.eqb_spec d "/") as [-> | Hd].
      * change ("*\/" ++ escapeCommentEnd r)
          with (String "*" (String Js.backslash (String "/" (escapeCommentEnd r)))).
        revert IHr. generalize (escapeCommentEnd r) as k. intros k Hk.
        cbn [hasCommentEnd]. destruct k as [| e t]; [reflexivity |].
        rewrite Hk. reflexivity.
      * pose proof (escapeCommentEnd_head (String d r)) as Hhead.
        revert IHdr Hhead. generalize (escapeCommentEnd (String d r)) as k.
        intros k Hk Hhead. cbn [hasCommentEnd]. destruct k as [| e t]; [reflexivity |].
        rewrite Hk. destruct (Ascii.eqb_spec e "/") as [He | He]; [| reflexivity].
        elim Hd. exact (Hhead He).
    + revert IHdr. generalize (escapeCommentEnd (String d r)) as k. intros k Hk.
      cbn [hasCommentEnd]. destruct k as [| e t]; [reflexivity |].
      rewrite Hk. destruct (Ascii.eqb_spec c "*"); [contradiction | reflexivity].
Qed.

(** ** What rendering does not depend on *)

Lemma mapGen_ext {A B : Type} (f g : A -> Gen B) (l : list A) :
  Forall (fun a => f a = g a) l -> mapGen f l = mapGen g l.
Proof. induction 1 as [| a r Ha _ IH]; simpl; [reflexivity | now rewrite Ha, IH]. Qed.

Lemma mapiGen_ext {A B : Type} (f g : A -> nat -> Gen B) (l : list A) :
  Forall (fun a => forall i, f a i = g a i) l -> forall i, mapiGen f l i = mapiGen g l i.
Proof.
  induction 1 as [| a r Ha _ IH]; simpl; intros i; [reflexivity | now rewrite Ha, IH].
Qed.

(** X17. The [depth] argument never reaches the output: a node is
    rendered to the same text, with the same effects, at every depth. *)
Theorem rendering_ignores_depth (E : Env) (node : Node) :
  forall depth1 depth2 isComponentDefinitionBody componentPropsSpec nodePath
         localComponentRegistry templateNodeForCurrentDefinition,
    astNodeToJsx E node depth1 isComponentDefinitionBody componentPropsSpec nodePath
      localComponentRegistry templateNodeForCurrentDefinition
    = astNodeToJsx E node depth2 isComponentDefinitionBody componentPropsSpec nodePath
        localComponentRegistry templateNodeForCurrentDefinition.
Proof.
  induction node as [id type name attribs children data IH] using Node_forall_ind.
  intros depth1 depth2 isDef spec nodePath reg template. cbn [astNodeToJsx].
  assert (mapGen (fun child => astNodeToJsx E child (depth1 + 1) false [] [] reg template)
                 children
          = mapGen (fun child => astNodeToJsx E child (depth2 + 1) false [] [] reg template)
                   children) as Hcall.
  { apply mapGen_ext. eapply Forall_impl; [| exact IH]. intros child H. apply H. }
  assert (forall i,
             mapiGen (fun child j =>
                        astNodeToJsx E child (depth1 + 1) isDef spec
                          (nodePath ++ [SegChildren; SegIndex j])%list reg template)
                     children i
             = mapiGen (fun child j =>
                          astNodeToJsx E child (depth2 + 1) isDef spec
                            (nodePath ++ [SegChildren; SegIndex j])%list reg template)
                       children i) as Hbody.
  { apply mapiGen_ext. eapply Forall_impl; [| exact IH]. intros child H i. apply H. }
  rewrite Hcall, Hbody. reflexivity.
Qed.

Lemma assetWrites_app (a b : list Effect) :
  assetWrites (a ++ b) = (assetWrites a ++ assetWrites b)%list.
Proof. unfold assetWrites. apply flat_map_app. Qed.

Lemma sameOutput_refl {A : Type} (a : Gen A) : sameOutput a a.
Proof. split; reflexivity. Qed.

Lemma sameOutput_bind {A B : Type} (m1 m2 : Gen A) (k1 k2 : A -> Gen B) :
  sameOutput m1 m2 -> (forall x, sameOutput (k1 x) (k2 x)) ->
  sameOutput (bind m1 k1) (bind m2 k2).
Proof.
  intros [Hf Hs] Hk. unfold sameOutput.
  rewrite !fst_bind, !snd_bind, !assetWrites_app, Hf, Hs.
  destruct (Hk (fst m2)) as [Hkf Hks]. now rewrite Hkf, Hks.
Qed.

Lemma mapiGen_sameOutput {A B : Type} (f g : A -> nat -> Gen B) (l : list A) :
  Forall (fun a => forall i j, sameOutput (f a i) (g a j)) l ->
  forall i j, sameOutput (mapiGen f l i) (mapiGen g l j).
Proof.
  induction 1 as [| a r Ha _ IH]; simpl; intros i j; [apply sameOutput_refl |].
  apply sameOutput_bind; [apply Ha |]. intros x.
  apply sameOutput_bind; [apply IH |]. intros xs. apply sameOutput_refl.
Qed.

Lemma mapGen_sameOutput {A B : Type} (f g : A -> Gen B) (l : list A) :
  Forall (fun a => sameOutput (f a) (g a)) l -> sameOutput (mapGen f l) (mapGen g l).
Proof.
  induction 1 as [| a r Ha _ IH]; simpl; [apply sameOutput_refl |].
  apply sameOutput_bind; [apply Ha |]. intros x.
  apply sameOutput_bind; [apply IH |]. intros xs. apply sameOutput_refl.
Qed.

(** X18. Outside a definition body the props and the path play no part:
    the text and the asset writes of a rendering with
    [isComponentDefinitionBody = false] are the same for every prop spec,
    every node path and every depth; only the path quoted in the warning
    for an unhandled node kind can differ. *)
Theorem page_rendering_ignores_props (E : Env) (node : Node) :
  forall depth1 depth2 spec1 spec2 nodePath1 nodePath2 localComponentRegistry
         templateNodeForCurrentDefinition,
    sameOutput
      (astNodeToJsx E node depth1 false spec1 nodePath1 localComponentRegistry
         templateNodeForCurrentDefinition)
      (astNodeToJsx E node depth2 false spec2 nodePath2 localComponentRegistry
         templateNodeForCurrentDefinition).
Proof.
  induction node as [id type name attribs children data IH] using Node_forall_ind.
  intros depth1 depth2 spec1 spec2 path1 path2 reg template. cbn [astNodeToJsx].
  match goal with
  | |- context [if ?c then None else Reg.get ?r ?n] =>
      destruct (if c then None else Reg.get r n) as [compInfo |]
  end.
  - apply sameOutput_bind; [apply sameOutput_refl |]. intros instanceProps.
    apply sameOutput_bind; [| intros x; apply sameOutput_refl].
    destruct (Obj.has _ _); [| apply sameOutput_refl].
    apply sameOutput_bind; [| intros x; apply sameOutput_refl].
    apply mapGen_sameOutput. eapply Forall_impl; [| exact IH]. intros child H. apply H.
  - destruct (type =? "text"); [split; reflexivity |].
    destruct (type =? "comment"); [split; reflexivity |].
    destruct (_ || _); [split; reflexivity |].
    destruct (type =? "tag"); [| split; reflexivity].
    destruct (Js.toLowerCase name =? "svg"); [apply sameOutput_refl |].
    destruct (mem _ _); [split; reflexivity |].
    apply sameOutput_bind; [| intros x; split; reflexivity].
    apply sameOutput_bind; [| intros x; apply sameOutput_refl].
    apply mapiGen_sameOutput. eapply Forall_impl; [| exact IH].
    intros child H i j. apply H.
Qed.

(** ** The props of a call site *)

Lemma valueToPass_children (E : Env) (node : Node) (spec : PropSpec) :
  match fst (valueToPass E node spec) with
  | Some _ => propTypeEqb (spec_type spec) TChildren = false
  | None => propTypeEqb (spec_type spec) TChildren = true
  end.
Proof.
  unfold valueToPass. destruct (spec_type spec); try reflexivity.
  destruct (truthy _); [| reflexivity]. rewrite fst_bind. reflexivity.
Qed.

(** X19. A call site passes one value for each prop of the component that
    is not of type [children], in the order of the prop spec, and never one
    for a prop of type [children]; [instanceProps] starts empty at a call
    site, and the same holds from any props whose names are not in the spec. *)
Theorem call_site_passes_each_prop_once (E : Env) (node : Node) (propsSpec : PropsSpec) :
  forall acc,
    NoDup (Obj.keys acc ++ Obj.keys propsSpec) ->
    Obj.keys (fst (instancePropsOf E node propsSpec acc))
    = (Obj.keys acc
       ++ Obj.keys (filter (fun entry => negb (isChildrenProp entry)) propsSpec))%list.
Proof.
  induction propsSpec as [| [k spec] rest IH]; intros acc Hnd.
  - simpl. now rewrite app_nil_r.
  - cbn [instancePropsOf]. rewrite fst_bind.
    pose proof (valueToPass_children E node spec) as Hv.
    cbn [filter]. unfold isChildrenProp at 1. cbn [snd].
    assert (~ In k (Obj.keys acc)) as Hfresh.
    { simpl in Hnd. apply NoDup_remove_2 in Hnd. intros Hin. apply Hnd.
      apply in_or_app. now left. }
    destruct (fst (valueToPass E node spec)) as [value |]; rewrite Hv; cbn [negb].
    + rewrite IH.
      * rewrite (set_fresh _ _ _ Hfresh), keys_app. simpl. now rewrite <- app_assoc.
      * rewrite (set_fresh _ _ _ Hfresh), keys_app. simpl. now rewrite <- app_assoc.
    + apply IH. simpl in Hnd. now apply NoDup_remove_1 in Hnd.
Qed.

Lemma call_site_passes_each_prop_once_witness :
  Obj.keys (fst (instancePropsOf sampleEnv (titledCard 10 "One" "Two")
                   [("title", mkPropSpec TTextChild
                                [SegChildren; SegIndex 0; SegChildren; SegIndex 0] []);
                    ("children", mkPropSpec TChildren [SegChildren] [])] []))
  = ["title"].
Proof.
  apply (call_site_passes_each_prop_once sampleEnv (titledCard 10 "One" "Two")
           [("title", mkPropSpec TTextChild
                        [SegChildren; SegIndex 0; SegChildren; SegIndex 0] []);
            ("children", mkPropSpec TChildren [SegChildren] [])] []).
  repeat constructor; simpl; intuition discriminate.
Defined.

(** ** The rename of [viewbox], again *)

Lemma get_delete_other {A : Type} (o : list (string * A)) (k k' : string) :
  k <> k' -> Obj.get (Obj.delete o k) k' = Obj.get o k'.
Proof.
  intros Hne. induction o as [| [x v] o IH]; simpl; [reflexivity |].
  destruct (String.eqb_spec x k) as [-> | Hx]; simpl.
  - destruct (String.eqb_spec k k'); [contradiction | exact IH].
  - now rewrite IH.
Qed.

(** X20. The rename applied to an icon before it is serialized: a
    non-empty [viewbox] attribute is removed and its value is found under
    [viewBox] (replacing a [viewBox] the icon already had), every other
    attribute keeps its value, and attributes without a non-empty [viewbox]
    are left as they are. *)
Theorem viewbox_is_renamed (attribs : list (string * string)) :
  match Obj.get attribs "viewbox" with
  | Some v =>
      if Js.nonEmpty v
      then Obj.get (normalizeViewBox attribs) "viewbox" = None
           /\ Obj.get (normalizeViewBox attribs) "viewBox" = Some v
           /\ forall k, k <> "viewbox" -> k <> "viewBox" ->
                        Obj.get (normalizeViewBox attribs) k = Obj.get attribs k
      else normalizeViewBox attribs = attribs
  | None => normalizeViewBox attribs = attribs
  end.
Proof.
  unfold normalizeViewBox.
  destruct (Obj.get attribs "viewbox") as [v |] eqn:Hget; [| reflexivity].
  destruct (Js.nonEmpty v); [| reflexivity].
  split; [apply get_delete_same |]. split.
  - rewrite get_delete_other by discriminate. apply get_set_same.
  - intros k Hk1 Hk2. rewrite get_delete_other by congruence.
    apply get_set_other. congruence.
Qed.

(** ** The children prop *)

Lemma collectPaths_types (E : Env) (node : Node) :
  forall currentPath,
    Forall (fun e => propTypeEqb (em_type e) TChildren = false)
           (collectPaths E node currentPath).
Proof.
  induction node as [id type name attribs children data IH] using Node_forall_ind.
  intros currentPath. cbn [collectPaths].
  destruct (isSvgTag _); [repeat constructor |].
  apply Forall_app. split.
  - apply Forall_map. apply Forall_forall. intros k _. reflexivity.
  - generalize 0 as i. induction IH as [| child rest Hchild _ IHrest]; intros i;
      [constructor |].
    apply Forall_app. split; [| apply IHrest].
    destruct (_ && _); [repeat constructor |].
    destruct (node_type child =? "tag"); [apply Hchild | constructor].
Qed.

Lemma addValue_types (dp : list (string * Differing)) (key v : string) :
  Forall (fun kv => propTypeEqb (diff_type (snd kv)) TChildren = false) dp ->
  Forall (fun kv => propTypeEqb (diff_type (snd kv)) TChildren = false) (addValue dp key v).
Proof.
  intros H. unfold addValue.
  destruct (Obj.get dp key) as [d |] eqn:Hget; [| exact H].
  apply (set_Forall (fun d => propTypeEqb (diff_type d) TChildren = false)); [exact H |].
  exact (get_Forall (fun d => propTypeEqb (diff_type d) TChildren = false) _ _ _ H Hget).
Qed.

Lemma recordDifference_types (tv : list (string * (string * PropType)))
    (dp : list (string * Differing)) (e : Emission) :
  propTypeEqb (em_type e) TChildren = false ->
  Forall (fun kv => propTypeEqb (diff_type (snd kv)) TChildren = false) dp ->
  Forall (fun kv => propTypeEqb (diff_type (snd kv)) TChildren = false)
         (recordDifference tv dp e).
Proof.
  intros He H. unfold recordDifference.
  assert (Forall (fun kv => propTypeEqb (diff_type (snd kv)) TChildren = false)
                 (if Obj.has dp (pathStr (em_path e)) then dp
                  else Obj.set dp (pathStr (em_path e))
                         (mkDiffering (em_type e) [] (em_path e)))) as H1.
  { destruct (Obj.has dp _); [exact H |].
    apply (set_Forall (fun d => propTypeEqb (diff_type d) TChildren = false)); auto. }
  destruct (Obj.get tv _) as [[t ty] |].
  - destruct (negb _); [| exact H]. now repeat apply addValue_types.
  - now apply addValue_types.
Qed.

Lemma computeDifferingPaths_types (E : Env) (templateNode : Node) (instances : list Node) :
  Forall (fun kv => propTypeEqb (diff_type (snd kv)) TChildren = false)
         (computeDifferingPaths E templateNode instances).
Proof.
  unfold computeDifferingPaths.
  generalize (@nil (string * Differing)) (Forall_nil
    (fun kv : string * Differing => propTypeEqb (diff_type (snd kv)) TChildren = false)).
  induction instances as [| i rest IH]; intros dp Hdp; [exact Hdp |].
  simpl. apply IH. destruct (sameNode i templateNode); [exact Hdp |].
  pose proof (collectPaths_types E i []) as Hes. revert dp Hdp.
  induction Hes as [| e es He _ IHes]; intros dp Hdp; [exact Hdp |].
  simpl. apply IHes. now apply recordDifference_types.
Qed.

(** X21. Prop inference adds a prop of type [children] exactly when some
    instance's sequence of child signatures differs from the template's;
    the props inferred from differing paths are never of that type, and the
    one added has the path [children] and the name [children], or
    [children] with the first free suffix when that name is taken. *)
Theorem children_prop_iff_structure_differs (E : Env) (templateNode : Node)
    (instances : list Node) (spec : PropsSpec) :
  analyzeInstancesForProps E templateNode instances = Some spec ->
  existsb isChildrenProp spec = instancesHaveDifferentChildStructure templateNode instances
  /\ forall name p,
       In (name, p) spec -> isChildrenProp (name, p) = true ->
       spec_path p = [SegChildren]
       /\ name = generatePropName "children"
                   (Obj.keys (filter (fun entry => negb (isChildrenProp entry)) spec)).
Proof.
  unfold analyzeInstancesForProps.
  destruct (nameAll templateNode (mkNaming 0 [] []) _) as [st |] eqn:Hname; [| discriminate].
  assert (namingInvariant (mkNaming 0 [] [])) as Hinit by (split; [reflexivity | constructor]).
  destruct (nameAll_invariant _ _ _ _ Hinit Hname) as [[Hex Hnd] Hvals].
  simpl in Hvals.
  assert (Forall (fun entry => isChildrenProp entry = false) (propsSpecSoFar st)) as Hnone.
  { assert (Forall (fun p => propTypeEqb (spec_type p) TChildren = false)
                   (Obj.values (propsSpecSoFar st))) as Hv.
    { rewrite Hvals. apply Forall_map. unfold Obj.values. apply Forall_map.
      exact (computeDifferingPaths_types E templateNode instances). }
    unfold Obj.values in Hv. now apply Forall_map in Hv. }
  assert (existsb isChildrenProp (propsSpecSoFar st) = false) as Hex0.
  { clear - Hnone. induction Hnone as [| x l Hx _ IH]; simpl; [reflexivity |].
    now rewrite Hx, IH. }
  assert (filter (fun entry => negb (isChildrenProp entry)) (propsSpecSoFar st)
          = propsSpecSoFar st) as Hfilter.
  { clear - Hnone. induction Hnone as [| x l Hx _ IH]; simpl; [reflexivity |].
    now rewrite Hx, IH. }
  assert (existsb (fun p => propTypeEqb (spec_type p) TChildren)
                  (Obj.values (propsSpecSoFar st)) = false) as Hex1.
  { clear - Hnone. induction Hnone as [| x l Hx _ IH]; simpl; [reflexivity |].
    unfold isChildrenProp in Hx. now rewrite Hx, IH. }
  rewrite Hex1, andb_true_r.
  destruct (instancesHaveDifferentChildStructure templateNode instances); intros H;
    injection H as <-.
  - pose proof (generatePropName_fresh "children" (existingPropNames st)) as Hfresh.
    rewrite Hex in *. rewrite (set_fresh _ _ _ Hfresh).
    split.
    + rewrite existsb_app, Hex0. reflexivity.
    + intros name p Hin Hchild. apply in_app_or in Hin. destruct Hin as [Hin | Hin].
      * rewrite Forall_forall in Hnone. rewrite (Hnone _ Hin) in Hchild. discriminate.
      * destruct Hin as [Heq | []]. injection Heq as <- <-.
        split; [reflexivity |].
        rewrite filter_app, Hfilter. simpl. now rewrite app_nil_r.
  - split; [exact Hex0 |].
    intros name p Hin Hchild.
    rewrite Forall_forall in Hnone. rewrite (Hnone _ Hin) in Hchild. discriminate.
Qed.

Lemma children_prop_iff_structure_differs_witness :
  let template := titledCard 10 "One" "Two" in
  let instances := [template; shapeEl 30 "div" [("class", "card")] []] in
  exists spec,
    analyzeInstancesForProps sampleEnv template instances = Some spec
    /\ existsb isChildrenProp spec = true.
Proof.
  intros template instances.
  destruct (analyzeInstancesForProps sampleEnv template instances) as [spec |] eqn:Hrun.
  - exists spec. split; [reflexivity |].
    rewrite (proj1 (children_prop_iff_structure_differs sampleEnv template instances spec
                      Hrun)).
    reflexivity.
  - vm_compute in Hrun. discriminate Hrun.
Defined.

(** ** Witnesses of earlier lemmas *)

Lemma registry_holds_elements_witness :
  exists ex,
    identifyComponents sampleEnv cardsBody [] emptyGlobal = Some ex
    /\ length (ex_registry ex) = 2
    /\ Forall (fun entry => isElement (fst entry)) (ex_registry ex).
Proof.
  destruct (identifyComponents sampleEnv cardsBody [] emptyGlobal) as [ex |] eqn:Hrun.
  - exists ex. split; [reflexivity |]. split.
    + vm_compute in Hrun. injection Hrun as <-. reflexivity.
    + exact (registry_holds_elements sampleEnv cardsBody emptyGlobal ex Hrun).
  - vm_compute in Hrun. discriminate Hrun.
Defined.

Lemma recorded_values_observed_witness :
  observed sampleEnv (titledCard 10 "One" "Two")
           [titledCard 10 "One" "Two"; titledCard 20 "Three" "Four"]
           "children.0.children.0" "Three".
Proof.
  apply (recorded_values_observed sampleEnv (titledCard 10 "One" "Two")
           [titledCard 10 "One" "Two"; titledCard 20 "Three" "Four"]
           "children.0.children.0" "Three").
  vm_compute. eexists. split; [reflexivity |]. simpl. tauto.
Defined.

(** ** Fingerprints and names *)

(** X24. The fingerprint of a component depends on the text of its body
    and on the set of its prop names only: prop specs with the same names,
    in any order and with any types, paths and values, give the same
    fingerprint. *)
Theorem fingerprint_ignores_prop_details (E : Env) (jsxBody : string)
    (propsSpec1 propsSpec2 : PropsSpec) :
  Permutation (Obj.keys propsSpec1) (Obj.keys propsSpec2) ->
  generateComponentFingerprint E jsxBody propsSpec1
  = generateComponentFingerprint E jsxBody propsSpec2.
Proof.
  intros Hperm. unfold generateComponentFingerprint.
  rewrite (sort_permutation _ _ Hperm). reflexivity.
Qed.

Lemma fingerprint_ignores_prop_details_witness :
  generateComponentFingerprint sampleEnv "<p>{title}{label}</p>"
    [("title", mkPropSpec TTextChild [SegChildren; SegIndex 0] ["a"]);
     ("label", mkPropSpec TTextChild [SegChildren; SegIndex 1] ["b"])]
  = generateComponentFingerprint sampleEnv "<p>{title}{label}</p>"
      [("label", mkPropSpec TAttribute [SegAttribs; SegKey "x"] []);
       ("title", mkPropSpec TSvg [] [])].
Proof.
  apply fingerprint_ignores_prop_details. simpl. apply perm_swap.
Defined.

Lemma camelRuns_nonempty (s : string) :
  forall pending, (pending <> "" \/ s <> "") -> camelRuns pending s <> "".
Proof.
  induction s as [| c r IH]; intros pending H; simpl.
  - destruct H as [H | H]; [exact H | contradiction].
  - destruct (isSepChar c).
    + apply IH. left. destruct pending; discriminate.
    + destruct (Js.nonEmpty pending && Js.isAlnum c); [discriminate |].
      destruct pending; discriminate.
Qed.

Lemma toCamelCase_nonempty (s : string) : s <> "" -> Js.nonEmpty (toCamelCase s) = true.
Proof.
  intros Hs. unfold toCamelCase.
  pose proof (camelRuns_nonempty s "" (or_intror Hs)) as H.
  destruct (camelRuns "" s) as [| c r]; [contradiction |].
  simpl. destruct (Js.isUpper c); reflexivity.
Qed.

(** X25. A differing text whose parent element has a tag name never gets a
    counter name: its base name is the role guessed from the parent's id
    and classes or, without one, the camel case of the tag name followed by
    "Text", which is never empty; the counter is left as it is. *)
Theorem named_parent_needs_no_counter (parent : Node) (propCounter : nat) :
  node_name parent <> "" ->
  textBaseName (VNode parent) propCounter
  = Some (match guessTextRoleFromClassOrId (node_attribs parent) with
          | Some role => role
          | None => toCamelCase (node_name parent ++ "Text")
          end, propCounter).
Proof.
  intros Hname. unfold textBaseName.
  destruct (guessTextRoleFromClassOrId (node_attribs parent)); [reflexivity |].
  assert (Js.nonEmpty (node_name parent) = true) as ->.
  { unfold Js.nonEmpty. destruct (String.eqb_spec (node_name parent) ""); auto. }
  rewrite toCamelCase_nonempty; [reflexivity |].
  destruct (node_name parent); discriminate.
Qed.

Lemma named_parent_needs_no_counter_witness :
  textBaseName (VNode (shapeEl 1 "h2" [("class", "big")] [])) 7 = Some ("h2Text", 7).
Proof.
  exact (named_parent_needs_no_counter (shapeEl 1 "h2" [("class", "big")] []) 7
           ltac:(discriminate)).
Defined.

Lemma wellNamed_app (a b : string) :
  wellNamed a = true -> allChars Js.isAlnum b = true -> wellNamed (a ++ b) = true.
Proof.
  unfold wellNamed. intros Ha Hb. apply andb_prop in Ha. destruct Ha as [Hall Hstart].
  rewrite allChars_app, Hall, Hb. destruct a; [discriminate Hstart | exact Hstart].
Qed.

Lemma toPascalCase_wellNamed (str : string) : wellNamed (toPascalCase str) = true.
Proof.
  unfold wellNamed. destruct (toPascalCase_alnum str) as [-> ->]. reflexivity.
Qed.

Lemma repetitionBaseName_wellNamed (node : Node) : wellNamed (repetitionBaseName node) = true.
Proof.
  unfold repetitionBaseName.
  match goal with
  | |- wellNamed (if _ then _ else ?b) = true =>
      assert (wellNamed b = true) as Hbase
  end.
  { destruct (Obj.get (node_attribs node) "class") as [c |].
    - destruct (filter Js.nonEmpty (Js.splitWs (Js.trim c))) as [| first rest];
        [| apply toPascalCase_wellNamed].
      destruct (Obj.get (node_attribs node) "id") as [i |]; [| reflexivity].
      destruct (Js.nonEmpty i); [apply toPascalCase_wellNamed | reflexivity].
    - destruct (Obj.get (node_attribs node) "id") as [i |]; [| reflexivity].
      destruct (Js.nonEmpty i); [apply toPascalCase_wellNamed | reflexivity]. }
  destruct (_ || _); [| exact Hbase].
  apply wellNamed_app; [apply toPascalCase_wellNamed | reflexivity].
Qed.

Lemma repetitionCandidates_names (E : Env) (reg : Registry)
    (groups : list (list (Node * list PathSeg))) (cs : list Candidate) :
  repetitionCandidates E reg groups = Some cs ->
  Forall (fun c => exists node, nameAttempt c = repetitionBaseName node ++ "Item") cs.
Proof.
  revert cs. induction groups as [| g rest IH]; simpl; intros cs H.
  - injection H as <-. constructor.
  - destruct (repetitionCandidate E reg g) as [c1 |] eqn:Hc1; [| discriminate].
    destruct (repetitionCandidates E reg rest) as [more |]; [| discriminate].
    injection H as <-. apply Forall_app. split; [| now apply IH].
    unfold repetitionCandidate in Hc1.
    destruct (_ <=? _)%nat; [| injection Hc1 as <-; constructor].
    destruct g as [| [first p] g']; [discriminate |].
    destruct (isNodeAlreadyComponentPart first reg); [injection Hc1 as <-; constructor |].
    destruct (analyzeInstancesForProps E first _); [| discriminate].
    injection Hc1 as <-. constructor; [| constructor]. exists first. reflexivity.
Qed.

(** X26. Every name the detector proposes for a component consists of
    ASCII letters and digits only and starts with an upper-case letter or
    with a digit: a class or id that starts with a digit gives a component
    name that starts with that digit. *)
Theorem candidate_names_are_alphanumeric (E : Env) (bodyNode : Node) (reg : Registry)
    (candidates : list Candidate) :
  componentCandidates E bodyNode reg = Some candidates ->
  Forall (fun c => wellNamed (nameAttempt c) = true) candidates.
Proof.
  unfold componentCandidates, componentCandidatesWith.
  destruct (repetitionCandidates E reg _) as [repetition |] eqn:Hrep; [| discriminate].
  intros H. injection H as <-.
  apply Forall_forall. intros c Hc.
  apply sortCandidates_In, in_app_or in Hc. destruct Hc as [Hc | Hc].
  - unfold layoutCandidates in Hc.
    apply in_flat_map in Hc. destruct Hc as [identifier [_ Hc]].
    apply in_flat_map in Hc. destruct Hc as [node [_ Hc]].
    destruct (negb _); [| destruct Hc]. destruct Hc as [<- | []].
    cbn [nameAttempt]. apply wellNamed_app; [apply toPascalCase_wellNamed | reflexivity].
  - pose proof (repetitionCandidates_names _ _ _ _ Hrep) as Hall.
    rewrite Forall_forall in Hall. destruct (Hall c Hc) as [node ->].
    apply wellNamed_app; [apply repetitionBaseName_wellNamed | reflexivity].
Qed.

Lemma candidate_names_are_alphanumeric_witness :
  let body := shapeEl 0 "body" []
                [shapeEl 1 "div" [("class", "3-col")]
                   [shapeEl 2 "p" [] []; shapeEl 3 "p" [] []];
                 shapeEl 4 "div" [("class", "3-col")]
                   [shapeEl 5 "p" [] []; shapeEl 6 "p" [] []]] in
  exists candidates,
    componentCandidates sampleEnv body [] = Some candidates
    /\ map nameAttempt candidates = ["3colItem"]
    /\ Forall (fun c => wellNamed (nameAttempt c) = true) candidates.
Proof.
  intros body.
  destruct (componentCandidates sampleEnv body []) as [candidates |] eqn:Hrun.
  - exists candidates. split; [reflexivity |]. split.
    + vm_compute in Hrun. injection Hrun as <-. reflexivity.
    + exact (candidate_names_are_alphanumeric sampleEnv body [] candidates Hrun).
  - vm_compute in Hrun. discriminate Hrun.
Defined.

(** ** Where registry entries come from *)

Lemma Reg_set_entryFrom (candidates : list Candidate) (reg : Registry) (c : Candidate)
    (n : Node) (name : string) :
  In c candidates -> In n (instances c) ->
  Forall (entryFrom candidates) reg ->
  Forall (entryFrom candidates) (Reg.set reg n (mkCompInfo name (astNode c) (propsSpec c))).
Proof.
  intros Hc Hn Hreg.
  induction Hreg as [| [k i] r Hk Hr IH]; simpl.
  - constructor; [| constructor]. exists c, n. simpl. unfold sameNode.
    rewrite Nat.eqb_refl. auto.
  - destruct (sameNode k n) eqn:Hsame; constructor; auto.
    exists c, n. simpl. auto.
Qed.

Lemma extraction_entryFrom (E : Env) (candidates : list Candidate) :
  forall rest st,
    incl rest candidates ->
    Forall (entryFrom candidates) (ex_registry st) ->
    Forall (entryFrom candidates) (ex_registry (fold_left (extractCandidate E) rest st)).
Proof.
  induction rest as [| c rest IH]; intros st Hincl Hst; [exact Hst |].
  simpl. apply IH; [intros x Hx; apply Hincl; now right |].
  assert (exists name,
             ex_registry (extractCandidate E st c)
             = registerInstances (ex_registry st) c name) as [name ->].
  { rewrite extractCandidate_unfold. eexists. reflexivity. }
  unfold registerInstances.
  assert (forall l reg,
             incl l (instances c) ->
             Forall (entryFrom candidates) reg ->
             Forall (entryFrom candidates)
                    (fold_left
                       (fun r instanceNode =>
                          Reg.set r instanceNode (mkCompInfo name (astNode c) (propsSpec c)))
                       l reg)) as Hfold.
  { induction l as [| n l IHl]; intros reg Hl Hreg; [exact Hreg |].
    simpl. apply IHl; [intros x Hx; apply Hl; now right |].
    apply Reg_set_entryFrom; auto; [apply Hincl | apply Hl]; now left. }
  apply Hfold; [apply incl_refl | exact Hst].
Qed.

(** X27. Every entry of the per-tree registry comes from a detected
    candidate: its key is one of the candidate's instances and the template
    and prop spec it records are the candidate's, so a call site reads its
    props from the spec inferred for the group the node belongs to. *)
Theorem registry_entries_come_from_candidates (E : Env) (bodyNode : Node)
    (g : GlobalState) (ex : Extraction) :
  identifyComponents E bodyNode [] g = Some ex ->
  exists candidates,
    componentCandidates E bodyNode [] = Some candidates
    /\ Forall (entryFrom candidates) (ex_registry ex).
Proof.
  unfold identifyComponents.
  destruct (componentCandidates E bodyNode []) as [candidates |]; [| discriminate].
  intros H. injection H as <-. exists candidates. split; [reflexivity |].
  apply extraction_entryFrom; [apply incl_refl | constructor].
Qed.

Lemma registry_entries_come_from_candidates_witness :
  exists ex candidates,
    identifyComponents sampleEnv cardsBody [] emptyGlobal = Some ex
    /\ componentCandidates sampleEnv cardsBody [] = Some candidates
    /\ length (ex_registry ex) = 2
    /\ Forall (entryFrom candidates) (ex_registry ex).
Proof.
  destruct (identifyComponents sampleEnv cardsBody [] emptyGlobal) as [ex |] eqn:Hrun.
  - destruct (registry_entries_come_from_candidates sampleEnv cardsBody emptyGlobal ex Hrun)
      as [candidates [Hc Hall]].
    exists ex, candidates. split; [reflexivity |]. split; [exact Hc |]. split; [| exact Hall].
    vm_compute in Hrun. injection Hrun as <-. reflexivity.
  - vm_compute in Hrun. discriminate Hrun.
Defined.

(** ** Icons are not taken apart *)

Lemma outsideIcons_self (n : Node) : In n (outsideIcons n).
Proof. destruct n. simpl. now left. Qed.

Lemma findRepetitiveWith_outsideIcons (eligible : Node -> bool) (E : Env) (root : Node) :
  forall node currentPath st,
    incl (outsideIcons node) (outsideIcons root) ->
    groupsSatisfy (fun x => In x (outsideIcons root)) st ->
    groupsSatisfy (fun x => In x (outsideIcons root))
                  (findRepetitiveWith eligible E node currentPath st).
Proof.
  intros node.
  induction node as [id type name attribs children data IH] using Node_forall_ind.
  intros currentPath st Hincl Hst. cbn [findRepetitiveWith].
  destruct (existsb (Nat.eqb id) (processedForRepetition st)); [exact Hst |].
  unfold groupsSatisfy, markProcessed. cbn [signatures].
  assert (In (mkNode id type name attribs children data) (outsideIcons root)) as Hnode.
  { apply Hincl. apply outsideIcons_self. }
  assert (forall child, In child children -> isSvgTag child = false ->
                        incl (outsideIcons child) (outsideIcons root)) as Hchildren.
  { intros child Hin Hsvg x Hx. apply Hincl. cbn [outsideIcons]. right.
    apply in_flat_map. exists child. split; [exact Hin |]. now rewrite Hsvg. }
  clear Hincl.
  match goal with
  | |- Forall _ (signatures (_ children 0 ?s0)) =>
      assert (groupsSatisfy (fun x => In x (outsideIcons root)) s0) as Hs0;
        [| revert Hs0; generalize s0 as s; generalize 0 as i]
  end.
  - destruct (eligible _ && _); [| exact Hst].
    unfold groupsSatisfy, recordSignature. cbn [signatures].
    destruct (Obj.get (signatures st) _) as [group |] eqn:Hget.
    + apply (set_Forall (Forall (fun np => In (fst np) (outsideIcons root))));
        [exact Hst |].
      apply Forall_app. split.
      * exact (get_Forall (Forall (fun np => In (fst np) (outsideIcons root))) _ _ _ Hst Hget).
      * repeat constructor. exact Hnode.
    + apply (set_Forall (Forall (fun np => In (fst np) (outsideIcons root))));
        [exact Hst |].
      repeat constructor. exact Hnode.
  - clear Hnode. induction IH as [| child rest Hchild _ IHrest]; intros i s Hs; [exact Hs |].
    apply IHrest; [intros c Hc; apply Hchildren; now right |].
    destruct (isSvgTag child) eqn:Hsvg; [exact Hs |].
    apply Hchild; [| exact Hs]. apply Hchildren; [now left | exact Hsvg].
Qed.

(** X28. Repetition never takes an icon apart: every instance of a
    repetition candidate is reached from the body without entering an [svg]
    element, so the elements inside an icon are never made components by
    repetition. *)
Theorem repetition_stays_outside_icons (E : Env) (bodyNode : Node) (reg : Registry)
    (candidates : list Candidate) :
  componentCandidates E bodyNode reg = Some candidates ->
  Forall (fun c => cand_type c = Repetition ->
                   Forall (fun n => In n (outsideIcons bodyNode)) (instances c))
         candidates.
Proof.
  unfold componentCandidates, componentCandidatesWith.
  destruct (repetitionCandidates E reg _) as [repetition |] eqn:Hrep; [| discriminate].
  intros H. injection H as <-.
  apply Forall_forall. intros c Hc.
  apply sortCandidates_In, in_app_or in Hc. destruct Hc as [Hc | Hc].
  - unfold layoutCandidates in Hc.
    apply in_flat_map in Hc. destruct Hc as [identifier [_ Hc]].
    apply in_flat_map in Hc. destruct Hc as [node [_ Hc]].
    destruct (negb _); [| destruct Hc]. destruct Hc as [<- | []].
    intros Htype. discriminate Htype.
  - intros _.
    assert (Forall (fun c => Forall (fun n => In n (outsideIcons bodyNode)) (instances c))
                   repetition) as Hall.
    { eapply (repetitionCandidates_instances
                (fun n => In n (outsideIcons bodyNode)) E reg); [| exact Hrep].
      assert (groupsSatisfy (fun x => In x (outsideIcons bodyNode))
                (findRepetitive E reg bodyNode [] (mkRepetitions [] []))) as Hgroups.
      { apply findRepetitiveWith_outsideIcons; [apply incl_refl | constructor]. }
      unfold groupsSatisfy in Hgroups. unfold Obj.values.
      apply Forall_map. exact Hgroups. }
    rewrite Forall_forall in Hall. exact (Hall c Hc).
Qed.

Lemma repetition_stays_outside_icons_witness :
  let icon id := shapeEl id "svg" []
                   [shapeEl (id + 1) "g" [] [shapeEl (id + 2) "path" [] [];
                                              shapeEl (id + 3) "path" [] []];
                    shapeEl (id + 4) "g" [] [shapeEl (id + 5) "path" [] [];
                                              shapeEl (id + 6) "path" [] []]] in
  let box id := shapeEl id "div" [] [shapeEl (id + 1) "p" [] []; shapeEl (id + 2) "p" [] []] in
  let body := shapeEl 0 "body" [] [icon 10; icon 20; box 30; box 40] in
  exists candidates,
    componentCandidates sampleEnv body [] = Some candidates
    /\ map nameAttempt candidates = ["ReusableItem"]
    /\ Forall (fun c => cand_type c = Repetition ->
                        Forall (fun n => In n (outsideIcons body)) (instances c))
              candidates.
Proof.
  intros icon box body.
  destruct (componentCandidates sampleEnv body []) as [candidates |] eqn:Hrun.
  - exists candidates. split; [reflexivity |]. split.
    + vm_compute in Hrun. injection Hrun as <-. reflexivity.
    + exact (repetition_stays_outside_icons sampleEnv body [] candidates Hrun).
  - vm_compute in Hrun. discriminate Hrun.
Defined.

(** ** Reading a signature back *)

Lemma unique_split (p : ascii -> bool) :
  forall a1 a2 r1 r2,
    allChars (fun c => negb (p c)) a1 = true ->
    allChars (fun c => negb (p c)) a2 = true ->
    beginsWith p r1 = true -> beginsWith p r2 = true ->
    a1 ++ r1 = a2 ++ r2 -> a1 = a2 /\ r1 = r2.
Proof.
  induction a1 as [| c a1 IH]; intros a2 r1 r2 H1 H2 Hr1 Hr2 Heq.
  - destruct a2 as [| d a2]; [split; [reflexivity | exact Heq] |].
    simpl in Heq. subst r1. simpl in Hr1, H2. rewrite Hr1 in H2. discriminate H2.
  - destruct a2 as [| d a2].
    + simpl in Heq. subst r2. simpl in Hr2, H1. rewrite Hr2 in H1. discriminate H1.
    + simpl in Heq. injection Heq as -> Heq. simpl in H1, H2.
      apply andb_prop in H1. apply andb_prop in H2.
      destruct (IH a2 r1 r2) as [-> ->]; tauto.
Qed.

Lemma join_cons (sep x : string) (l : list string) :
  Js.join sep (x :: l) = x ++ match l with [] => "" | _ :: _ => sep ++ Js.join sep l end.
Proof. destruct l; simpl; [now rewrite append_empty_r | reflexivity]. Qed.

Lemma allChars_join (p : ascii -> bool) (sep : string) (l : list string) :
  allChars p sep = true -> Forall (fun s => allChars p s = true) l ->
  allChars p (Js.join sep l) = true.
Proof.
  intros Hsep. induction 1 as [| x r Hx Hr IH]; [reflexivity |].
  rewrite join_cons, allChars_app, Hx. destruct r; [reflexivity |].
  now rewrite allChars_app, Hsep, IH.
Qed.

Lemma insertSorted_perm (x : string) (l : list string) :
  Permutation (x :: l) (Js.insertSorted x l).
Proof.
  induction l as [| y r IH]; simpl; [reflexivity |].
  destruct (String.leb x y); [reflexivity |].
  rewrite perm_swap. now constructor.
Qed.

Lemma sort_perm (l : list string) : Permutation l (Js.sort l).
Proof.
  induction l as [| x r IH]; simpl; [constructor |].
  rewrite <- insertSorted_perm. now constructor.
Qed.

Lemma sort_eq_perm (l1 l2 : list string) : Js.sort l1 = Js.sort l2 -> Permutation l1 l2.
Proof.
  intros H. rewrite (sort_perm l1), H. symmetry. apply sort_perm.
Qed.

(** Joining is injective on non-empty lists of strings without the separator. *)
Lemma join_inj (sep : ascii) :
  forall l1 l2,
    l1 <> [] -> l2 <> [] ->
    Forall (fun s => allChars (isNot sep) s = true) l1 ->
    Forall (fun s => allChars (isNot sep) s = true) l2 ->
    Js.join (String sep "") l1 = Js.join (String sep "") l2 -> l1 = l2.
Proof.
  induction l1 as [| x r1 IH]; intros l2 Hn1 Hn2 H1 H2 Heq; [contradiction |].
  destruct l2 as [| y r2]; [contradiction |].
  rewrite !join_cons in Heq.
  inversion H1 as [| ? ? Hx Hr1]; subst. inversion H2 as [| ? ? Hy Hr2]; subst.
  assert (forall c, isNot sep c = negb (Ascii.eqb c sep)) as Hnot by reflexivity.
  assert (forall r : list string,
             beginsWith (fun c => Ascii.eqb c sep)
               match r with [] => "" | _ :: _ => String sep "" ++ Js.join (String sep "") r end
             = true) as Hbegin.
  { intros r. destruct r; simpl; [reflexivity | apply Ascii.eqb_refl]. }
  destruct (unique_split (fun c => Ascii.eqb c sep) x y _ _ Hx Hy (Hbegin r1) (Hbegin r2) Heq)
    as [-> Htail].
  f_equal. destruct r1 as [| a r1], r2 as [| b r2]; try reflexivity; try discriminate Htail.
  simpl in Htail. injection Htail as Htail.
  apply IH; auto; discriminate.
Qed.

Lemma join_inj_names (sep : ascii) :
  forall l1 l2,
    Forall (fun s => s <> "" /\ allChars (isNot sep) s = true) l1 ->
    Forall (fun s => s <> "" /\ allChars (isNot sep) s = true) l2 ->
    Js.join (String sep "") l1 = Js.join (String sep "") l2 -> l1 = l2.
Proof.
  intros l1 l2 H1 H2 Heq.
  assert (forall l, Forall (fun s => s <> "" /\ allChars (isNot sep) s = true) l ->
                    l <> [] -> Js.join (String sep "") l <> "") as Hne.
  { intros l Hl Hnil. destruct l as [| x r]; [contradiction |].
    rewrite join_cons. inversion Hl as [| ? ? [Hx _] _]; subst.
    destruct x; [contradiction | discriminate]. }
  destruct l1 as [| x r1], l2 as [| y r2]; [reflexivity | | |].
  - exfalso. apply (Hne _ H2); [discriminate | now rewrite <- Heq].
  - exfalso. apply (Hne _ H1); [discriminate | exact Heq].
  - apply (join_inj sep); try discriminate; auto.
    + revert H1. apply Forall_impl. tauto.
    + revert H2. apply Forall_impl. tauto.
Qed.

(** ** The signature read back *)

Lemma element_signature (n : Node) (x : string) :
  isElementType (node_type n) = true ->
  getStructuralSignature n ++ x
  = node_name n
    ++ String "[" ((Js.join "," (Js.sort (Obj.keys (node_attribs n)))
                    ++ classAttr (node_attribs n))
                   ++ String "]" (String "(" (childrenSignature n ++ String ")" x))).
Proof.
  intros Hel. rewrite signature_unfold, Hel, (element_not_leaf _ Hel).
  unfold childrenSignature.
  rewrite !append_assoc_string. reflexivity.
Qed.

Lemma plain_not (d : ascii) (s : string) :
  isDelimiter d = true -> plainName s = true -> allChars (isNot d) s = true.
Proof.
  intros Hd. apply allChars_impl. intros c Hc. unfold isNot.
  destruct (Ascii.eqb_spec c d) as [-> | _]; [| reflexivity].
  rewrite Hd in Hc. discriminate Hc.
Qed.

Lemma delimiterFree_element (n : Node) :
  isElementType (node_type n) = true -> delimiterFree n = true ->
  plainName (node_name n) = true
  /\ Forall (fun k => k <> "" /\ plainName k = true) (Obj.keys (node_attribs n))
  /\ Forall (fun t => plainName t = true) (tokenSet n)
  /\ Forall (fun c => delimiterFree c = true) (node_children n).
Proof.
  intros Hel. destruct n as [id type name attribs children data]. simpl in Hel.
  cbn [delimiterFree node_name node_attribs node_children].
  rewrite Hel, (element_not_leaf _ Hel). intros H.
  apply andb_prop in H. destruct H as [H Hchildren].
  apply andb_prop in H. destruct H as [H Htokens].
  apply andb_prop in H. destruct H as [Hname Hkeys].
  split; [exact Hname |]. split; [| split].
  - apply Forall_forall. intros k Hk.
    rewrite forallb_forall in Hkeys. specialize (Hkeys k Hk).
    apply andb_prop in Hkeys. destruct Hkeys as [Hne Hplain]. split; [| exact Hplain].
    intros ->. discriminate Hne.
  - apply Forall_forall. rewrite forallb_forall in Htokens. exact Htokens.
  - apply Forall_forall. rewrite forallb_forall in Hchildren. exact Hchildren.
Qed.

Lemma leaf_not_element (t : string) : isLeafType t = true -> isElementType t = false.
Proof.
  intros H. destruct (isElementType t) eqn:Hel; [| reflexivity].
  rewrite (element_not_leaf _ Hel) in H. discriminate H.
Qed.

Lemma leaf_plain (t : string) : isLeafType t = true -> plainName t = true /\ t <> "".
Proof.
  unfold isLeafType. intros H.
  destruct (String.eqb_spec t "text") as [Heq | _];
    [subst t; split; [reflexivity | discriminate] |].
  destruct (String.eqb_spec t "comment") as [Heq | _];
    [subst t; split; [reflexivity | discriminate] |].
  destruct (String.eqb_spec t "directive") as [Heq | _];
    [subst t; split; [reflexivity | discriminate] |].
  discriminate H.
Qed.

(** A signature followed by the end of a child: a plain head, then a delimiter
    that tells the kind of the node. *)
Lemma signature_parts (n : Node) (x : string) :
  delimiterFree n = true -> beginsWith closesChild x = true ->
  exists h r,
    getStructuralSignature n ++ x = h ++ r
    /\ plainName h = true /\ beginsWith isDelimiter r = true
    /\ ((isLeafType (node_type n) = true /\ h = node_type n /\ r = x)
        \/ (isElementType (node_type n) = true /\ h = node_name n
            /\ r = String "[" ((Js.join "," (Js.sort (Obj.keys (node_attribs n)))
                                ++ classAttr (node_attribs n))
                               ++ String "]" (String "("
                                    (childrenSignature n ++ String ")" x))))
        \/ (isLeafType (node_type n) = false /\ isElementType (node_type n) = false
            /\ h = "UNKNOWN" /\ r = "_TYPE_" ++ node_type n ++ x)).
Proof.
  intros Hfree Hx.
  destruct (isLeafType (node_type n)) eqn:Hleaf.
  - exists (node_type n), x. rewrite signature_unfold, Hleaf.
    split; [reflexivity |]. split; [apply (leaf_plain _ Hleaf) |]. split; [| auto].
    destruct x as [| c x]; [reflexivity |]. simpl in *. unfold closesChild in Hx.
    unfold isDelimiter. destruct (Ascii.eqb c "|"), (Ascii.eqb c ")"); try discriminate Hx;
      now rewrite ?orb_true_r.
  - destruct (isElementType (node_type n)) eqn:Hel.
    + eexists _, _. split; [apply (element_signature _ _ Hel) |].
      split; [apply (delimiterFree_element _ Hel Hfree) |]. split; [reflexivity |].
      right. left. auto.
    + exists "UNKNOWN", ("_TYPE_" ++ node_type n ++ x).
      rewrite signature_unfold, Hleaf, Hel. rewrite append_assoc_string.
      split; [reflexivity |]. split; [reflexivity |]. split; [reflexivity |].
      right. right. auto.
Qed.

Lemma signature_begins (n : Node) :
  delimiterFree n = true ->
  exists c r, getStructuralSignature n = String c r /\ closesChild c = false.
Proof.
  intros Hfree.
  destruct (signature_parts n "" Hfree eq_refl) as [h [r [Heq [Hplain [_ Hkind]]]]].
  rewrite append_empty_r in Heq. rewrite Heq.
  assert (forall c, negb (isDelimiter c) = true -> closesChild c = false) as Hc.
  { intros c. unfold isDelimiter, closesChild.
    destruct (Ascii.eqb c "|"), (Ascii.eqb c ")"); rewrite ?orb_true_r; simpl;
      intros H; congruence. }
  destruct h as [| c h].
  - destruct Hkind as [[Hleaf [Hh _]] | [[_ [_ ->]] | [_ [_ [Hh _]]]]].
    + destruct (leaf_plain _ Hleaf) as [_ Hne]. congruence.
    + eexists _, _. split; reflexivity.
    + discriminate Hh.
  - exists c, (h ++ r). split; [reflexivity |].
    simpl in Hplain. apply andb_prop in Hplain. apply Hc. tauto.
Qed.

Lemma sorted_Forall (P : string -> Prop) (l : list string) :
  Forall P l -> Forall P (Js.sort l).
Proof. intros H. eapply Permutation_Forall; [apply sort_perm | exact H]. Qed.

Lemma sort_nonempty (l : list string) : l <> [] -> Js.sort l <> [].
Proof.
  intros Hl Hs. apply Hl. apply Permutation_nil. rewrite <- Hs. symmetry. apply sort_perm.
Qed.

Lemma splitRuns_nonempty (sep : ascii -> bool) (s : string) : Js.splitRuns sep s <> [].
Proof.
  induction s as [| c r IH]; simpl; [discriminate |].
  destruct (sep c).
  - destruct r as [| c' r']; [discriminate |]. destruct (sep c'); [exact IH | discriminate].
  - unfold Js.consHead. destruct (Js.splitRuns sep r); discriminate.
Qed.

Lemma keys_block_plain (d : ascii) (n : Node) :
  isDelimiter d = true -> Ascii.eqb "," d = false ->
  isElementType (node_type n) = true -> delimiterFree n = true ->
  allChars (isNot d) (Js.join "," (Js.sort (Obj.keys (node_attribs n)))) = true.
Proof.
  intros Hd Hcomma Hel Hfree.
  destruct (delimiterFree_element n Hel Hfree) as [_ [Hkeys _]].
  apply allChars_join.
  - simpl. unfold isNot. now rewrite Hcomma.
  - apply sorted_Forall. revert Hkeys. apply Forall_impl.
    intros k [_ Hk]. now apply plain_not.
Qed.

Lemma class_block_begins (attribs : list (string * string)) :
  beginsWith (fun c => Ascii.eqb c "_") (classAttr attribs) = true.
Proof.
  unfold classAttr. destruct (Obj.get attribs "class") as [c |]; [| reflexivity].
  destruct (Js.nonEmpty c); reflexivity.
Qed.

Lemma class_block_closed (n : Node) :
  isElementType (node_type n) = true -> delimiterFree n = true ->
  allChars (isNot "]") (classAttr (node_attribs n)) = true.
Proof.
  intros Hel Hfree.
  destruct (delimiterFree_element n Hel Hfree) as [_ [_ [Htokens _]]].
  unfold tokenSet, classTokens in Htokens. unfold classAttr.
  destruct (Obj.get (node_attribs n) "class") as [c |]; [| reflexivity].
  destruct (Js.nonEmpty c); [| reflexivity].
  change ("_CLASS_" ++ Js.join "_" (Js.sort (Js.splitWs c)))
    with ("_CLASS_" ++ Js.join "_" (Js.sort (Js.splitWs c))).
  rewrite allChars_app. simpl (allChars (isNot "]") "_CLASS_"). cbn [andb].
  apply allChars_join; [reflexivity |].
  apply sorted_Forall. revert Htokens. apply Forall_impl.
  intros t Ht. now apply plain_not.
Qed.

(** Equal attribute blocks: the attribute names and the class tokens agree
    up to order. *)
Lemma attrs_block_reads (a b : Node) :
  isElementType (node_type a) = true -> delimiterFree a = true ->
  isElementType (node_type b) = true -> delimiterFree b = true ->
  Js.join "," (Js.sort (Obj.keys (node_attribs a))) ++ classAttr (node_attribs a)
  = Js.join "," (Js.sort (Obj.keys (node_attribs b))) ++ classAttr (node_attribs b) ->
  Permutation (Obj.keys (node_attribs a)) (Obj.keys (node_attribs b))
  /\ sameTokens (classTokens a) (classTokens b).
Proof.
  intros Hea Hfa Heb Hfb Heq.
  destruct (unique_split (fun c => Ascii.eqb c "_") _ _ _ _
              (keys_block_plain "_" a eq_refl eq_refl Hea Hfa)
              (keys_block_plain "_" b eq_refl eq_refl Heb Hfb)
              (class_block_begins _) (class_block_begins _) Heq) as [Hkeys Hclass].
  destruct (delimiterFree_element a Hea Hfa) as [_ [Hka [Hta _]]].
  destruct (delimiterFree_element b Heb Hfb) as [_ [Hkb [Htb _]]].
  split.
  - apply sort_eq_perm. apply (join_inj_names ","); [| | exact Hkeys].
    + apply sorted_Forall. revert Hka. apply Forall_impl.
      intros k [Hne Hk]. split; [exact Hne | now apply plain_not].
    + apply sorted_Forall. revert Hkb. apply Forall_impl.
      intros k [Hne Hk]. split; [exact Hne | now apply plain_not].
  - unfold tokenSet, classTokens in *. unfold classAttr in Hclass.
    destruct (Obj.get (node_attribs a) "class") as [ca |];
      destruct (Obj.get (node_attribs b) "class") as [cb |];
      try destruct (Js.nonEmpty ca); try destruct (Js.nonEmpty cb);
      try exact I; try discriminate Hclass.
    simpl. apply sort_eq_perm. apply append_inj_l in Hclass.
    apply (join_inj "_"); [| | | | exact Hclass].
    + apply sort_nonempty, splitRuns_nonempty.
    + apply sort_nonempty, splitRuns_nonempty.
    + apply sorted_Forall. revert Hta. apply Forall_impl. intros t Ht. now apply plain_not.
    + apply sorted_Forall. revert Htb. apply Forall_impl. intros t Ht. now apply plain_not.
Qed.

Lemma children_read_back :
  forall cs1,
    Forall (fun c => delimiterFree c = true /\ readsBack c) cs1 ->
    forall cs2 x y,
      Forall (fun c => delimiterFree c = true) cs2 ->
      Js.join "|" (map getStructuralSignature cs1) ++ String ")" x
      = Js.join "|" (map getStructuralSignature cs2) ++ String ")" y ->
      Forall2 sameShape cs1 cs2 /\ x = y.
Proof.
  induction 1 as [| a r1 [Hfa Ha] Hr1 IH]; intros cs2 x y H2 Heq.
  - destruct cs2 as [| b r2]; [simpl in Heq; injection Heq as ->; split; constructor |].
    exfalso. inversion H2 as [| ? ? Hfb _]; subst.
    destruct (signature_begins b Hfb) as [c [t [Hsig Hc]]].
    cbn [map] in Heq. rewrite join_cons, Hsig in Heq. simpl in Heq.
    injection Heq as <- _. discriminate Hc.
  - destruct cs2 as [| b r2].
    + exfalso. destruct (signature_begins a Hfa) as [c [t [Hsig Hc]]].
      cbn [map] in Heq. rewrite join_cons, Hsig in Heq. simpl in Heq.
      injection Heq as -> _. discriminate Hc.
    + inversion H2 as [| ? ? Hfb Hr2]; subst.
      cbn [map] in Heq. rewrite !join_cons, !append_assoc_string in Heq.
      apply Ha in Heq; [| exact Hfb | |].
      * destruct Heq as [Hab Htail].
        destruct r1 as [| a' r1'], r2 as [| b' r2']; cbn [map] in Htail.
        -- simpl in Htail. injection Htail as ->.
           split; [constructor; [exact Hab | constructor] | reflexivity].
        -- simpl in Htail. discriminate Htail.
        -- simpl in Htail. discriminate Htail.
        -- change (String "|" (Js.join "|" (map getStructuralSignature (a' :: r1'))
                               ++ String ")" x)
                   = String "|" (Js.join "|" (map getStructuralSignature (b' :: r2'))
                                 ++ String ")" y)) in Htail.
           injection Htail as Htail.
           destruct (IH _ _ _ Hr2 Htail) as [Hrest ->].
           split; [constructor; assumption | reflexivity].
      * destruct (map getStructuralSignature r1); reflexivity.
      * destruct (map getStructuralSignature r2); reflexivity.
Qed.

Lemma closes_is_delimiter (x : string) :
  beginsWith closesChild x = true -> beginsWith isDelimiter x = true.
Proof.
  destruct x as [| c x]; [reflexivity |]. simpl. unfold closesChild, isDelimiter.
  destruct (Ascii.eqb c "|"), (Ascii.eqb c ")"); try discriminate;
    intros _; now rewrite ?orb_true_r.
Qed.

Lemma signature_reads_back (a : Node) : delimiterFree a = true -> readsBack a.
Proof.
  induction a as [id type name attribs children data IH] using Node_forall_ind.
  intros Hfa b x y Hfb Hx Hy Heq.
  set (a := mkNode id type name attribs children data) in *.
  destruct (signature_parts a x Hfa Hx) as [ha [ra [Ha [Hpa [Hda Hka]]]]].
  destruct (signature_parts b y Hfb Hy) as [hb [rb [Hb [Hpb [Hdb Hkb]]]]].
  rewrite Ha, Hb in Heq.
  destruct (unique_split isDelimiter ha hb ra rb Hpa Hpb Hda Hdb Heq) as [Hh Hr].
  destruct Hka as [[Hla [-> ->]] | [[Hea [-> ->]] | [Hla [Hea [-> ->]]]]];
    destruct Hkb as [[Hlb [-> ->]] | [[Heb [-> ->]] | [Hlb [Heb [-> ->]]]]].
  - split; [| exact Hr].
    apply same_kind; [apply (leaf_not_element _ Hla) | exact Hh].
  - subst x. discriminate Hx.
  - subst x. discriminate Hx.
  - subst y. discriminate Hy.
  - injection Hr as Hr.
    assert (allChars (isNot "]")
              (Js.join "," (Js.sort (Obj.keys (node_attribs a)))
               ++ classAttr (node_attribs a)) = true) as Hca.
    { rewrite allChars_app.
      rewrite (keys_block_plain "]" a eq_refl eq_refl Hea Hfa).
      apply (class_block_closed a Hea Hfa). }
    assert (allChars (isNot "]")
              (Js.join "," (Js.sort (Obj.keys (node_attribs b)))
               ++ classAttr (node_attribs b)) = true) as Hcb.
    { rewrite allChars_app.
      rewrite (keys_block_plain "]" b eq_refl eq_refl Heb Hfb).
      apply (class_block_closed b Heb Hfb). }
    match type of Hr with
    | _ ++ ?r1 = _ ++ ?r2 =>
        destruct (unique_split (fun c => Ascii.eqb c "]") _ _ r1 r2 Hca Hcb
                    eq_refl eq_refl Hr) as [Hattrs Hrest]
    end.
    injection Hrest as Hrest.
    destruct (attrs_block_reads a b Hea Hfa Heb Hfb Hattrs) as [Hkeys Htokens].
    destruct (delimiterFree_element a Hea Hfa) as [_ [_ [_ Hchildren]]].
    destruct (delimiterFree_element b Heb Hfb) as [_ [_ [_ Hchildrenb]]].
    assert (Forall (fun c => delimiterFree c = true /\ readsBack c) children) as Hall.
    { simpl in Hchildren. clear - IH Hchildren.
      induction IH as [| c r Hc _ IHr]; [constructor |].
      inversion Hchildren; subst. constructor; auto. }
    destruct (children_read_back children Hall (node_children b) x y Hchildrenb Hrest)
      as [Hshapes ->].
    split; [| reflexivity]. now apply same_element.
  - discriminate Hr.
  - subst y. discriminate Hy.
  - discriminate Hr.
  - apply append_inj_l in Hr.
    assert (plainName type = true /\ plainName (node_type b) = true) as [Hta Htb].
    { split.
      - simpl in Hfa, Hla, Hea. now rewrite Hla, Hea in Hfa.
      - destruct b as [bid btype bname battribs bchildren bdata].
        simpl in Hfb, Hlb, Heb |- *. now rewrite Hlb, Heb in Hfb. }
    destruct (unique_split isDelimiter _ _ _ _ Hta Htb
                (closes_is_delimiter _ Hx) (closes_is_delimiter _ Hy) Hr) as [Htype ->].
    split; [| reflexivity]. apply same_kind; [exact Hea | exact Htype].
Qed.

(** C4 (amended). Two subtrees that agree on tag name, on the attribute
    names up to order, on the class tokens up to order (the tokens of a
    non-empty class value split on white-space runs, each counted as often as
    it occurs) and, recursively and in order, on the shapes of their children
    have equal signatures; and two subtrees with equal signatures agree in
    this way when no tag name, attribute name, class token or unknown node
    kind in them holds one of the characters the signature writes between
    its parts, and no attribute name is empty. Attribute values other than
    class and the content of text and comment nodes do not enter; the elements
    inside an icon do. *)
Theorem signature_characterises_shape (a b : Node) :
  (sameShape a b -> getStructuralSignature a = getStructuralSignature b)
  /\ (delimiterFree a = true -> delimiterFree b = true ->
      getStructuralSignature a = getStructuralSignature b -> sameShape a b).
Proof.
  split; [apply signature_respects_shape |].
  intros Ha Hb Hsig.
  destruct (signature_reads_back a Ha b "" "" Hb eq_refl eq_refl) as [H _]; [| exact H].
  now rewrite !append_empty_r.
Qed.

Lemma signature_characterises_shape_witness :
  let a := shapeEl 1 "a" [("href", "/"); ("class", "nav link")] [shapeText 2 "Home"] in
  let b := shapeEl 3 "a" [("class", "link nav"); ("href", "/about")] [shapeText 4 "About"] in
  delimiterFree a = true /\ delimiterFree b = true
  /\ getStructuralSignature a = getStructuralSignature b
  /\ sameShape a b.
Proof.
  split; [reflexivity |]. split; [reflexivity |]. split; [reflexivity |].
  exact (proj2 (signature_characterises_shape
                  (shapeEl 1 "a" [("href", "/"); ("class", "nav link")] [shapeText 2 "Home"])
                  (shapeEl 3 "a" [("class", "link nav"); ("href", "/about")]
                     [shapeText 4 "About"]))
               eq_refl eq_refl eq_refl).
Defined.
